(** * Shape Shifter: the layer/timeline reducer (src/app/store/aia/reducer.ts)

    A shallow embedding of the reducer and of the helpers it calls, with
    the properties of the document-state engine proved about it.

    Modelling conventions.
    - JavaScript [Set<string>] values are insertion-ordered and
      duplicate-free; they are lists of strings with the Set operations
      written out ([JSSet]).
    - Times are JavaScript numbers; the embedding uses [Z] (integral time
      units, as in every example of the specification).
    - [AnimationBlock] objects are written in place by
      [updatePathAnimationBlock], so they live in a [Store] and are named
      by reference ([BlockRef]); every state that shares a block sees the
      write.  [Animation] and [Layer] objects are only ever written on a
      fresh clone (the one other write stores an element-for-element copy
      of the array it replaces), so they are carried by value.
    - A call either returns the very [State] object it received or a new
      object literal; [Outcome] records which, so that reference equality
      of states can be stated.
    - A JavaScript [TypeError] is the [None] result of the [Eff] monad; the
      store at the time of the throw is kept. *)

From Stdlib Require Import ZArith List String Bool Lia DecimalString.
From stdpp Require Import base list.
Import ListNotations.

Local Open Scope string_scope.
Local Open Scope list_scope.

(** ** JavaScript sets of ids *)

Module JSSet.

Definition t := list string.

Definition empty : t := [].

Definition has (s : t) (x : string) : bool := existsb (String.eqb x) s.

(** [Set.prototype.add]: a new element goes last, a present one stays. *)
Definition add (x : string) (s : t) : t := if has s x then s else s ++ [x].

Definition delete (x : string) (s : t) : t :=
  List.filter (fun y => negb (String.eqb y x)) s.

Definition size (s : t) : nat := length s.

(** [new Set(s)] *)
Definition copy (s : t) : t := s.

(** lodash [_.isEqual] on two sets: same size, and every element of the
    first is an element of the second (order is ignored). *)
Definition isEqual (a b : t) : bool :=
  Nat.eqb (size a) (size b) && forallb (has b) a.

(** [s.size] used as a condition *)
Definition nonEmpty (s : t) : bool := negb (Nat.eqb (size s) 0).

End JSSet.

(** ** Geometry collaborator

    The path library (scripts/paths, scripts/algorithms) is outside the
    reducer.  Its value types and builder operations are modelled from the
    specification; the two geometric algorithms are an interface
    ([Collaborators]). *)

Definition Point : Type := (Z * Z)%type.

Inductive SvgChar := SvgM | SvgL | SvgQ | SvgC | SvgA | SvgZ.

(** Modelled from the spec: a draw command of the absent path library.  A
    command-type promotion is recorded beside the command's own type, so
    that it can be reverted. *)
Record Command := mkCommand {
  svgChar : SvgChar;
  conversion : option SvgChar;
  endPoint : Point
}.

(** Modelled from the spec: a subpath of the absent path library, an ordered
    run of commands, flagged when it is a synthetic collapsing subpath. *)
Record SubPath := mkSubPath {
  getCommands : list Command;
  isCollapsing : bool
}.

(** [Path.getSubPaths()] is the path itself. *)
Abbreviation Path := (list SubPath).

Definition unconvertCommand (c : Command) : Command :=
  {| svgChar := svgChar c; conversion := None; endPoint := endPoint c |}.

(** Modelled from the spec: [PathMutator.unconvertSubPath(subIdx)] of the
    absent path library reverts the promotions of one subpath. *)
Definition unconvertSubPath (subIdx : nat) (p : Path) : Path :=
  alter (fun sp => {| getCommands := map unconvertCommand (getCommands sp);
                      isCollapsing := isCollapsing sp |}) subIdx p.

(** Modelled from the spec: [PathMutator.deleteCollapsingSubPaths()] of the
    absent path library. *)
Definition deleteCollapsingSubPaths (p : Path) : Path :=
  List.filter (fun sp => negb (isCollapsing sp)) p.

Definition collapsingCommands (pole : Point) (numCommands : nat) : list Command :=
  match numCommands with
  | O => []
  | S n => {| svgChar := SvgM; conversion := None; endPoint := pole |}
           :: repeat {| svgChar := SvgL; conversion := None; endPoint := pole |} n
  end.

(** Modelled from the spec: [PathMutator.addCollapsingSubPath(point, n)] of
    the absent path library appends a single-point subpath of [n] commands. *)
Definition addCollapsingSubPath (pole : Point) (numCommands : nat) (p : Path) : Path :=
  p ++ [ {| getCommands := collapsingCommands pole numCommands;
            isCollapsing := true |} ].

Definition numCommandsOf (sp : SubPath) : nat := length (getCommands sp).

(** The command count of every subpath, in order. *)
Definition commandCounts (p : Path) : list nat := map numCommandsOf p.

Definition hasConversion (sp : SubPath) : bool :=
  existsb (fun c => match conversion c with Some _ => true | None => false end)
          (getCommands sp).

(** What the reducer takes from its collaborators without this file
    fixing it: the two geometric algorithms, and the duration that
    [new Animation()] gives an animation. *)
Class Collaborators := {
  getPoleOfInaccessibility : Path -> nat -> Point;
  (** [AutoAwesome.autoConvert(subIdx, from, to)], returning [(from, to)] *)
  autoConvert : nat -> Path -> Path -> Path * Path;
  defaultDuration : Z
}.

(** What the specification promises of [autoConvert]: command types are
    reconciled without changing any point count. *)
Class CollaboratorLaws (G : Collaborators) := {
  autoConvert_counts : forall i p q,
    commandCounts (fst (autoConvert i p q)) = commandCounts p /\
    commandCounts (snd (autoConvert i p q)) = commandCounts q
}.

(** ** Layers *)

Inductive PropertyKind := PathProperty | ColorProperty | OtherProperty.

(** Modelled from the spec: a node of the layer tree (scripts/layers is
    absent).  [isVectorLayer] is [instanceof VectorLayer]. *)
#[warnings="-register-all"]
Inductive Layer := mkLayer {
  lid : string;
  isVectorLayer : bool;
  animatableProperties : list (string * PropertyKind);
  children : list Layer
}.

(** Modelled from the spec: [Layer.findLayerById], depth first. *)
Fixpoint findLayerById (l : Layer) (id : string) : option Layer :=
  if String.eqb (lid l) id then Some l
  else (fix go (cs : list Layer) : option Layer :=
          match cs with
          | [] => None
          | c :: cs' => match findLayerById c id with
                        | Some r => Some r
                        | None => go cs'
                        end
          end) (children l).

(** Modelled from the spec: [Layer.walk], the ids met in pre-order. *)
Fixpoint walkIds (l : Layer) : list string :=
  lid l :: (fix go (cs : list Layer) : list string :=
              match cs with
              | [] => []
              | c :: cs' => walkIds c ++ go cs'
              end) (children l).

(** Modelled from the spec: [LayerUtil.findParentVectorLayer], the first
    vector layer whose tree holds the id. *)
Fixpoint findParentVectorLayer (vls : list Layer) (id : string) : option Layer :=
  match vls with
  | [] => None
  | vl :: rest => match findLayerById vl id with
                  | Some _ => Some vl
                  | None => findParentVectorLayer rest id
                  end
  end.

(** Modelled from the spec: [LayerUtil.removeLayerFromTree] below a root
    that is kept. *)
Fixpoint removeLayerFromTree (l : Layer) (id : string) : Layer :=
  {| lid := lid l;
     isVectorLayer := isVectorLayer l;
     animatableProperties := animatableProperties l;
     children := (fix go (cs : list Layer) : list Layer :=
                    match cs with
                    | [] => []
                    | c :: cs' => if String.eqb (lid c) id then go cs'
                                  else removeLayerFromTree c id :: go cs'
                    end) (children l) |}.

(** Modelled from the spec: [LayerUtil.replaceLayerInTree]. *)
Fixpoint replaceLayerInTree (l : Layer) (r : Layer) : Layer :=
  if String.eqb (lid l) (lid r) then r
  else {| lid := lid l;
          isVectorLayer := isVectorLayer l;
          animatableProperties := animatableProperties l;
          children := (fix go (cs : list Layer) : list Layer :=
                         match cs with
                         | [] => []
                         | c :: cs' => replaceLayerInTree c r :: go cs'
                         end) (children l) |}.

Definition propertyOf (l : Layer) (propertyName : string) : option PropertyKind :=
  snd <$> find (fun kv => String.eqb (fst kv) propertyName) (animatableProperties l).

(** ** Timeline entities and the store of block objects *)

Inductive CanvasType := Start | End.

Inductive BlockKind := PathAnimationBlock | ColorAnimationBlock | NumberAnimationBlock.

(** A [fromValue]/[toValue]: a path, a colour string, a number, or nothing. *)
Inductive Value :=
| VUndefined
| VPath (p : Path)
| VColor (c : string)
| VNumber (n : Z).

(** JavaScript truthiness of a value, as tested by [if (oppPath)]. *)
Definition truthy (v : Value) : bool :=
  match v with
  | VUndefined => false
  | VPath _ => true
  | VColor c => negb (String.eqb c "")
  | VNumber n => negb (Z.eqb n 0)
  end.

(** Modelled from the spec: the fields of an [AnimationBlock]
    (scripts/animations is absent). *)
Record AnimationBlock := mkBlock {
  bid : string;
  bkind : BlockKind;
  layerId : string;
  animationId : string;
  propertyName : string;
  startTime : Z;
  endTime : Z;
  fromValue : Value;
  toValue : Value
}.

Definition BlockRef : Type := nat.

(** Modelled from the spec: the fields of an [Animation]; [blocks] holds
    references to block objects. *)
Record Animation := mkAnimation {
  aid : string;
  duration : Z;
  blocks : list BlockRef
}.

(** The block objects allocated so far (a reference is an index) and the
    counter behind generated ids. *)
Record Store := mkStore {
  objects : list AnimationBlock;
  idCounter : nat
}.

Definition noBlock : AnimationBlock :=
  {| bid := ""; bkind := NumberAnimationBlock; layerId := ""; animationId := "";
     propertyName := ""; startTime := 0; endTime := 0;
     fromValue := VUndefined; toValue := VUndefined |}.

(** Reading through a reference. *)
Definition deref (h : Store) (r : BlockRef) : AnimationBlock := nth r (objects h) noBlock.

(** ** The effect monad: a store threaded through, and exceptions *)

Definition Eff (A : Type) : Type := Store -> option A * Store.

Definition ret {A} (a : A) : Eff A := fun h => (Some a, h).

Definition throw {A} : Eff A := fun h => (None, h).

Definition bind {A B} (m : Eff A) (k : A -> Eff B) : Eff B :=
  fun h => match m h with
           | (Some a, h') => k a h'
           | (None, h') => (None, h')
           end.

Declare Scope eff_scope.
Delimit Scope eff_scope with eff.
Notation "'let!' x ':=' m 'in' k" := (bind m (fun x => k))
  (at level 10, x pattern, m at level 100, k at level 200) : eff_scope.

(** [x.f] on a value that may be [undefined]. *)
Definition defined {A} (o : option A) : Eff A :=
  match o with Some a => ret a | None => throw end.

Definition getStore : Eff Store := fun h => (Some h, h).

(** Modelled from the spec: ids are unique strings; a constructor called
    without an id takes the next value of a counter (lodash [_.uniqueId]). *)
Definition uniqueId : Eff string :=
  fun h => let n := S (idCounter h) in
           (Some (NilEmpty.string_of_uint (Nat.to_uint n)),
            {| objects := objects h; idCounter := n |}).

(** [new XAnimationBlock(args)]: the object is allocated, its reference
    returned. *)
Definition newBlock (b : AnimationBlock) : Eff BlockRef :=
  fun h => (Some (length (objects h)),
            {| objects := objects h ++ [b]; idCounter := idCounter h |}).

Definition withFromValue (b : AnimationBlock) (v : Value) : AnimationBlock :=
  {| bid := bid b; bkind := bkind b; layerId := layerId b; animationId := animationId b;
     propertyName := propertyName b; startTime := startTime b; endTime := endTime b;
     fromValue := v; toValue := toValue b |}.

Definition withToValue (b : AnimationBlock) (v : Value) : AnimationBlock :=
  {| bid := bid b; bkind := bkind b; layerId := layerId b; animationId := animationId b;
     propertyName := propertyName b; startTime := startTime b; endTime := endTime b;
     fromValue := fromValue b; toValue := v |}.

(** [block.fromValue = v] / [block.toValue = v]: a write to the object
    the reference names. *)
Definition setFromValue (r : BlockRef) (v : Value) : Eff unit :=
  fun h => (Some tt,
            {| objects := <[r := withFromValue (deref h r) v]> (objects h);
               idCounter := idCounter h |}).

Definition setToValue (r : BlockRef) (v : Value) : Eff unit :=
  fun h => (Some tt,
            {| objects := <[r := withToValue (deref h r) v]> (objects h);
               idCounter := idCounter h |}).

(** ** The document *)

Record LayersState := mkLayers {
  vectorLayers : list Layer;
  activeVectorLayerId : string;
  selectedLayerIds : JSSet.t;
  collapsedLayerIds : JSSet.t;
  hiddenLayerIds : JSSet.t
}.

Record TimelineState := mkTimeline {
  animations : list Animation;
  selectedAnimationIds : JSSet.t;
  activeAnimationId : string;
  selectedBlockIds : JSSet.t
}.

(** [topAnimations] is the [animations] property that
    [updatePathAnimationBlock] puts on the state object itself; object
    spreads carry it along. *)
Record State := mkState {
  layers : LayersState;
  timeline : TimelineState;
  topAnimations : option (list Animation)
}.

(** What a call hands back: the state object it was given, or a new one. *)
Inductive Outcome :=
| Unchanged
| Changed (s' : State).

(** The state a caller holds after a call on [s]. *)
Definition resultOf (s : State) (o : Outcome) : State :=
  match o with
  | Unchanged => s
  | Changed s' => s'
  end.

(** Reference equality of the result with the argument. *)
Definition sameReference (o : Outcome) : bool :=
  match o with Unchanged => true | Changed _ => false end.

(** Object spreads: [{...layers, f: v}], [{...timeline, f: v}],
    [{...state, f: v}]. *)
Definition withSelectedLayerIds (l : LayersState) (v : JSSet.t) : LayersState :=
  {| vectorLayers := vectorLayers l; activeVectorLayerId := activeVectorLayerId l;
     selectedLayerIds := v; collapsedLayerIds := collapsedLayerIds l;
     hiddenLayerIds := hiddenLayerIds l |}.

Definition withVectorLayers (l : LayersState) (v : list Layer) : LayersState :=
  {| vectorLayers := v; activeVectorLayerId := activeVectorLayerId l;
     selectedLayerIds := selectedLayerIds l; collapsedLayerIds := collapsedLayerIds l;
     hiddenLayerIds := hiddenLayerIds l |}.

Definition withCollapsedLayerIds (l : LayersState) (v : JSSet.t) : LayersState :=
  {| vectorLayers := vectorLayers l; activeVectorLayerId := activeVectorLayerId l;
     selectedLayerIds := selectedLayerIds l; collapsedLayerIds := v;
     hiddenLayerIds := hiddenLayerIds l |}.

Definition withHiddenLayerIds (l : LayersState) (v : JSSet.t) : LayersState :=
  {| vectorLayers := vectorLayers l; activeVectorLayerId := activeVectorLayerId l;
     selectedLayerIds := selectedLayerIds l; collapsedLayerIds := collapsedLayerIds l;
     hiddenLayerIds := v |}.

Definition withAnimations (t : TimelineState) (v : list Animation) : TimelineState :=
  {| animations := v; selectedAnimationIds := selectedAnimationIds t;
     activeAnimationId := activeAnimationId t; selectedBlockIds := selectedBlockIds t |}.

Definition withActiveAnimationId (t : TimelineState) (v : string) : TimelineState :=
  {| animations := animations t; selectedAnimationIds := selectedAnimationIds t;
     activeAnimationId := v; selectedBlockIds := selectedBlockIds t |}.

Definition withLayers (s : State) (l : LayersState) : State :=
  {| layers := l; timeline := timeline s; topAnimations := topAnimations s |}.

Definition withTimeline (s : State) (t : TimelineState) : State :=
  {| layers := layers s; timeline := t; topAnimations := topAnimations s |}.

(** [anim.clone()] followed by [anim.blocks = bs] *)
Definition withBlocks (a : Animation) (bs : list BlockRef) : Animation :=
  {| aid := aid a; duration := duration a; blocks := bs |}.

(** lodash [_.findIndex]; [None] is its [-1]. *)
Fixpoint findIndex {A} (f : A -> bool) (l : list A) : option nat :=
  match l with
  | [] => None
  | x :: l' => if f x then Some 0 else S <$> findIndex f l'
  end.

(** [l[_.findIndex(l, f)]], [undefined] when nothing matches. *)
Definition atFoundIndex {A} (f : A -> bool) (l : list A) : option A :=
  i ← findIndex f l; l !! i.

(** [l[i] = x] where [i] came from [_.findIndex]: index [-1] names no
    element and leaves the array's elements as they are. *)
Definition assignAt {A} (i : option nat) (x : A) (l : list A) : list A :=
  match i with
  | Some i => <[i := x]> l
  | None => l
  end.

(** ** Selection coordinator (reducer.ts, lines 456-551) *)

Definition clearIfNonEmpty (s : JSSet.t) : JSSet.t :=
  if JSSet.nonEmpty s then JSSet.empty else s.

Definition selectAnimationId (state : State) (animationId : string)
    (clearExisting : bool) : Outcome :=
  let layers_ := layers state in
  let timeline_ := timeline state in
  let oldSelectedAnimationIds := selectedBlockIds timeline_ in
  let newSelectedAnimationIds :=
    JSSet.add animationId
      (if clearExisting then JSSet.empty else JSSet.copy oldSelectedAnimationIds) in
  if JSSet.isEqual oldSelectedAnimationIds newSelectedAnimationIds then Unchanged
  else
    let selectedLayerIds_ := clearIfNonEmpty (selectedLayerIds layers_) in
    let selectedBlockIds_ := clearIfNonEmpty (selectedBlockIds timeline_) in
    Changed
      {| layers := withSelectedLayerIds layers_ selectedLayerIds_;
         timeline := {| animations := animations timeline_;
                        selectedAnimationIds := newSelectedAnimationIds;
                        activeAnimationId := activeAnimationId timeline_;
                        selectedBlockIds := selectedBlockIds_ |};
         topAnimations := topAnimations state |}.

Definition selectBlockId (state : State) (blockId : string)
    (clearExisting : bool) : Outcome :=
  let layers_ := layers state in
  let timeline_ := timeline state in
  let oldSelectedBlockIds := selectedBlockIds timeline_ in
  let newSelectedBlockIds :=
    JSSet.add blockId
      (if clearExisting then JSSet.empty else JSSet.copy oldSelectedBlockIds) in
  if JSSet.isEqual oldSelectedBlockIds newSelectedBlockIds then Unchanged
  else
    let selectedLayerIds_ := clearIfNonEmpty (selectedLayerIds layers_) in
    let selectedAnimationIds_ := clearIfNonEmpty (selectedAnimationIds timeline_) in
    Changed
      {| layers := withSelectedLayerIds layers_ selectedLayerIds_;
         timeline := {| animations := animations timeline_;
                        selectedAnimationIds := selectedAnimationIds_;
                        activeAnimationId := activeAnimationId timeline_;
                        selectedBlockIds := newSelectedBlockIds |};
         topAnimations := topAnimations state |}.

(** [s.forEach(id => { if (id !== layerId) s.delete(id) })] *)
Definition deleteAllBut (layerId : string) (s : JSSet.t) : JSSet.t :=
  foldl (fun acc id => if negb (String.eqb id layerId) then JSSet.delete id acc else acc) s s.

Definition selectLayerId (state : State) (layerId : string)
    (shouldToggle clearExisting : bool) : Eff Outcome :=
  let layers_ := layers state in
  let selectedLayerIds0 := JSSet.copy (selectedLayerIds layers_) in
  let selectedLayerIds1 :=
    if clearExisting then deleteAllBut layerId selectedLayerIds0 else selectedLayerIds0 in
  let activeVectorLayerId0 := activeVectorLayerId layers_ in
  (* [parentVl.id] is read on either side of the [||] *)
  (let! parentVl := defined (findParentVectorLayer (vectorLayers layers_) layerId) in
   let '(activeVectorLayerId1, selectedLayerIds2) :=
     if clearExisting || String.eqb activeVectorLayerId0 (lid parentVl) then
       (lid parentVl,
        if shouldToggle && JSSet.has selectedLayerIds1 layerId
        then JSSet.delete layerId selectedLayerIds1
        else JSSet.add layerId selectedLayerIds1)
     else (activeVectorLayerId0, selectedLayerIds1) in
   let timeline_ := timeline state in
   let selectedAnimationIds_ := clearIfNonEmpty (selectedAnimationIds timeline_) in
   let selectedBlockIds_ := clearIfNonEmpty (selectedBlockIds timeline_) in
   ret (Changed
     {| layers := {| vectorLayers := vectorLayers layers_;
                     activeVectorLayerId := activeVectorLayerId1;
                     selectedLayerIds := selectedLayerIds2;
                     collapsedLayerIds := collapsedLayerIds layers_;
                     hiddenLayerIds := hiddenLayerIds layers_ |};
        timeline := {| animations := animations timeline_;
                       selectedAnimationIds := selectedAnimationIds_;
                       activeAnimationId := activeAnimationId timeline_;
                       selectedBlockIds := selectedBlockIds_ |};
        topAnimations := topAnimations state |}))%eff.

(** ** Gap finder (reducer.ts, lines 195-240) *)

(** Times are JavaScript numbers, that is IEEE 754 doubles.  The embedding
    covers the times that are whole numbers and writes them as [Z]; a time
    with a fractional part is outside it.  Every whole number of magnitude
    at most 2^53 is a double; a larger one is a double when it is a
    multiple of its unit in the last place.

    [roundToDouble z] is the double nearest to the whole number [z], a tie
    going to the even mantissa: the value of [a + b] and of [a - b] when
    their exact result is [z].  (A result of magnitude 2^1024 or more
    would be an infinity; no time below reaches it.) *)
Definition roundToDouble (z : Z) : Z :=
  let a := Z.abs z in
  if (a <=? 2 ^ 53)%Z then z
  else
    let ulp := (2 ^ (Z.log2 a - 52))%Z in
    let q := (a / ulp)%Z in
    let r := (a mod ulp)%Z in
    let q' := if (2 * r <? ulp)%Z then q
              else if (ulp <? 2 * r)%Z then (q + 1)%Z
              else if Z.even q then q else (q + 1)%Z in
    (Z.sgn z * (q' * ulp))%Z.

(** [a + b] and [a - b] on numbers. *)
Definition numAdd (a b : Z) : Z := roundToDouble (a + b).

Definition numSub (a b : Z) : Z := roundToDouble (a - b).

Record Gap := mkGap { gapStart : Z; gapEnd : Z }.

Definition newBlockDuration : Z := 100.

Definition activeTime : Z := 0.

(** Stable sort by a key, as [Array.prototype.sort] with the comparator
    [(a, b) => key(a) - key(b)]: an element is put before the later
    elements of equal key. *)
Fixpoint insertBy {A} (key : A -> Z) (x : A) (l : list A) : list A :=
  match l with
  | [] => [x]
  | y :: l' => if (key x <=? key y)%Z then x :: y :: l' else y :: insertBy key x l'
  end.

Definition sortBy {A} (key : A -> Z) (l : list A) : list A :=
  fold_right (insertBy key) [] l.

(** Modelled from the spec: [ModelUtil.getOrderedBlocksByPropertyByLayer]
    (scripts/common is absent) groups an animation's blocks by layer and
    property, each group in start-time order; this is the group read by
    [(blocksByLayerId[layer.id] || {})[propertyName] || []]. *)
Definition blockNeighborsOf (h : Store) (animation : Animation)
    (layerId_ propertyName_ : string) : list AnimationBlock :=
  sortBy startTime
    (List.filter (fun b => String.eqb (layerId b) layerId_ && String.eqb (propertyName b) propertyName_)
            (map (deref h) (blocks animation))).

(** The [for] loop and the [push] after it: gap [i] runs from the end of
    block [i-1] (or 0) to the start of block [i]; the last one runs to the
    animation's duration. *)
Fixpoint buildGaps (prevEnd : Z) (blockNeighbors : list AnimationBlock)
    (animationDuration : Z) : list Gap :=
  match blockNeighbors with
  | [] => [ {| gapStart := prevEnd; gapEnd := animationDuration |} ]
  | b :: rest => {| gapStart := prevEnd; gapEnd := startTime b |}
                 :: buildGaps (endTime b) rest animationDuration
  end.

Definition gapDist (g : Gap) : Z :=
  Z.min (Z.abs (gapEnd g - activeTime)) (Z.abs (gapStart g - activeTime)).

(** [gaps.filter(...).map(...).sort(...)] *)
Definition eligibleGaps (gaps : list Gap) : list Gap :=
  sortBy gapDist (List.filter (fun g => (gapEnd g - gapStart g >? newBlockDuration)%Z) gaps).

(** Lines 236-240: the start and end time for the chosen gap.  The sum
    and the two differences are doubles, so each is rounded.  (The
    differences compared at lines 220 and 227 need no rounding: by
    [numSub_gtb] and [numSub_ltb] below, rounding does not move a
    difference across 0 or across 100.) *)
Definition placeInGap (g : Gap) : Z * Z :=
  let startTime0 := Z.max activeTime (gapStart g) in
  let endTime_ := Z.min (numAdd startTime0 newBlockDuration) (gapEnd g) in
  let startTime1 :=
    if (numSub endTime_ startTime0 <? newBlockDuration)%Z
    then numSub endTime_ newBlockDuration else startTime0 in
  (startTime1, endTime_).

(** The gap finder as a whole: the chosen gap, if any. *)
Definition findGap (h : Store) (animation : Animation)
    (layerId_ propertyName_ : string) : option Gap :=
  head (eligibleGaps
          (buildGaps 0 (blockNeighborsOf h animation layerId_ propertyName_)
                     (duration animation))).

Section WithCollaborators.

Context {G : Collaborators}.

(** ** Path compatibilizer (reducer.ts, lines 697-781) *)

(** Lines 713-717: every subpath of the edited path is unconverted, then
    the collapsing subpaths are deleted. *)
Definition normalizePath (path : Path) : Path :=
  deleteCollapsingSubPaths
    (foldl (fun mutator subIdx => unconvertSubPath subIdx mutator) path
           (seq 0 (length path))).

(** Lines 741-747: the loop that pads [pathToChange]. *)
Definition padWithCollapsing (pathToChange oppPathToChange : Path)
    (minIdx maxIdx : nat) : option Path :=
  foldl (fun mutator i =>
           m ← mutator;
           sp ← oppPathToChange !! i;
           Some (addCollapsingSubPath (getPoleOfInaccessibility oppPathToChange i)
                                      (numCommandsOf sp) m))
        (Some pathToChange) (seq minIdx (maxIdx - minIdx)).

(** Lines 734-753: equal subpath counts. *)
Definition equalizeSubPaths (path oppPath : Path) : option (Path * Path) :=
  let numSubPaths := length path in
  let numOppSubPaths := length oppPath in
  if negb (Nat.eqb numSubPaths numOppSubPaths) then
    let pathToChange := if Nat.ltb numSubPaths numOppSubPaths then path else oppPath in
    let oppPathToChange := if Nat.ltb numSubPaths numOppSubPaths then oppPath else path in
    let minIdx := Nat.min numSubPaths numOppSubPaths in
    let maxIdx := Nat.max numSubPaths numOppSubPaths in
    built ← padWithCollapsing pathToChange oppPathToChange minIdx maxIdx;
    Some (if Nat.ltb numSubPaths numOppSubPaths then (built, oppPath) else (path, built))
  else Some (path, oppPath).

(** Lines 754-772: one turn of the conversion loop. *)
Definition autoConvertStep (acc : option (Path * Path)) (subIdx : nat) : option (Path * Path) :=
  '(path, oppPath) ← acc;
  sp ← path !! subIdx;
  osp ← oppPath !! subIdx;
  if Nat.eqb (numCommandsOf sp) (numCommandsOf osp)
  then Some (autoConvert subIdx path (unconvertSubPath subIdx oppPath))
  else Some (path, oppPath).

(** Lines 733-772, for an opposite path that is there: the edited path
    comes in normalized, the pair comes out reconciled. *)
Definition compatibilize (path oppPath0 : Path) : option (Path * Path) :=
  let oppPath := deleteCollapsingSubPaths oppPath0 in
  let numSubPaths := length path in
  let numOppSubPaths := length oppPath in
  foldl autoConvertStep (equalizeSubPaths path oppPath)
        (seq 0 (Nat.max numSubPaths numOppSubPaths)).

Definition getBlockPath (block : AnimationBlock) (t : CanvasType) : Value :=
  match t with Start => fromValue block | End => toValue block end.

Definition setBlockPath (block : BlockRef) (t : CanvasType) (p : Value) : Eff unit :=
  match t with Start => setFromValue block p | End => setToValue block p end.

Definition oppositeOf (source : CanvasType) : CanvasType :=
  match source with Start => End | End => Start end.

(** Lines 730-773: the two values to write, [(path, oppPath)].  A truthy
    opposite value that is no path has no [mutate]. *)
Definition reconcile (path : Path) (oppPath : Value) : option (Value * Value) :=
  if truthy oppPath then
    match oppPath with
    | VPath opp => '(p, o) ← compatibilize path opp; Some (VPath p, VPath o)
    | _ => None
    end
  else Some (VPath path, oppPath).

Definition updatePathAnimationBlock (state : State) (blockId : string)
    (source : CanvasType) (path : Path) : Eff Outcome :=
  let timeline_ := timeline state in
  let animations_ := animations timeline_ in
  let activeAnimationId_ := activeAnimationId timeline_ in
  (let! h := getStore in
   let! activeAnimation :=
     defined (atFoundIndex (fun a => String.eqb (aid a) activeAnimationId_) animations_) in
   let activeAnimationBlocks := blocks activeAnimation in
   let block := atFoundIndex (fun b => String.eqb (bid (deref h b)) blockId)
                             activeAnimationBlocks in
   let path1 := normalizePath path in
   let oppSource := oppositeOf source in
   let! block := defined block in
   let oppPath := getBlockPath (deref h block) oppSource in
   let! written := defined (reconcile path1 oppPath) in
   let! _ := setBlockPath block source (fst written) in
   let! _ := setBlockPath block oppSource (snd written) in
   ret (Changed {| layers := layers state;
                   timeline := timeline state;
                   topAnimations := Some animations_ |}))%eff.

(** ** Deletion helpers (reducer.ts, lines 553-662) *)

(** Modelled from the spec: [new Animation()] and [new VectorLayer()] of the
    absent model classes build an empty element with a generated id. *)
Definition newAnimation : Eff Animation :=
  (let! id := uniqueId in
   ret {| aid := id; duration := defaultDuration; blocks := [] |})%eff.

Definition newVectorLayer : Eff Layer :=
  (let! id := uniqueId in
   ret {| lid := id; isVectorLayer := true; animatableProperties := []; children := [] |})%eff.

Definition deleteSelectedAnimations (state : State) : Eff Outcome :=
  let timeline_ := timeline state in
  let selectedAnimationIds_ := selectedAnimationIds timeline_ in
  if negb (JSSet.nonEmpty selectedAnimationIds_) then ret Unchanged
  else
    let animations0 :=
      List.filter (fun animation => negb (JSSet.has selectedAnimationIds_ (aid animation)))
             (animations timeline_) in
    (let! animations1 :=
       match animations0 with
       | [] => let! a := newAnimation in ret [a]
       | _ => ret animations0
       end in
     let! activeAnimationId_ :=
       if JSSet.has selectedAnimationIds_ (activeAnimationId timeline_)
       then (let! first := defined (head animations1) in ret (aid first))
       else ret (activeAnimationId timeline_) in
     ret (Changed (withTimeline state
            {| animations := animations1;
               selectedAnimationIds := JSSet.empty;
               activeAnimationId := activeAnimationId_;
               selectedBlockIds := selectedBlockIds timeline_ |})))%eff.

Definition deleteSelectedBlocks (state : State) : Eff Outcome :=
  let timeline_ := timeline state in
  let selectedBlockIds_ := selectedBlockIds timeline_ in
  if negb (JSSet.nonEmpty selectedBlockIds_) then ret Unchanged
  else
    (let! h := getStore in
     let animations_ :=
       map (fun animation =>
              let existingBlocks := blocks animation in
              let newBlocks :=
                List.filter (fun b => negb (JSSet.has selectedBlockIds_ (bid (deref h b))))
                       existingBlocks in
              if Nat.eqb (length existingBlocks) (length newBlocks) then animation
              else withBlocks animation newBlocks)
           (animations timeline_) in
     ret (Changed (withTimeline state
            {| animations := animations_;
               selectedAnimationIds := selectedAnimationIds timeline_;
               activeAnimationId := activeAnimationId timeline_;
               selectedBlockIds := JSSet.empty |})))%eff.

(** [a.splice(i, 1)] where [i] came from [_.findIndex]: index [-1] counts
    from the end. *)
Definition spliceOut {A} (i : option nat) (l : list A) : list A :=
  match i with
  | Some i => take i l ++ drop (S i) l
  | None => removelast l
  end.

(** One turn of [selectedLayerIds.forEach] in [deleteSelectedLayers]. *)
Definition deleteLayerStep (acc : list Layer * JSSet.t * JSSet.t) (layerId_ : string)
    : list Layer * JSSet.t * JSSet.t :=
  let '(vectorLayers_, collapsedLayerIds_, hiddenLayerIds_) := acc in
  match findParentVectorLayer vectorLayers_ layerId_ with
  | Some parentVl =>
      let vlIndex := findIndex (fun vl => String.eqb (lid vl) (lid parentVl)) vectorLayers_ in
      let vectorLayers1 :=
        if String.eqb (lid parentVl) layerId_ then spliceOut vlIndex vectorLayers_
        else assignAt vlIndex (removeLayerFromTree parentVl layerId_) vectorLayers_ in
      (vectorLayers1, JSSet.delete layerId_ collapsedLayerIds_,
       JSSet.delete layerId_ hiddenLayerIds_)
  | None => acc
  end.

Definition deleteSelectedLayers (state : State) : Eff Outcome :=
  let layers_ := layers state in
  let selectedLayerIds_ := selectedLayerIds layers_ in
  if negb (JSSet.nonEmpty selectedLayerIds_) then ret Unchanged
  else
    let '(vectorLayers0, collapsedLayerIds0, hiddenLayerIds0) :=
      foldl deleteLayerStep
            (vectorLayers layers_, JSSet.copy (collapsedLayerIds layers_),
             JSSet.copy (hiddenLayerIds layers_))
            selectedLayerIds_ in
    let collapsedLayerIds1 :=
      if Nat.eqb (JSSet.size collapsedLayerIds0) (JSSet.size (collapsedLayerIds layers_))
      then collapsedLayerIds layers_ else collapsedLayerIds0 in
    let hiddenLayerIds1 :=
      if Nat.eqb (JSSet.size hiddenLayerIds0) (JSSet.size (hiddenLayerIds layers_))
      then hiddenLayerIds layers_ else hiddenLayerIds0 in
    (let! vectorLayers1 :=
       match vectorLayers0 with
       | [] => let! vl := newVectorLayer in ret [vl]
       | _ => ret vectorLayers0
       end in
     let! activeVectorLayerId_ :=
       match find (fun vl => String.eqb (lid vl) (activeVectorLayerId layers_)) vectorLayers1 with
       | None => let! first := defined (head vectorLayers1) in ret (lid first)
       | Some _ => ret (activeVectorLayerId layers_)
       end in
     ret (Changed (withLayers state
            {| vectorLayers := vectorLayers1;
               activeVectorLayerId := activeVectorLayerId_;
               selectedLayerIds := JSSet.empty;
               collapsedLayerIds := collapsedLayerIds1;
               hiddenLayerIds := hiddenLayerIds1 |})))%eff.

(** ** The reducer (reducer.ts, lines 99-454) *)

Inductive Action :=
| NewWorkspace
| AddAnimations (newAnimations : list Animation)
| SelectAnimation (animationId_ : string) (clearExisting : bool)
| ActivateAnimation (animationId_ : string)
| ReplaceAnimations (replacementAnimations : list Animation)
| AddBlock (layer : Layer) (propertyName_ : string) (fromValue_ toValue_ : Value)
| SelectBlock (blockId : string) (clearExisting : bool)
| ReplaceBlocks (blocks_ : list BlockRef)
| UpdatePathBlock (blockId : string) (source : CanvasType) (path : Path)
| AddLayers (addedLayers : list Layer)
| SelectLayer (layerId_ : string) (shouldToggle clearExisting : bool)
| ClearLayerSelections
| ToggleLayerExpansion (layerId_ : string) (recursive : bool)
| ToggleLayerVisibility (layerId_ : string)
| ReplaceLayer (layer : Layer)
| DeleteSelectedModels
| OtherAction.

Definition buildInitialState : Eff State :=
  (let! initialVectorLayer := newVectorLayer in
   let! initialAnimation := newAnimation in
   ret {| layers := {| vectorLayers := [initialVectorLayer];
                       activeVectorLayerId := lid initialVectorLayer;
                       selectedLayerIds := JSSet.empty;
                       collapsedLayerIds := JSSet.empty;
                       hiddenLayerIds := JSSet.empty |};
          timeline := {| animations := [initialAnimation];
                         selectedAnimationIds := JSSet.empty;
                         activeAnimationId := aid initialAnimation;
                         selectedBlockIds := JSSet.empty |};
          topAnimations := None |})%eff.

Definition blockKindFor (property : option PropertyKind) : BlockKind :=
  match property with
  | Some PathProperty => PathAnimationBlock
  | Some ColorProperty => ColorAnimationBlock
  | _ => NumberAnimationBlock
  end.

(** The [ADD_BLOCK] case. *)
Definition addBlock (state : State) (layer : Layer) (propertyName_ : string)
    (fromValue_ toValue_ : Value) : Eff Outcome :=
  let timeline_ := timeline state in
  let animation :=
    find (fun anim => String.eqb (aid anim) (activeAnimationId timeline_))
         (animations timeline_) in
  (let! h := getStore in
   let! animation := defined animation in
   match findGap h animation (lid layer) propertyName_ with
   | None => ret Unchanged
   | Some gap =>
       let '(startTime_, endTime_) := placeInGap gap in
       let property := propertyOf layer propertyName_ in
       let! newBlockId := uniqueId in
       let! newBlock_ :=
         newBlock {| bid := newBlockId;
                     bkind := blockKindFor property;
                     layerId := lid layer;
                     animationId := activeAnimationId timeline_;
                     propertyName := propertyName_;
                     startTime := startTime_;
                     endTime := endTime_;
                     fromValue := fromValue_;
                     toValue := toValue_ |} in
       let animations_ :=
         map (fun anim =>
                if negb (String.eqb (aid anim) (aid animation)) then anim
                else withBlocks anim (blocks anim ++ [newBlock_]))
             (animations timeline_) in
       let state1 := resultOf state (selectBlockId state newBlockId true) in
       ret (Changed (withTimeline state1 (withAnimations timeline_ animations_)))
   end)%eff.

(** [REPLACE_BLOCKS], lines 303-312: the replacement blocks grouped by the
    animation they name, keys in first-seen order. *)
Fixpoint addToBlockMap (key : string) (block : BlockRef)
    (blockMap : list (string * list BlockRef)) : list (string * list BlockRef) :=
  match blockMap with
  | [] => [(key, [block])]
  | (k, blockList) :: rest =>
      if String.eqb k key then (k, blockList ++ [block]) :: rest
      else (k, blockList) :: addToBlockMap key block rest
  end.

Definition buildBlockMap (h : Store) (blocks_ : list BlockRef) : list (string * list BlockRef) :=
  foldl (fun blockMap block => addToBlockMap (animationId (deref h block)) block blockMap)
        [] blocks_.

(** [REPLACE_BLOCKS], lines 317-324: one turn of [blockMap.forEach]. *)
Definition replaceBlocksStep (h : Store) (acc : option (list Animation))
    (entry : string * list BlockRef) : option (list Animation) :=
  let '(animId, replacementBlocks) := entry in
  animations_ ← acc;
  i ← findIndex (fun a => String.eqb (aid a) animId) animations_;
  animation ← animations_ !! i;
  let newBlocks :=
    foldl (fun newBlocks block =>
             assignAt (findIndex (fun b => String.eqb (bid (deref h b)) (bid (deref h block)))
                                 newBlocks)
                      block newBlocks)
          (blocks animation) replacementBlocks in
  Some (<[i := withBlocks animation newBlocks]> animations_).

(** [TOGGLE_LAYER_EXPANSION], lines 383-391: [_.forEach] stops at the first
    vector layer that holds the layer. *)
Fixpoint idsToToggle (vls : list Layer) (layerId_ : string) (layerIds : JSSet.t) : JSSet.t :=
  match vls with
  | [] => layerIds
  | vl :: rest =>
      match findLayerById vl layerId_ with
      | None => idsToToggle rest layerId_ layerIds
      | Some layer => foldl (fun acc id => JSSet.add id acc) layerIds (walkIds layer)
      end
  end.

Definition reducer (state : State) (action : Action) : Eff Outcome :=
  (match action with
   | NewWorkspace =>
       let! s := buildInitialState in ret (Changed s)
   | AddAnimations newAnimations =>
       match newAnimations with
       | [] => ret Unchanged
       | first :: _ =>
           let timeline_ := timeline state in
           let animations_ := animations timeline_ ++ newAnimations in
           let activeAnimationId_ :=
             if String.eqb (activeAnimationId timeline_) ""
             then aid first else activeAnimationId timeline_ in
           ret (Changed (withTimeline state
                  {| animations := animations_;
                     selectedAnimationIds := selectedAnimationIds timeline_;
                     activeAnimationId := activeAnimationId_;
                     selectedBlockIds := selectedBlockIds timeline_ |}))
       end
   | SelectAnimation animationId_ clearExisting =>
       ret (selectAnimationId state animationId_ clearExisting)
   | ActivateAnimation animationId_ =>
       let timeline_ := timeline state in
       if String.eqb animationId_ (activeAnimationId timeline_) then ret Unchanged
       else ret (Changed (withTimeline state (withActiveAnimationId timeline_ animationId_)))
   | ReplaceAnimations replacementAnimations =>
       match replacementAnimations with
       | [] => ret Unchanged
       | _ =>
           let timeline_ := timeline state in
           let animations_ :=
             map (fun animation =>
                    match find (fun r => String.eqb (aid r) (aid animation))
                               replacementAnimations with
                    | Some replacementAnimation => replacementAnimation
                    | None => animation
                    end)
                 (animations timeline_) in
           ret (Changed (withTimeline state (withAnimations timeline_ animations_)))
       end
   | AddBlock layer propertyName_ fromValue_ toValue_ =>
       addBlock state layer propertyName_ fromValue_ toValue_
   | SelectBlock blockId clearExisting =>
       ret (selectBlockId state blockId clearExisting)
   | ReplaceBlocks blocks_ =>
       match blocks_ with
       | [] => ret Unchanged
       | _ =>
           let! h := getStore in
           let blockMap := buildBlockMap h blocks_ in
           let timeline_ := timeline state in
           let! animations_ :=
             defined (foldl (replaceBlocksStep h) (Some (animations timeline_)) blockMap) in
           ret (Changed (withTimeline state (withAnimations timeline_ animations_)))
       end
   | UpdatePathBlock blockId source path =>
       updatePathAnimationBlock state blockId source path
   | AddLayers addedLayers =>
       match addedLayers with
       | [] => ret Unchanged
       | _ =>
           let addedVectorLayers := List.filter isVectorLayer addedLayers in
           let layers_ := layers state in
           let existingVectorLayers := vectorLayers layers_ ++ addedVectorLayers in
           let addedNonVectorLayers := List.filter (fun l => negb (isVectorLayer l)) addedLayers in
           let activeVectorLayerId_ := activeVectorLayerId layers_ in
           let activeVlIndex :=
             findIndex (fun vl => String.eqb (lid vl) activeVectorLayerId_)
                       existingVectorLayers in
           let! vl := defined (i ← activeVlIndex; existingVectorLayers !! i) in
           let vl' := {| lid := lid vl; isVectorLayer := isVectorLayer vl;
                         animatableProperties := animatableProperties vl;
                         children := children vl ++ addedNonVectorLayers |} in
           ret (Changed (withLayers state
                  (withVectorLayers layers_ (assignAt activeVlIndex vl' existingVectorLayers))))
       end
   | SelectLayer layerId_ shouldToggle clearExisting =>
       selectLayerId state layerId_ shouldToggle clearExisting
   | ClearLayerSelections =>
       ret (Changed (withLayers state (withSelectedLayerIds (layers state) JSSet.empty)))
   | ToggleLayerExpansion layerId_ recursive =>
       let layers_ := layers state in
       let layerIds :=
         if recursive then idsToToggle (vectorLayers layers_) layerId_ [layerId_]
         else [layerId_] in
       let collapsedLayerIds0 := JSSet.copy (collapsedLayerIds layers_) in
       let collapsedLayerIds1 :=
         if JSSet.has collapsedLayerIds0 layerId_
         then foldl (fun acc id => JSSet.delete id acc) collapsedLayerIds0 layerIds
         else foldl (fun acc id => JSSet.add id acc) collapsedLayerIds0 layerIds in
       ret (Changed (withLayers state (withCollapsedLayerIds layers_ collapsedLayerIds1)))
   | ToggleLayerVisibility layerId_ =>
       let layers_ := layers state in
       let hiddenLayerIds0 := JSSet.copy (hiddenLayerIds layers_) in
       let hiddenLayerIds1 :=
         if JSSet.has hiddenLayerIds0 layerId_ then JSSet.delete layerId_ hiddenLayerIds0
         else JSSet.add layerId_ hiddenLayerIds0 in
       ret (Changed (withLayers state (withHiddenLayerIds layers_ hiddenLayerIds1)))
   | ReplaceLayer replacementLayer =>
       let layers_ := layers state in
       let! replacementVl :=
         if isVectorLayer replacementLayer then ret replacementLayer
         else
           let! vl := defined (findParentVectorLayer (vectorLayers layers_)
                                                     (lid replacementLayer)) in
           ret (replaceLayerInTree vl replacementLayer) in
       let replacementId := lid replacementVl in
       let vectorLayers_ :=
         map (fun vl => if String.eqb (lid vl) replacementId then replacementVl else vl)
             (vectorLayers layers_) in
       ret (Changed (withLayers state (withVectorLayers layers_ vectorLayers_)))
   | DeleteSelectedModels =>
       let! o1 := deleteSelectedAnimations state in
       let state1 := resultOf state o1 in
       let! o2 := deleteSelectedBlocks state1 in
       let state2 := resultOf state1 o2 in
       let! o3 := deleteSelectedLayers state2 in
       ret (match o3, o2 with
            | Changed s', _ => Changed s'
            | Unchanged, Changed s' => Changed s'
            | Unchanged, Unchanged => o1
            end)
   | OtherAction => ret Unchanged
   end)%eff.

(** The state the caller holds after dispatching [action] on [state], with
    the store after the call; [None] when the reducer threw. *)
Definition reduce (h : Store) (state : State) (action : Action) : option State * Store :=
  match reducer state action h with
  | (Some o, h') => (Some (resultOf state o), h')
  | (None, h') => (None, h')
  end.

End WithCollaborators.

(** ** A concrete instance of the collaborators

    Used to run the reducer on concrete documents. *)

Definition effectiveChar (c : Command) : SvgChar :=
  match conversion c with Some k => k | None => svgChar c end.

Definition svgRank (k : SvgChar) : nat :=
  match k with SvgZ => 1 | SvgL => 2 | SvgQ => 3 | SvgC => 4 | SvgM => 0 | SvgA => 0 end.

Definition canConvertTo (c : Command) (target : SvgChar) : bool :=
  Nat.ltb 0 (svgRank (effectiveChar c)) && Nat.ltb (svgRank (effectiveChar c)) (svgRank target).

Definition convertTo (c : Command) (target : SvgChar) : Command :=
  {| svgChar := svgChar c; conversion := Some target; endPoint := endPoint c |}.

(** Modelled from the spec: command types are made compatible position by
    position, by promoting the command of the lesser type. *)
Fixpoint convertCommands (from to : list Command) : list Command * list Command :=
  match from, to with
  | f :: from', t :: to' =>
      let '(rf, rt) := convertCommands from' to' in
      if Nat.eqb (svgRank (effectiveChar f)) (svgRank (effectiveChar t)) then (f :: rf, t :: rt)
      else if canConvertTo f (effectiveChar t) then (convertTo f (effectiveChar t) :: rf, t :: rt)
      else if canConvertTo t (effectiveChar f) then (f :: rf, convertTo t (effectiveChar f) :: rt)
      else (f :: rf, t :: rt)
  | _, _ => (from, to)
  end.

Definition sampleAutoConvert (subIdx : nat) (from to : Path) : Path * Path :=
  match from !! subIdx, to !! subIdx with
  | Some sf, Some st =>
      let '(cf, ct) := convertCommands (getCommands sf) (getCommands st) in
      (<[subIdx := {| getCommands := cf; isCollapsing := isCollapsing sf |}]> from,
       <[subIdx := {| getCommands := ct; isCollapsing := isCollapsing st |}]> to)
  | _, _ => (from, to)
  end.

(** A stand-in for the pole of inaccessibility: the end point of the
    subpath's first command. *)
Definition samplePole (p : Path) (subIdx : nat) : Point :=
  match p !! subIdx with
  | Some sp => match getCommands sp with c :: _ => endPoint c | [] => (0, 0)%Z end
  | None => (0, 0)%Z
  end.

Definition sampleCollaborators : Collaborators :=
  {| getPoleOfInaccessibility := samplePole;
     autoConvert := sampleAutoConvert;
     defaultDuration := 300 |}.

(** ** Concrete documents *)

Definition emptyStore : Store := {| objects := []; idCounter := 0 |}.

Definition layerL : Layer :=
  {| lid := "L"; isVectorLayer := false;
     animatableProperties := [("P", PathProperty)]; children := [] |}.

Definition vectorLayerV : Layer :=
  {| lid := "V"; isVectorLayer := true; animatableProperties := []; children := [layerL] |}.

Definition stateOf (anims : list Animation) (active : string)
    (selAnims selBlocks selLayers : JSSet.t) : State :=
  {| layers := {| vectorLayers := [vectorLayerV]; activeVectorLayerId := "V";
                  selectedLayerIds := selLayers; collapsedLayerIds := [];
                  hiddenLayerIds := [] |};
     timeline := {| animations := anims; selectedAnimationIds := selAnims;
                    activeAnimationId := active; selectedBlockIds := selBlocks |};
     topAnimations := None |}.

(** ** What the properties are stated with *)

Definition b2n (b : bool) : nat := if b then 1 else 0.

(** How many of the three selection sets are non-empty. *)
Definition selectionCount (s : State) : nat :=
  b2n (JSSet.nonEmpty (selectedAnimationIds (timeline s)))
  + b2n (JSSet.nonEmpty (selectedBlockIds (timeline s)))
  + b2n (JSSet.nonEmpty (selectedLayerIds (layers s))).

Definition poolsNonEmpty (s : State) : Prop :=
  animations (timeline s) <> [] /\ vectorLayers (layers s) <> [].

(** The documents the system can be in: the initial one, and whatever a
    dispatch that returns makes of a reachable one.  Between dispatches the
    callers allocate the objects they put in actions, so each step starts
    from any store. *)
Inductive reachable {G : Collaborators} : State -> Prop :=
| reachable_initial (h h' : Store) (s : State) :
    buildInitialState h = (Some s, h') -> reachable s
| reachable_step (h h' : Store) (s s' : State) (a : Action) :
    reachable s -> reduce h s a = (Some s', h') -> reachable s'.

(** The blocks of a pair, in start order from [prevEnd] on, do not overlap
    one another and end by the animation's duration. *)
Fixpoint timelineOrdered (prevEnd : Z) (bs : list AnimationBlock) (animationDuration : Z) : bool :=
  match bs with
  | [] => (prevEnd <=? animationDuration)%Z
  | b :: rest => (prevEnd <=? startTime b)%Z && (startTime b <=? endTime b)%Z
                 && timelineOrdered (endTime b) rest animationDuration
  end.

(** Two blocks share a stretch of time. *)
Definition overlaps (a b : AnimationBlock) : bool :=
  (startTime a <? endTime b)%Z && (startTime b <? endTime a)%Z.

(** A whole number that stays exact under the sums and differences of the
    gap finder: of magnitude at most 2^53 - 100. *)
Definition safeTime (z : Z) : bool := (Z.abs z <=? 2 ^ 53 - 100)%Z.

(** Every duration of the document and every time of a block in the store
    is such a number. *)
Definition safeTimes (h : Store) (state : State) : bool :=
  forallb (fun a => safeTime (duration a)) (animations (timeline state))
  && forallb (fun b => safeTime (startTime b) && safeTime (endTime b)) (objects h).

(** The block that [ADD_BLOCK] allocates in store [h]. *)
Definition addedBlock (h h' : Store) : AnimationBlock := deref h' (length (objects h)).

Definition blockLP (id : string) (s e : Z) : AnimationBlock :=
  {| bid := id; bkind := PathAnimationBlock; layerId := "L"; animationId := "A";
     propertyName := "P"; startTime := s; endTime := e;
     fromValue := VUndefined; toValue := VUndefined |}.

(** The gap finder example: duration 1000, one block [100,300) for (L,P). *)
Definition gapStore : Store := {| objects := [blockLP "b0" 100 300]; idCounter := 10 |}.

Definition gapState : State :=
  stateOf [ {| aid := "A"; duration := 1000; blocks := [0] |} ] "A" [] [] [].

(** Two blocks of the pair (L,P) that overlap: [0,500) and [100,200). *)
Definition overlapStore : Store :=
  {| objects := [blockLP "b0" 0 500; blockLP "b1" 100 200]; idCounter := 10 |}.

Definition overlapState : State :=
  stateOf [ {| aid := "A"; duration := 1000; blocks := [0; 1] |} ] "A" [] [] [].

(** Times past 2^53: duration 2^61, one block [0,2^60) for (L,P). *)
Definition farStore : Store :=
  {| objects := [blockLP "b0" 0 (2 ^ 60)]; idCounter := 10 |}.

Definition farState : State :=
  stateOf [ {| aid := "A"; duration := 2 ^ 61; blocks := [0] |} ] "A" [] [] [].

(** A document with animation A selected, before a block is added. *)
Definition selectedAnimationState : State :=
  stateOf [ {| aid := "A"; duration := 1000; blocks := [0] |} ] "A" ["A"] [] [].

(** No subpath of the path is a collapsing one. *)
Definition noCollapsing (p : Path) : bool := forallb (fun sp => negb (isCollapsing sp)) p.

(** No command of the path carries a promotion. *)
Definition unconverted (p : Path) : bool := forallb (fun sp => negb (hasConversion sp)) p.

Definition unconvertedSubPath (sp : SubPath) : SubPath :=
  {| getCommands := map unconvertCommand (getCommands sp); isCollapsing := isCollapsing sp |}.

(** The synthetic subpath that pads the shorter path at index [i]: at the
    pole of subpath [i] of the longer path, with that subpath's command
    count. *)
Definition syntheticSubPath {G : Collaborators} (longer : Path) (i : nat) : SubPath :=
  {| getCommands :=
       collapsingCommands (getPoleOfInaccessibility longer i)
                          (match longer !! i with Some sp => numCommandsOf sp | None => 0 end);
     isCollapsing := true |}.

(** A path of one subpath whose second command carries a promotion, and an
    edited path of one subpath with one command more. *)
Definition plainCommand (k : SvgChar) (x y : Z) : Command :=
  {| svgChar := k; conversion := None; endPoint := (x, y) |}.

Definition promotedPath : Path :=
  [ {| getCommands := [ plainCommand SvgM 0 0;
                        {| svgChar := SvgL; conversion := Some SvgC; endPoint := (10, 0)%Z |};
                        plainCommand SvgL 10 10 ];
       isCollapsing := false |} ].

Definition editedPath : Path :=
  [ {| getCommands := [ plainCommand SvgM 0 0; plainCommand SvgL 5 0;
                        plainCommand SvgL 5 5; plainCommand SvgL 0 5 ];
       isCollapsing := false |} ].

Definition morphBlock : AnimationBlock :=
  {| bid := "b0"; bkind := PathAnimationBlock; layerId := "L"; animationId := "A";
     propertyName := "P"; startTime := 0; endTime := 100;
     fromValue := VPath editedPath; toValue := VPath promotedPath |}.

Definition morphStore : Store := {| objects := [morphBlock]; idCounter := 10 |}.

Definition morphState : State :=
  stateOf [ {| aid := "A"; duration := 1000; blocks := [0] |} ] "A" [] ["b0"] [].

(** The end endpoint of the compatibilizer example: two subpaths of four
    commands each. *)
Definition twoSquares : Path :=
  [ {| getCommands := [ plainCommand SvgM 0 0; plainCommand SvgL 5 0;
                        plainCommand SvgL 5 5; plainCommand SvgL 0 5 ];
       isCollapsing := false |};
    {| getCommands := [ plainCommand SvgM 20 20; plainCommand SvgL 25 20;
                        plainCommand SvgL 25 25; plainCommand SvgL 20 25 ];
       isCollapsing := false |} ].

(** The document [buildInitialState] makes in an empty store, and the
    documents a few dispatches lead to. *)
Definition initialDocument : State :=
  Eval vm_compute in
    match @buildInitialState sampleCollaborators emptyStore with
    | (Some s, _) => s
    | (None, _) => stateOf [] "" [] [] []
    end.

Definition initialStore : Store :=
  Eval vm_compute in snd (@buildInitialState sampleCollaborators emptyStore).

Definition animationB : Animation := {| aid := "B"; duration := 500; blocks := [] |}.

Definition dispatch (s : State) (a : Action) : State :=
  match @reduce sampleCollaborators initialStore s a with
  | (Some s', _) => s'
  | (None, _) => s
  end.

Definition twoAnimations : State :=
  Eval vm_compute in dispatch initialDocument (AddAnimations [animationB]).

(** Animations ["2", "B"], "2" active and selected. *)
Definition firstAnimationSelected : State :=
  Eval vm_compute in dispatch twoAnimations (SelectAnimation "2" true).

(** What [ADD_BLOCK] returns in the gap finder example. *)
Definition gapStateAfter : State :=
  Eval vm_compute in
    match addBlock gapState layerL "P" VUndefined VUndefined gapStore with
    | (Some o, _) => resultOf gapState o
    | (None, _) => gapState
    end.

Definition gapStoreAfter : Store :=
  Eval vm_compute in snd (addBlock gapState layerL "P" VUndefined VUndefined gapStore).

(** The state the caller holds after dispatching on [s] in store [h]. *)
Definition dispatchIn (h : Store) (s : State) (a : Action) : State :=
  match @reduce sampleCollaborators h s a with
  | (Some s', _) => s'
  | (None, _) => s
  end.

(** A document with layer L selected and hidden, and both layers of the
    tree collapsed. *)
Definition layersDocument : State :=
  {| layers := {| vectorLayers := [vectorLayerV]; activeVectorLayerId := "V";
                  selectedLayerIds := ["L"]; collapsedLayerIds := ["L"; "V"];
                  hiddenLayerIds := ["L"] |};
     timeline := {| animations := [ {| aid := "A"; duration := 1000; blocks := [] |} ];
                    selectedAnimationIds := []; activeAnimationId := "A";
                    selectedBlockIds := [] |};
     topAnimations := None |}.


(** A layer to add under the active vector layer. *)
Definition layerM : Layer :=
  {| lid := "M"; isVectorLayer := false;
     animatableProperties := [("P", PathProperty)]; children := [] |}.

(** ** Action-mode selections (reducer.ts, lines 34-79 and 664-690;
    actionmode.service.ts)

    The service reads the action mode and the selections from the store and
    dispatches an action; each of its methods is the function from what it
    reads to what it dispatches. *)

(** lodash [_.isEqual] on plain records: structural equality. *)
Definition isEqual {A} `{EqDecision A} (a b : A) : bool := bool_decide (a = b).

(** [toggleShapeShifterSelections] of reducer.ts and [toggleSelections] of
    the service, the same code: [_.remove] takes out of the array the
    elements its predicate holds of and returns them; the array, changed in
    place, is what the function returns. *)
Definition toggleSelections {A} `{EqDecision A} (currentSelections newSelections : list A)
    (appendToList : bool) : list A :=
  let isNew := fun currSel => existsb (fun newSel => isEqual newSel currSel) newSelections in
  let matchingSelections := List.filter isNew currentSelections in
  let current1 := List.filter (fun currSel => negb (isNew currSel)) currentSelections in
  let current2 :=
    if Nat.eqb (length matchingSelections) 0 then current1 ++ newSelections else current1 in
  if negb appendToList then
    List.filter (fun currSel =>
                   negb (forallb (fun newSel => negb (isEqual currSel newSel)) newSelections))
                current2
  else current2.

Module SelectionType.
Inductive t := SubPath | Segment | Point.
End SelectionType.

Module ActionSource.
Inductive t := From | To.
End ActionSource.

Module ActionMode.
Inductive t := None | Selection | SplitCommands | SplitSubPaths | PairSubPaths.
End ActionMode.

#[global] Instance SelectionType_eq_dec : EqDecision SelectionType.t.
Proof. solve_decision. Defined.

#[global] Instance ActionSource_eq_dec : EqDecision ActionSource.t.
Proof. solve_decision. Defined.

#[global] Instance ActionMode_eq_dec : EqDecision ActionMode.t.
Proof. solve_decision. Defined.

(** An optional property of an object ([cmdIdx?: number]): the key is
    missing, or it is there with the value [undefined], or it is there
    with a value.  [_.isEqual] tells the three apart: an object with the
    key set to [undefined] has one key more than the object without it. *)
Inductive OptionalKey (A : Type) :=
| KeyMissing
| KeyUndefined
| KeyValue (a : A).

Arguments KeyMissing {A}.
Arguments KeyUndefined {A}.
Arguments KeyValue {A} a.

#[global] Instance OptionalKey_eq_dec {A} `{EqDecision A} : EqDecision (OptionalKey A).
Proof. solve_decision. Defined.

(** The [Selection] interface; [cmdIdx] is optional. *)
Module Selection.
Record t := mk {
  type : SelectionType.t;
  source : ActionSource.t;
  subIdx : nat;
  cmdIdx : OptionalKey nat
}.
End Selection.

#[global] Instance Selection_eq_dec : EqDecision Selection.t.
Proof. solve_decision. Defined.

(** [_.remove(selections, s => s.type !== type || s.source !== source)]:
    what stays. *)
Definition keepTypeAndSource (type_ : SelectionType.t) (source_ : ActionSource.t)
    (selections : list Selection.t) : list Selection.t :=
  List.filter (fun s => negb (negb (isEqual (Selection.type s) type_)
                              || negb (isEqual (Selection.source s) source_)))
              selections.

(** The three methods below return the payload of the
    [SetActionModeSelections] they dispatch.  [{ type, source, subIdx }]
    has no [cmdIdx] key; [{ type, source, subIdx, cmdIdx }] has one, set
    to the number passed in. *)
Definition toggleSubPathSelection (selections : list Selection.t)
    (source_ : ActionSource.t) (subIdx_ : nat) : list Selection.t :=
  let selections1 := keepTypeAndSource SelectionType.SubPath source_ selections in
  toggleSelections selections1
    [ {| Selection.type := SelectionType.SubPath; Selection.source := source_;
         Selection.subIdx := subIdx_; Selection.cmdIdx := KeyMissing |} ]
    false.

Definition toggleSegmentSelections (selections : list Selection.t)
    (source_ : ActionSource.t) (segments : list (nat * nat)) : list Selection.t :=
  let selections1 := keepTypeAndSource SelectionType.Segment source_ selections in
  toggleSelections selections1
    (map (fun seg => {| Selection.type := SelectionType.Segment; Selection.source := source_;
                        Selection.subIdx := fst seg; Selection.cmdIdx := KeyValue (snd seg) |})
         segments)
    false.

Definition togglePointSelection (selections : list Selection.t)
    (source_ : ActionSource.t) (subIdx_ cmdIdx_ : nat) (isShiftOrMetaPressed : bool)
    : list Selection.t :=
  let selections1 := keepTypeAndSource SelectionType.Point source_ selections in
  toggleSelections selections1
    [ {| Selection.type := SelectionType.Point; Selection.source := source_;
         Selection.subIdx := subIdx_; Selection.cmdIdx := KeyValue cmdIdx_ |} ]
    isShiftOrMetaPressed.

(** [toggleActionMode]: the mode of the [SetActionMode] it dispatches, if
    it dispatches one. *)
Definition toggleActionMode (currentMode modeToToggle : ActionMode.t) : option ActionMode.t :=
  if isEqual currentMode ActionMode.None then None
  else Some (if isEqual currentMode modeToToggle then ActionMode.Selection else modeToToggle).

(** ** What the further properties are stated with *)

(** The layer an id names in the first tree that holds it, as
    [TOGGLE_LAYER_EXPANSION] looks it up. *)
Fixpoint findInTrees (vls : list Layer) (id : string) : option Layer :=
  match vls with
  | [] => None
  | vl :: rest => match findLayerById vl id with
                  | Some layer => Some layer
                  | None => findInTrees rest id
                  end
  end.

(** A block without its two endpoint values: the fields the reducer never
    writes. *)
Definition blockIdentity (b : AnimationBlock) : AnimationBlock :=
  withFromValue (withToValue b VUndefined) VUndefined.

(** Store [h'] holds every block of [h], none of them changed but in its
    endpoint values, and its id counter has not gone back. *)
Definition storeKept (h h' : Store) : Prop :=
  length (objects h) <= length (objects h') /\
  idCounter h <= idCounter h' /\
  forall r, r < length (objects h) -> blockIdentity (deref h' r) = blockIdentity (deref h r).

(** The two active ids name an element of their pool. *)
Definition activeIdsValid (s : State) : Prop :=
  In (activeAnimationId (timeline s)) (map aid (animations (timeline s))) /\
  In (activeVectorLayerId (layers s)) (map lid (vectorLayers (layers s))).

(** * Properties *)

(** ** The effect monad *)

Lemma bind_Some {A B} (m : Eff A) (k : A -> Eff B) h b h' :
  bind m k h = (Some b, h') ->
  exists a h1, m h = (Some a, h1) /\ k a h1 = (Some b, h').
Proof.
  unfold bind. destruct (m h) as [[a|] h1]; intros E; [eauto | discriminate].
Qed.

Lemma ret_Some {A} (a b : A) h h' : ret a h = (Some b, h') -> b = a /\ h' = h.
Proof. unfold ret. intros E. inversion E. auto. Qed.

Lemma defined_Some {A} (o : option A) a h h' :
  defined o h = (Some a, h') -> o = Some a /\ h' = h.
Proof. destruct o; cbn; intros E; inversion E; auto. Qed.

Lemma getStore_Some h0 h h' : getStore h = (Some h0, h') -> h0 = h /\ h' = h.
Proof. unfold getStore. intros E. inversion E. auto. Qed.

(** Taking a successful run apart, one call at a time. *)
Ltac eff_inv :=
  repeat match goal with
  | H : bind _ _ _ = (Some _, _) |- _ =>
      let a := fresh "a" in let h1 := fresh "h" in
      let E1 := fresh "E" in let E2 := fresh "E" in
      apply bind_Some in H; destruct H as (a & h1 & E1 & E2)
  | H : ret _ _ = (Some _, _) |- _ =>
      apply ret_Some in H; destruct H; subst
  | H : defined _ _ = (Some _, _) |- _ =>
      apply defined_Some in H; destruct H; subst
  | H : getStore _ = (Some _, _) |- _ =>
      apply getStore_Some in H; destruct H; subst
  end.

(** ** Selection sets *)

Lemma nonEmpty_empty : JSSet.nonEmpty JSSet.empty = false.
Proof. reflexivity. Qed.

Lemma clearIfNonEmpty_nonEmpty s : JSSet.nonEmpty (clearIfNonEmpty s) = false.
Proof. unfold clearIfNonEmpty. destruct (JSSet.nonEmpty s) eqn:E; [reflexivity | exact E]. Qed.

Lemma selectAnimationId_count state id clearExisting :
  selectionCount state <= 1 ->
  selectionCount (resultOf state (selectAnimationId state id clearExisting)) <= 1.
Proof.
  intros Hs. unfold selectAnimationId.
  destruct (JSSet.isEqual _ _); [exact Hs |].
  unfold selectionCount; cbn. rewrite !clearIfNonEmpty_nonEmpty.
  destruct (JSSet.nonEmpty _); cbn; lia.
Qed.

Lemma selectBlockId_count state id clearExisting :
  selectionCount state <= 1 ->
  selectionCount (resultOf state (selectBlockId state id clearExisting)) <= 1.
Proof.
  intros Hs. unfold selectBlockId.
  destruct (JSSet.isEqual _ _); [exact Hs |].
  unfold selectionCount; cbn. rewrite !clearIfNonEmpty_nonEmpty.
  destruct (JSSet.nonEmpty _); cbn; lia.
Qed.

(** What [selectBlockId] leaves of the layer selection: it is kept, or
    emptied. *)
Lemma selectBlockId_layers state id clearExisting :
  let s' := resultOf state (selectBlockId state id clearExisting) in
  JSSet.nonEmpty (selectedLayerIds (layers s')) = false \/
  selectedLayerIds (layers s') = selectedLayerIds (layers state).
Proof.
  unfold selectBlockId. destruct (JSSet.isEqual _ _); cbn; [right; reflexivity |].
  left. apply clearIfNonEmpty_nonEmpty.
Qed.

Section Invariants.

Context {G : Collaborators}.

Lemma selectLayerId_count state id toggle clearExisting h o h' :
  selectLayerId state id toggle clearExisting h = (Some o, h') ->
  selectionCount (resultOf state o) <= 1.
Proof.
  unfold selectLayerId. intros E. eff_inv.
  destruct (clearExisting || _); eff_inv;
    unfold selectionCount; cbn; rewrite !clearIfNonEmpty_nonEmpty;
    destruct (JSSet.nonEmpty _); cbn; lia.
Qed.

Lemma addBlock_count state layer prop fromV toV h o h' :
  selectionCount state <= 1 ->
  addBlock state layer prop fromV toV h = (Some o, h') ->
  selectionCount (resultOf state o) <= 1.
Proof.
  intros Hs E. unfold addBlock in E. eff_inv.
  destruct (findGap _ _ _ _); eff_inv; [| exact Hs].
  destruct (placeInGap _) as [st en]. eff_inv.
  match goal with |- context [selectBlockId ?s ?i ?c] =>
    pose proof (selectBlockId_layers s i c) as Hl end.
  cbn in Hl. unfold selectionCount in *. cbn.
  destruct Hl as [Hl | Hl]; rewrite Hl.
  - destruct (JSSet.nonEmpty (selectedAnimationIds _)),
             (JSSet.nonEmpty (selectedBlockIds _)),
             (JSSet.nonEmpty (selectedLayerIds _)); cbn in *; lia.
  - exact Hs.
Qed.

Lemma deleteSelectedAnimations_count state h o h' :
  selectionCount state <= 1 ->
  deleteSelectedAnimations state h = (Some o, h') ->
  selectionCount (resultOf state o) <= 1.
Proof.
  intros Hs E. unfold deleteSelectedAnimations in E.
  destruct (negb _); eff_inv; [exact Hs |].
  unfold selectionCount in *; cbn.
  destruct (JSSet.nonEmpty (selectedAnimationIds _)); cbn in *; lia.
Qed.

Lemma deleteSelectedBlocks_count state h o h' :
  selectionCount state <= 1 ->
  deleteSelectedBlocks state h = (Some o, h') ->
  selectionCount (resultOf state o) <= 1.
Proof.
  intros Hs E. unfold deleteSelectedBlocks in E.
  destruct (negb _); eff_inv; [exact Hs |].
  unfold selectionCount in *; cbn.
  destruct (JSSet.nonEmpty (selectedBlockIds _)); cbn in *; lia.
Qed.

Lemma deleteSelectedLayers_count state h o h' :
  selectionCount state <= 1 ->
  deleteSelectedLayers state h = (Some o, h') ->
  selectionCount (resultOf state o) <= 1.
Proof.
  intros Hs E. unfold deleteSelectedLayers in E.
  destruct (negb _); eff_inv; [exact Hs |].
  destruct (foldl _ _ _) as [[vls col] hid]. eff_inv.
  unfold selectionCount in *; cbn.
  destruct (JSSet.nonEmpty (selectedLayerIds _)); cbn in *; lia.
Qed.

Lemma updatePathAnimationBlock_selections state blockId source path h o h' :
  updatePathAnimationBlock state blockId source path h = (Some o, h') ->
  layers (resultOf state o) = layers state /\ timeline (resultOf state o) = timeline state.
Proof.
  unfold updatePathAnimationBlock. intros E. eff_inv. cbn. auto.
Qed.

(** The result of the three deletions in a row. *)
Lemma deleteChain_result state o1 o2 o3 :
  resultOf state
    (match o3, o2 with
     | Changed s', _ => Changed s'
     | Unchanged, Changed s' => Changed s'
     | Unchanged, Unchanged => o1
     end)
  = resultOf (resultOf (resultOf state o1) o2) o3.
Proof. destruct o3, o2; reflexivity. Qed.

Lemma reducer_count state action h o h' :
  selectionCount state <= 1 ->
  reducer state action h = (Some o, h') ->
  selectionCount (resultOf state o) <= 1.
Proof.
  intros Hs E. destruct action; cbn [reducer] in E.
  - (* NewWorkspace *)
    unfold buildInitialState in E. eff_inv. cbn. lia.
  - destruct newAnimations; eff_inv; [exact Hs | exact Hs].
  - eff_inv. apply selectAnimationId_count, Hs.
  - destruct (String.eqb _ _); eff_inv; exact Hs.
  - destruct replacementAnimations; eff_inv; exact Hs.
  - eapply addBlock_count; eauto.
  - eff_inv. apply selectBlockId_count, Hs.
  - destruct blocks_; eff_inv; exact Hs.
  - apply updatePathAnimationBlock_selections in E. destruct E as [El Et].
    unfold selectionCount in *. rewrite El, Et. exact Hs.
  - destruct addedLayers; eff_inv; exact Hs.
  - eapply selectLayerId_count; eauto.
  - eff_inv. unfold selectionCount in *; cbn.
    destruct (JSSet.nonEmpty (selectedLayerIds _)); cbn in *; lia.
  - eff_inv. exact Hs.
  - eff_inv. exact Hs.
  - destruct (isVectorLayer layer); eff_inv; exact Hs.
  - eff_inv. rewrite deleteChain_result.
    eapply deleteSelectedLayers_count; [| eassumption].
    eapply deleteSelectedBlocks_count; [| eassumption].
    eapply deleteSelectedAnimations_count; eassumption.
  - eff_inv. exact Hs.
Qed.

(** ** The pools are never empty *)

Lemma map_nonempty {A B} (f : A -> B) (l : list A) : l <> [] -> map f l <> [].
Proof. destruct l; cbn; congruence. Qed.

Lemma app_nonempty {A} (l k : list A) : l <> [] -> l ++ k <> [].
Proof. destruct l; cbn; congruence. Qed.

Lemma insert_nonempty {A} (i : nat) (x : A) (l : list A) : l <> [] -> <[i := x]> l <> [].
Proof.
  intros Hl E. apply (f_equal length) in E. rewrite length_insert in E.
  destruct l; [congruence | discriminate].
Qed.

Lemma assignAt_nonempty {A} i (x : A) (l : list A) : l <> [] -> assignAt i x l <> [].
Proof. destruct i; cbn; [apply insert_nonempty | auto]. Qed.

Lemma replaceBlocksStep_nonempty h acc entry l' :
  (forall l, acc = Some l -> l <> []) ->
  replaceBlocksStep h acc entry = Some l' -> l' <> [].
Proof.
  intros Hacc. unfold replaceBlocksStep. destruct entry as [animId bs].
  destruct acc as [l|]; cbn; [| discriminate].
  destruct (findIndex _ l) as [i|]; cbn; [| discriminate].
  destruct (l !! i); cbn; [| discriminate].
  intros E. inversion E. apply insert_nonempty, Hacc. reflexivity.
Qed.

Lemma replaceBlocks_nonempty h blockMap acc l' :
  (forall l, acc = Some l -> l <> []) ->
  foldl (replaceBlocksStep h) acc blockMap = Some l' -> l' <> [].
Proof.
  revert acc. induction blockMap as [| e m IH]; cbn; intros acc Hacc E.
  - apply Hacc, E.
  - eapply IH; [| exact E]. intros l El. eapply replaceBlocksStep_nonempty; eauto.
Qed.

Lemma deleteSelectedAnimations_pools state h o h' :
  poolsNonEmpty state ->
  deleteSelectedAnimations state h = (Some o, h') ->
  poolsNonEmpty (resultOf state o).
Proof.
  intros [Ha Hv] E. unfold deleteSelectedAnimations in E.
  destruct (negb _); eff_inv; [split; assumption |].
  split; [| exact Hv]. cbn.
  destruct (List.filter _ _) eqn:F; eff_inv; [| congruence].
  unfold newAnimation in E. eff_inv. congruence.
Qed.

Lemma deleteSelectedBlocks_pools state h o h' :
  poolsNonEmpty state ->
  deleteSelectedBlocks state h = (Some o, h') ->
  poolsNonEmpty (resultOf state o).
Proof.
  intros [Ha Hv] E. unfold deleteSelectedBlocks in E.
  destruct (negb _); eff_inv; [split; assumption |].
  split; [| exact Hv]. cbn. apply map_nonempty, Ha.
Qed.

Lemma deleteSelectedLayers_pools state h o h' :
  poolsNonEmpty state ->
  deleteSelectedLayers state h = (Some o, h') ->
  poolsNonEmpty (resultOf state o).
Proof.
  intros [Ha Hv] E. unfold deleteSelectedLayers in E.
  destruct (negb _); eff_inv; [split; assumption |].
  destruct (foldl _ _ _) as [[vls col] hid]. eff_inv.
  split; [exact Ha |]. cbn.
  destruct vls; eff_inv; [| congruence].
  unfold newVectorLayer in E. eff_inv. congruence.
Qed.

Lemma reducer_pools state action h o h' :
  poolsNonEmpty state ->
  reducer state action h = (Some o, h') ->
  poolsNonEmpty (resultOf state o).
Proof.
  intros Hs E. pose proof Hs as [Ha Hv].
  destruct action; cbn [reducer] in E.
  - unfold buildInitialState in E. eff_inv. split; cbn; congruence.
  - destruct newAnimations; eff_inv; [exact Hs |].
    split; [cbn; apply app_nonempty, Ha | exact Hv].
  - eff_inv. unfold selectAnimationId. destruct (JSSet.isEqual _ _); [exact Hs |].
    split; assumption.
  - destruct (String.eqb _ _); eff_inv; [exact Hs | split; assumption].
  - destruct replacementAnimations; eff_inv; [exact Hs |].
    split; [cbn; apply map_nonempty, Ha | exact Hv].
  - unfold addBlock in E. eff_inv.
    destruct (findGap _ _ _ _); eff_inv; [| exact Hs].
    destruct (placeInGap _) as [st en]. eff_inv.
    split; [cbn; apply map_nonempty, Ha |].
    cbn. unfold selectBlockId. destruct (JSSet.isEqual _ _); exact Hv.
  - eff_inv. unfold selectBlockId. destruct (JSSet.isEqual _ _); [exact Hs |].
    split; assumption.
  - destruct blocks_; eff_inv; [exact Hs |].
    split; [cbn | exact Hv].
    eapply replaceBlocks_nonempty; [| eassumption].
    intros l El. inversion El. subst. exact Ha.
  - apply updatePathAnimationBlock_selections in E. destruct E as [El Et].
    unfold poolsNonEmpty. rewrite El, Et. exact Hs.
  - destruct addedLayers; eff_inv; [exact Hs |].
    split; [exact Ha | cbn]. apply assignAt_nonempty, app_nonempty, Hv.
  - unfold selectLayerId in E. eff_inv.
    destruct (clearExisting || _); eff_inv; split; assumption.
  - eff_inv. split; assumption.
  - eff_inv. split; assumption.
  - eff_inv. split; assumption.
  - destruct (isVectorLayer layer); eff_inv;
      (split; [exact Ha | cbn; apply map_nonempty, Hv]).
  - eff_inv. rewrite deleteChain_result.
    eapply deleteSelectedLayers_pools; [| eassumption].
    eapply deleteSelectedBlocks_pools; [| eassumption].
    eapply deleteSelectedAnimations_pools; eassumption.
  - eff_inv. exact Hs.
Qed.

Lemma reduce_Some h state action s' h' :
  reduce h state action = (Some s', h') ->
  exists o, reducer state action h = (Some o, h') /\ s' = resultOf state o.
Proof.
  unfold reduce. destruct (reducer state action h) as [[o|] h1]; intros E;
    inversion E; eauto.
Qed.

(** Both invariants hold of every reachable document. *)
Lemma reachable_invariants s :
  reachable s -> selectionCount s <= 1 /\ poolsNonEmpty s.
Proof.
  induction 1 as [h h' s E | h h' s s' a Hr [IHc IHp] E].
  - unfold buildInitialState in E. eff_inv. split; [cbn; lia |].
    split; cbn; congruence.
  - apply reduce_Some in E. destruct E as (o & E & ->).
    split; [eapply reducer_count | eapply reducer_pools]; eauto.
Qed.

(** ** Deleting the selected models *)





(** The three deletions, taken apart. *)
Lemma deleteSelectedModels_steps state h o h' :
  reducer state DeleteSelectedModels h = (Some o, h') ->
  exists o1 o2 o3 h1 h2,
    deleteSelectedAnimations state h = (Some o1, h1) /\
    deleteSelectedBlocks (resultOf state o1) h1 = (Some o2, h2) /\
    deleteSelectedLayers (resultOf (resultOf state o1) o2) h2 = (Some o3, h') /\
    resultOf state o = resultOf (resultOf (resultOf state o1) o2) o3.
Proof.
  cbn [reducer]. intros E. eff_inv. rewrite deleteChain_result.
  do 5 eexists. eauto.
Qed.

Lemma deleteSelectedBlocks_ids state h o h' :
  deleteSelectedBlocks state h = (Some o, h') ->
  map aid (animations (timeline (resultOf state o))) = map aid (animations (timeline state)) /\
  activeAnimationId (timeline (resultOf state o)) = activeAnimationId (timeline state) /\
  selectedAnimationIds (timeline (resultOf state o)) = selectedAnimationIds (timeline state) /\
  layers (resultOf state o) = layers state.
Proof.
  unfold deleteSelectedBlocks. destruct (negb _); intros E; eff_inv; [auto |].
  cbn. split; [| auto]. rewrite map_map. apply map_ext. intros a.
  destruct (Nat.eqb _ _); reflexivity.
Qed.

Lemma deleteSelectedLayers_timeline state h o h' :
  deleteSelectedLayers state h = (Some o, h') ->
  timeline (resultOf state o) = timeline state.
Proof.
  unfold deleteSelectedLayers. destruct (negb _); intros E; eff_inv; [auto |].
  destruct (foldl _ _ _) as [[vls col] hid]. eff_inv. reflexivity.
Qed.

Lemma deleteSelectedAnimations_layers state h o h' :
  deleteSelectedAnimations state h = (Some o, h') ->
  layers (resultOf state o) = layers state /\
  selectedBlockIds (timeline (resultOf state o)) = selectedBlockIds (timeline state).
Proof.
  unfold deleteSelectedAnimations. destruct (negb _); intros E; eff_inv; auto.
Qed.

Lemma has_In s x : JSSet.has s x = true <-> In x s.
Proof.
  unfold JSSet.has. rewrite existsb_exists. split.
  - intros (y & Hy & E). apply String.eqb_eq in E. subst. exact Hy.
  - intros Hx. exists x. split; [exact Hx | apply String.eqb_refl].
Qed.



Lemma nonEmpty_false s : JSSet.nonEmpty s = false -> s = [].
Proof. destruct s; [reflexivity | discriminate]. Qed.


(** C1: in every document reachable from the initial state by a sequence
    of actions through the reducer, at most one of the three selection
    sets ([selectedAnimationIds], [selectedBlockIds], [selectedLayerIds])
    is non-empty. *)
Theorem selection_exclusivity (s : State) :
  reachable s -> selectionCount s <= 1.
Proof. intros Hr. apply reachable_invariants, Hr. Qed.


End Invariants.

(** ** Gap finder *)

Lemma insertBy_In {A} (key : A -> Z) (x y : A) (l : list A) :
  In y (insertBy key x l) <-> y = x \/ In y l.
Proof.
  induction l as [| z l IH]; cbn; [intuition |].
  destruct (key x <=? key z)%Z; cbn; [intuition |].
  rewrite IH. intuition.
Qed.

Lemma sortBy_In {A} (key : A -> Z) (y : A) (l : list A) :
  In y (sortBy key l) <-> In y l.
Proof.
  induction l as [| x l IH]; cbn; [reflexivity |].
  rewrite insertBy_In, IH. intuition.
Qed.

Lemma head_In {A} (l : list A) (x : A) : head l = Some x -> In x l.
Proof. destruct l; cbn; [discriminate |]. intros E; inversion E; auto. Qed.

Lemma sortBy_nil {A} (key : A -> Z) (l : list A) : sortBy key l = [] -> l = [].
Proof.
  destruct l as [| x l]; [reflexivity |]. intros E.
  assert (Hx : In x (sortBy key (x :: l))) by (apply sortBy_In; left; reflexivity).
  rewrite E in Hx. destruct Hx.
Qed.

(** The head of the sorted list is the first element of least key. *)
Lemma sortBy_head {A} (key : A -> Z) (l : list A) (g : A) :
  head (sortBy key l) = Some g ->
  exists pre post,
    l = pre ++ g :: post /\
    (forall p, In p pre -> (key g < key p)%Z) /\
    (forall q, In q post -> (key g <= key q)%Z).
Proof.
  revert g. induction l as [| x l IH]; intros g; [discriminate |].
  cbn [sortBy fold_right]. fold (sortBy key l).
  destruct (sortBy key l) as [| y s] eqn:Es.
  - apply sortBy_nil in Es. subst. cbn. intros E. inversion E; subst.
    exists [], []. split; [reflexivity |]. split; intros ? [].
  - destruct (IH y eq_refl) as (pre & post & El & Hpre & Hpost).
    cbn [insertBy]. destruct (Z.leb_spec (key x) (key y)) as [Hle | Hgt]; cbn; intros E;
      inversion E; subst g.
    + exists [], l. split; [reflexivity |]. split; [intros ? [] |].
      intros q Hq. rewrite El in Hq. apply in_app_or in Hq.
      destruct Hq as [Hq | [<- | Hq]]; [specialize (Hpre q Hq); lia | exact Hle |].
      specialize (Hpost q Hq). lia.
    + exists (x :: pre), post. split; [rewrite El; reflexivity |].
      split; [| exact Hpost]. intros p [<- | Hp]; [exact Hgt | auto].
Qed.

(** A chosen gap is one of the candidate gaps, and wider than a block. *)
Lemma findGap_candidate h animation layerId_ propertyName_ gap :
  findGap h animation layerId_ propertyName_ = Some gap ->
  In gap (buildGaps 0 (blockNeighborsOf h animation layerId_ propertyName_)
                    (duration animation)) /\
  (gapEnd gap - gapStart gap > newBlockDuration)%Z.
Proof.
  unfold findGap, eligibleGaps. intros E. apply head_In in E.
  apply sortBy_In in E. apply filter_In in E. destruct E as [Hin Hw].
  split; [exact Hin | lia].
Qed.

(** ** Doubles *)

(** A whole number of magnitude at most 2^53 is a double. *)
Lemma roundToDouble_exact z : (Z.abs z <= 2 ^ 53)%Z -> roundToDouble z = z.
Proof.
  intros Hz. unfold roundToDouble.
  destruct (Z.leb_spec (Z.abs z) (2 ^ 53)); [reflexivity | lia].
Qed.

Lemma roundToDouble_opp z : roundToDouble (- z) = (- roundToDouble z)%Z.
Proof.
  unfold roundToDouble. rewrite Z.abs_opp, Z.sgn_opp.
  destruct (Z.abs z <=? 2 ^ 53)%Z; [reflexivity | ring].
Qed.

(** Rounding a whole number beyond 2^53 does not bring it below 2^53. *)
Lemma roundToDouble_large z : (2 ^ 53 < z)%Z -> (2 ^ 53 <= roundToDouble z)%Z.
Proof.
  intros Hz. unfold roundToDouble.
  assert (Hpos : (0 < z)%Z) by (pose proof (Z.pow_pos_nonneg 2 53); lia).
  rewrite (Z.abs_eq z) by lia. rewrite (Z.sgn_pos z) by lia.
  destruct (Z.leb_spec z (2 ^ 53)); [lia |].
  pose proof (Z.log2_spec z Hpos) as [Hlo Hhi].
  assert (Hk : (53 <= Z.log2 z)%Z).
  { rewrite <- (Z.log2_pow2 53) by lia. apply Z.log2_le_mono. lia. }
  set (k := Z.log2 z) in *.
  assert (Hu : (2 ^ 1 <= 2 ^ (k - 52))%Z) by (apply Z.pow_le_mono_r; lia).
  assert (Hsplit : (2 ^ k = 2 ^ 52 * 2 ^ (k - 52))%Z).
  { rewrite <- Z.pow_add_r by lia. f_equal. lia. }
  set (u := (2 ^ (k - 52))%Z) in *.
  assert (Hq : (2 ^ 52 <= z / u)%Z) by (apply Z.div_le_lower_bound; lia).
  assert (H53 : (2 ^ 53 = 2 ^ 52 * 2 ^ 1)%Z) by reflexivity.
  set (q := (z / u)%Z) in *.
  assert (Hp : (0 < 2 ^ 52)%Z) by reflexivity.
  destruct (2 * (z mod u) <? u)%Z; [nia |].
  destruct (u <? 2 * (z mod u))%Z; [nia |].
  destruct (Z.even q); nia.
Qed.

(** Rounding does not move a number across a bound of magnitude below
    2^53: comparing the rounded difference, as lines 220, 227 and 238 do,
    is comparing the exact one. *)
Lemma roundToDouble_ltb z c :
  (Z.abs c < 2 ^ 53)%Z -> (roundToDouble z <? c)%Z = (z <? c)%Z.
Proof.
  intros Hc.
  destruct (Z.le_gt_cases (Z.abs z) (2 ^ 53)) as [Hz | Hz];
    [rewrite roundToDouble_exact by exact Hz; reflexivity |].
  destruct (Z.le_gt_cases 0 z) as [Hp | Hn].
  - pose proof (roundToDouble_large z ltac:(lia)).
    destruct (Z.ltb_spec (roundToDouble z) c), (Z.ltb_spec z c); lia.
  - pose proof (roundToDouble_large (- z) ltac:(lia)) as Hl.
    rewrite roundToDouble_opp in Hl.
    destruct (Z.ltb_spec (roundToDouble z) c), (Z.ltb_spec z c); lia.
Qed.

Lemma numSub_ltb a b c :
  (Z.abs c < 2 ^ 53)%Z -> (numSub a b <? c)%Z = (a - b <? c)%Z.
Proof. apply roundToDouble_ltb. Qed.

Lemma numSub_gtb a b c :
  (Z.abs c < 2 ^ 53)%Z -> (numSub a b >? c)%Z = (a - b >? c)%Z.
Proof.
  intros Hc. unfold numSub. rewrite !Z.gtb_ltb.
  rewrite <- (Z.opp_involutive (roundToDouble (a - b))), <- roundToDouble_opp.
  destruct (Z.ltb_spec c (- roundToDouble (- (a - b)))) as [H1 | H1],
           (Z.ltb_spec c (a - b)) as [H2 | H2]; try reflexivity; exfalso.
  - pose proof (roundToDouble_ltb (- (a - b)) (- c) ltac:(lia)) as E.
    destruct (Z.ltb_spec (roundToDouble (- (a - b))) (- c)),
             (Z.ltb_spec (- (a - b)) (- c)); try discriminate; lia.
  - pose proof (roundToDouble_ltb (- (a - b)) (- c) ltac:(lia)) as E.
    destruct (Z.ltb_spec (roundToDouble (- (a - b))) (- c)),
             (Z.ltb_spec (- (a - b)) (- c)); try discriminate; lia.
Qed.

Lemma safeTime_bound z : safeTime z = true -> (Z.abs z <= 2 ^ 53 - 100)%Z.
Proof. unfold safeTime. intros H. apply Z.leb_le in H. exact H. Qed.

(** Lines 236-240 keep the block inside the gap, at full width, when the
    ends of the gap are exact under the arithmetic. *)
Lemma placeInGap_inside gap :
  safeTime (gapStart gap) = true -> safeTime (gapEnd gap) = true ->
  (gapEnd gap - gapStart gap > newBlockDuration)%Z ->
  let '(s, e) := placeInGap gap in
  (e - s = newBlockDuration /\ gapStart gap <= s /\ e <= gapEnd gap /\
   (Z.max 0 (gapStart gap) + 100 <= gapEnd gap -> s = Z.max 0 (gapStart gap)))%Z.
Proof.
  intros Hs He. apply safeTime_bound in Hs, He.
  unfold placeInGap, numAdd, numSub, newBlockDuration, activeTime. intros Hw.
  assert (H53 : (2 ^ 53 = 9007199254740992)%Z) by reflexivity.
  rewrite (roundToDouble_exact (Z.max 0 (gapStart gap) + 100)) by lia.
  rewrite (roundToDouble_exact (Z.min (Z.max 0 (gapStart gap) + 100) (gapEnd gap)
                                - Z.max 0 (gapStart gap))) by lia.
  rewrite (roundToDouble_exact (Z.min (Z.max 0 (gapStart gap) + 100) (gapEnd gap) - 100))
    by lia.
  destruct (Z.ltb_spec (Z.min (Z.max 0 (gapStart gap) + 100) (gapEnd gap)
                        - Z.max 0 (gapStart gap)) 100); lia.
Qed.

(** Beyond 2^53 the arithmetic is no longer exact: for the gap from 2^60
    to 2^61 the sum of line 237 is rounded back to 2^60, the snap of line
    239 is taken, and the block is 128 long and ends where the gap
    starts. *)
Lemma placeInGap_beyond_exact :
  placeInGap (mkGap (2 ^ 60) (2 ^ 61)) = ((2 ^ 60 - 128)%Z, (2 ^ 60)%Z).
Proof. vm_compute. reflexivity. Qed.

(** The same in [ADD_BLOCK]: after a block [0,2^60) in an animation of
    duration 2^61 the chosen gap is the one from 2^60 to 2^61, and the new
    block, from 2^60 - 128 to 2^60, is 128 long, lies before the gap and
    overlaps the block that is there. *)
Lemma addBlock_beyond_exact :
  safeTimes farStore farState = false /\
  findGap farStore {| aid := "A"; duration := 2 ^ 61; blocks := [0] |} "L" "P"
    = Some (mkGap (2 ^ 60) (2 ^ 61)) /\
  exists s' h',
    addBlock farState layerL "P" VUndefined VUndefined farStore = (Some (Changed s'), h') /\
    startTime (addedBlock farStore h') = (2 ^ 60 - 128)%Z /\
    endTime (addedBlock farStore h') = (2 ^ 60)%Z /\
    overlaps (addedBlock farStore h') (blockLP "b0" 0 (2 ^ 60)) = true.
Proof.
  split; [reflexivity |]. split; [vm_compute; reflexivity |].
  do 2 eexists. split; [vm_compute; reflexivity |].
  split; [reflexivity |]. split; reflexivity.
Qed.

(** The ends of the candidate gaps are times of the document. *)
Lemma buildGaps_safe prevEnd bs dur gap :
  safeTime prevEnd = true -> safeTime dur = true ->
  (forall b, In b bs -> safeTime (startTime b) = true /\ safeTime (endTime b) = true) ->
  In gap (buildGaps prevEnd bs dur) ->
  safeTime (gapStart gap) = true /\ safeTime (gapEnd gap) = true.
Proof.
  revert prevEnd. induction bs as [| b rest IH]; cbn [buildGaps]; intros prevEnd Hp Hd Hall Hin.
  - destruct Hin as [<- | []]. cbn. auto.
  - destruct (Hall b (or_introl eq_refl)) as [Hbs Hbe].
    destruct Hin as [<- | Hin]; [cbn; auto |].
    apply (IH (endTime b)); auto. intros b' Hb'. apply Hall. right. exact Hb'.
Qed.

Lemma blockNeighborsOf_safe h state animation layerId_ propertyName_ n :
  safeTimes h state = true ->
  In n (blockNeighborsOf h animation layerId_ propertyName_) ->
  safeTime (startTime n) = true /\ safeTime (endTime n) = true.
Proof.
  unfold safeTimes, blockNeighborsOf. intros Hs Hn.
  apply andb_prop in Hs. destruct Hs as [_ Hb].
  apply sortBy_In in Hn. apply filter_In in Hn. destruct Hn as [Hn _].
  apply in_map_iff in Hn. destruct Hn as (r & <- & _). unfold deref.
  destruct (Nat.lt_ge_cases r (length (objects h))) as [Hr | Hr].
  - apply andb_prop. revert Hb. rewrite forallb_forall. intros Hb. apply Hb.
    apply nth_In, Hr.
  - rewrite nth_overflow by exact Hr. split; reflexivity.
Qed.

Lemma timelineOrdered_bounds prevEnd bs dur :
  timelineOrdered prevEnd bs dur = true ->
  (prevEnd <= dur)%Z /\
  forall b, In b bs -> (prevEnd <= startTime b /\ endTime b <= dur)%Z.
Proof.
  revert prevEnd. induction bs as [| b rest IH]; cbn; intros prevEnd H.
  - split; [lia | intros b []].
  - apply andb_prop in H. destruct H as [H H3]. apply andb_prop in H. destruct H as [H1 H2].
    apply IH in H3. destruct H3 as [Hd Hall].
    split; [lia |]. intros b' [-> | Hin]; [lia |].
    specialize (Hall _ Hin). lia.
Qed.

(** In an ordered timeline every candidate gap is clear of every block and
    ends by the animation's duration. *)
Lemma buildGaps_clear prevEnd bs dur gap :
  timelineOrdered prevEnd bs dur = true ->
  In gap (buildGaps prevEnd bs dur) ->
  (prevEnd <= gapStart gap /\ gapEnd gap <= dur)%Z /\
  forall b, In b bs -> (endTime b <= gapStart gap \/ gapEnd gap <= startTime b)%Z.
Proof.
  revert prevEnd. induction bs as [| b rest IH]; cbn; intros prevEnd H Hin.
  - destruct Hin as [<- | []]. cbn. split; [lia | intros b []].
  - apply andb_prop in H. destruct H as [H H3]. apply andb_prop in H. destruct H as [H1 H2].
    pose proof (timelineOrdered_bounds _ _ _ H3) as [Hd Hall].
    destruct Hin as [<- | Hin]; cbn.
    + split; [lia |]. intros b' [-> | Hb']; [lia |].
      specialize (Hall _ Hb'). lia.
    + destruct (IH _ H3 Hin) as [[Hs He] Hclear].
      split; [lia |]. intros b' [-> | Hb']; [lia | auto].
Qed.

(** [ADD_BLOCK] with the active animation at hand: what is returned and
    what is allocated. *)
Lemma addBlock_run state layer prop fromV toV h animation :
  find (fun anim => String.eqb (aid anim) (activeAnimationId (timeline state)))
       (animations (timeline state)) = Some animation ->
  addBlock state layer prop fromV toV h =
  match findGap h animation (lid layer) prop with
  | None => (Some Unchanged, h)
  | Some gap =>
      let id := NilEmpty.string_of_uint (Nat.to_uint (S (idCounter h))) in
      let b := {| bid := id;
                  bkind := blockKindFor (propertyOf layer prop);
                  layerId := lid layer;
                  animationId := activeAnimationId (timeline state);
                  propertyName := prop;
                  startTime := fst (placeInGap gap);
                  endTime := snd (placeInGap gap);
                  fromValue := fromV;
                  toValue := toV |} in
      (Some (Changed
         (withTimeline (resultOf state (selectBlockId state id true))
            (withAnimations (timeline state)
               (map (fun anim =>
                       if negb (String.eqb (aid anim) (aid animation)) then anim
                       else withBlocks anim (blocks anim ++ [length (objects h)]))
                    (animations (timeline state)))))),
       {| objects := objects h ++ [b]; idCounter := S (idCounter h) |})
  end.
Proof.
  intros F. unfold addBlock. rewrite F. cbn.
  destruct (findGap _ _ _ _) as [gap|]; [| reflexivity].
  destruct (placeInGap gap) as [st en]. reflexivity.
Qed.

Lemma addBlock_found state layer prop fromV toV h o h' :
  addBlock state layer prop fromV toV h = (Some o, h') ->
  exists animation,
    find (fun anim => String.eqb (aid anim) (activeAnimationId (timeline state)))
         (animations (timeline state)) = Some animation.
Proof.
  unfold addBlock. intros E. eff_inv. eauto.
Qed.

Lemma deref_new h b :
  deref {| objects := objects h ++ [b]; idCounter := S (idCounter h) |} (length (objects h)) = b.
Proof.
  unfold deref. cbn. rewrite app_nth2 by lia. rewrite Nat.sub_diag. reflexivity.
Qed.

(** The selections of the timeline are those of the input after
    [ADD_BLOCK], whatever [selectBlockId] returned. *)
Lemma addBlock_timeline_selection state layer prop fromV toV h o h' :
  addBlock state layer prop fromV toV h = (Some o, h') ->
  selectedBlockIds (timeline (resultOf state o)) = selectedBlockIds (timeline state) /\
  selectedAnimationIds (timeline (resultOf state o)) = selectedAnimationIds (timeline state).
Proof.
  intros E. destruct (addBlock_found _ _ _ _ _ _ _ _ E) as (animation & F).
  rewrite (addBlock_run _ _ _ _ _ _ _ F) in E.
  destruct (findGap _ _ _ _); inversion E; subst; cbn; auto.
Qed.

(** C10, as amended: in a document whose times are whole numbers of
    magnitude at most 2^53 - 100, for every [ADD_BLOCK] that places a
    block, the chosen gap is a candidate gap of the pair and, of the
    candidates wider than 100, one nearest to time 0, the cursor; the
    block starts at the later of time 0 and the gap's start when 100 units
    fit from there; it lasts exactly 100 time units and lies inside the
    chosen gap; and when the blocks of the pair, in start order, lie in
    [0, duration] without overlapping one another, the new block overlaps
    none of them and ends by the animation's duration. *)
Theorem addBlock_placement state layer prop fromV toV h s' h' :
  safeTimes h state = true ->
  addBlock state layer prop fromV toV h = (Some (Changed s'), h') ->
  exists animation gap,
    find (fun anim => String.eqb (aid anim) (activeAnimationId (timeline state)))
         (animations (timeline state)) = Some animation /\
    findGap h animation (lid layer) prop = Some gap /\
    let b := addedBlock h h' in
    let neighbors := blockNeighborsOf h animation (lid layer) prop in
    let candidates := buildGaps 0 neighbors (duration animation) in
    In gap candidates /\
    (forall g, In g candidates -> (gapEnd g - gapStart g > 100)%Z ->
       (Z.min (Z.abs (gapEnd gap)) (Z.abs (gapStart gap))
        <= Z.min (Z.abs (gapEnd g)) (Z.abs (gapStart g)))%Z) /\
    ((Z.max 0 (gapStart gap) + 100 <= gapEnd gap)%Z ->
     startTime b = Z.max 0 (gapStart gap)) /\
    (endTime b - startTime b = 100)%Z /\
    (gapStart gap <= startTime b /\ endTime b <= gapEnd gap)%Z /\
    (timelineOrdered 0 neighbors (duration animation) = true ->
     (forall n, In n neighbors -> overlaps b n = false) /\
     (endTime b <= duration animation)%Z).
Proof.
  intros Hsafe E. destruct (addBlock_found _ _ _ _ _ _ _ _ E) as (animation & F).
  rewrite (addBlock_run _ _ _ _ _ _ _ F) in E.
  destruct (findGap _ _ _ _) as [gap|] eqn:Fg; [| discriminate].
  exists animation, gap. split; [exact F |]. split; [exact Fg |].
  destruct (findGap_candidate _ _ _ _ _ Fg) as [Hin Hw].
  assert (Hdur : safeTime (duration animation) = true).
  { unfold safeTimes in Hsafe. apply andb_prop in Hsafe. destruct Hsafe as [Ha _].
    rewrite forallb_forall in Ha. apply Ha. apply find_some in F. apply F. }
  destruct (buildGaps_safe 0 _ _ gap eq_refl Hdur
              (fun n Hn => blockNeighborsOf_safe _ _ _ _ _ n Hsafe Hn) Hin) as [Hgs Hge].
  pose proof (placeInGap_inside gap Hgs Hge Hw) as Hp.
  destruct (placeInGap gap) as [st en]. destruct Hp as (Hd & Hs & He & Hleft).
  cbv zeta in E. inversion E; subst. unfold addedBlock. rewrite deref_new. cbn.
  unfold newBlockDuration in Hd.
  split; [exact Hin |].
  split.
  { intros g Hg Hwg. unfold findGap, eligibleGaps in Fg.
    apply sortBy_head in Fg. destruct Fg as (pre & post & El & Hpre & Hpost).
    assert (Hgin : In g (pre ++ gap :: post)).
    { rewrite <- El. apply filter_In. split; [exact Hg |].
      unfold newBlockDuration. apply Z.gtb_lt. lia. }
    assert (Hle : (gapDist gap <= gapDist g)%Z).
    { apply in_app_or in Hgin. destruct Hgin as [Hg' | [<- | Hg']];
        [specialize (Hpre g Hg'); lia | lia | exact (Hpost g Hg')]. }
    unfold gapDist, activeTime in Hle. rewrite !Z.sub_0_r in Hle. exact Hle. }
  split; [exact Hleft |]. split; [exact Hd |].
  split; [split; assumption |].
  intros Hord. destruct (buildGaps_clear _ _ _ _ Hord Hin) as [[_ Hdur'] Hclear].
  split; [| lia].
  intros n Hn. unfold overlaps. cbn. destruct (Hclear n Hn) as [Hc | Hc].
  - apply andb_false_iff. left. apply Z.ltb_ge. lia.
  - apply andb_false_iff. right. apply Z.ltb_ge. lia.
Qed.

(** C5: with an active animation of duration 1000 that holds exactly
    one block, [100,300) for the pair (L,P), the candidate gaps are
    [0,100) and [300,1000), only the second is kept (the first is not
    wider than 100), its distance from cursor time 0 is 300, and
    [ADD_BLOCK] for (L,P) allocates a block with start time 300 and end
    time 400 and appends it to the active animation. *)
Theorem gapFinder_example state layer prop fromV toV h animation r :
  find (fun anim => String.eqb (aid anim) (activeAnimationId (timeline state)))
       (animations (timeline state)) = Some animation ->
  duration animation = 1000%Z ->
  blocks animation = [r] ->
  layerId (deref h r) = lid layer ->
  propertyName (deref h r) = prop ->
  startTime (deref h r) = 100%Z ->
  endTime (deref h r) = 300%Z ->
  let neighbors := blockNeighborsOf h animation (lid layer) prop in
  buildGaps 0 neighbors (duration animation)
    = [ {| gapStart := 0; gapEnd := 100 |}; {| gapStart := 300; gapEnd := 1000 |} ] /\
  findGap h animation (lid layer) prop = Some {| gapStart := 300; gapEnd := 1000 |} /\
  gapDist {| gapStart := 300; gapEnd := 1000 |} = 300%Z /\
  exists s' h',
    addBlock state layer prop fromV toV h = (Some (Changed s'), h') /\
    startTime (addedBlock h h') = 300%Z /\
    endTime (addedBlock h h') = 400%Z /\
    layerId (addedBlock h h') = lid layer /\
    propertyName (addedBlock h h') = prop /\
    exists animation',
      find (fun anim => String.eqb (aid anim) (activeAnimationId (timeline s')))
           (animations (timeline s')) = Some animation' /\
      blocks animation' = [r; length (objects h)].
Proof.
  intros F Hdur Hbs Hl Hp Hs He neighbors.
  assert (Hn : neighbors = [deref h r]).
  { unfold neighbors, blockNeighborsOf. rewrite Hbs. cbn.
    rewrite Hl, Hp, !String.eqb_refl. reflexivity. }
  assert (Hg : buildGaps 0 neighbors (duration animation)
               = [ {| gapStart := 0; gapEnd := 100 |}; {| gapStart := 300; gapEnd := 1000 |} ]).
  { rewrite Hn. cbn. rewrite Hs, He, Hdur. reflexivity. }
  assert (Hf : findGap h animation (lid layer) prop = Some {| gapStart := 300; gapEnd := 1000 |}).
  { unfold findGap. fold neighbors. rewrite Hg. reflexivity. }
  split; [exact Hg |]. split; [exact Hf |]. split; [reflexivity |].
  rewrite (addBlock_run _ _ _ _ _ _ _ F), Hf.
  eexists _, _. split; [reflexivity |].
  unfold addedBlock. rewrite deref_new. cbn.
  split; [reflexivity |]. split; [reflexivity |]. split; [reflexivity |].
  split; [reflexivity |].
  exists (withBlocks animation (blocks animation ++ [length (objects h)])).
  split; [| cbn; rewrite Hbs; reflexivity].
  assert (Ha : String.eqb (aid animation) (activeAnimationId (timeline state)) = true).
  { apply find_some in F. apply F. }
  clear -F Ha. induction (animations (timeline state)) as [| x l IH]; [discriminate |].
  cbn in F |- *. destruct (String.eqb (aid x) (activeAnimationId (timeline state))) eqn:Ex.
  - inversion F; subst. rewrite String.eqb_refl. cbn. rewrite Ex. reflexivity.
  - destruct (String.eqb (aid x) (aid animation)) eqn:Exa.
    + apply String.eqb_eq in Exa. rewrite Exa, Ha in Ex. discriminate.
    + cbn. rewrite Ex. apply IH, F.
Qed.

(** ** Path compatibilizer *)

Lemma alter_map_inv {A B} (g : A -> B) (f : A -> A) (i : nat) (l : list A) :
  (forall x, g (f x) = g x) -> map g (alter f i l) = map g l.
Proof.
  intros Hg. revert i. induction l as [| x l IH]; intros [| i]; cbn; try reflexivity.
  - rewrite Hg. reflexivity.
  - f_equal. apply IH.
Qed.

Lemma unconvertSubPath_counts i p : commandCounts (unconvertSubPath i p) = commandCounts p.
Proof.
  unfold commandCounts, unconvertSubPath. apply alter_map_inv.
  intros sp. unfold numCommandsOf. cbn. apply length_map.
Qed.

Lemma commandCounts_length p : length (commandCounts p) = length p.
Proof. apply length_map. Qed.

Lemma collapsingCommands_length pole n : length (collapsingCommands pole n) = n.
Proof. destruct n; cbn; [reflexivity |]. rewrite repeat_length. reflexivity. Qed.

Lemma collapsingCommands_at_pole pole n c :
  In c (collapsingCommands pole n) -> endPoint c = pole.
Proof.
  destruct n; cbn; [intros [] |]. intros [<- | Hc]; [reflexivity |].
  apply repeat_spec in Hc. subst. reflexivity.
Qed.

Lemma unconvertSubPath_middle (pre : Path) (sp : SubPath) (l : Path) :
  unconvertSubPath (length pre) (pre ++ sp :: l) = pre ++ unconvertedSubPath sp :: l.
Proof.
  unfold unconvertSubPath. induction pre as [| x pre IH]; cbn; [reflexivity |].
  f_equal. exact IH.
Qed.

(** Unconverting every subpath in turn is unconverting them all. *)
Lemma unconvertAll_map (pre l : Path) :
  foldl (fun mutator subIdx => unconvertSubPath subIdx mutator) (pre ++ l)
        (seq (length pre) (length l))
  = pre ++ map unconvertedSubPath l.
Proof.
  revert pre. induction l as [| sp l IH]; intros pre; [reflexivity |].
  change (seq (length pre) (length (sp :: l)))
    with (length pre :: seq (S (length pre)) (length l)).
  cbn [foldl map]. rewrite unconvertSubPath_middle.
  replace (pre ++ unconvertedSubPath sp :: l) with ((pre ++ [unconvertedSubPath sp]) ++ l)
    by (rewrite <- app_assoc; reflexivity).
  replace (S (length pre)) with (length (pre ++ [unconvertedSubPath sp]))
    by (rewrite length_app; cbn; lia).
  rewrite IH. rewrite <- app_assoc. reflexivity.
Qed.

Lemma normalizePath_eq path :
  normalizePath path = deleteCollapsingSubPaths (map unconvertedSubPath path).
Proof.
  unfold normalizePath. f_equal. apply (unconvertAll_map [] path).
Qed.

Lemma unconvertedSubPath_clean sp : hasConversion (unconvertedSubPath sp) = false.
Proof.
  unfold hasConversion, unconvertedSubPath. cbn.
  induction (getCommands sp) as [| c l IH]; cbn; [reflexivity | exact IH].
Qed.

Lemma deleteCollapsingSubPaths_In sp p :
  In sp (deleteCollapsingSubPaths p) <-> In sp p /\ isCollapsing sp = false.
Proof.
  unfold deleteCollapsingSubPaths. rewrite filter_In.
  destruct (isCollapsing sp); cbn; intuition congruence.
Qed.

Section Compatibilizer.

Context {G : Collaborators}.

(** The padding loop appends one synthetic subpath per missing index. *)
Lemma padWithCollapsing_eq (longer : Path) (cnt start : nat) (shorter : Path) :
  start + cnt <= length longer ->
  padWithCollapsing shorter longer start (start + cnt)
  = Some (shorter ++ map (syntheticSubPath longer) (seq start cnt)).
Proof.
  unfold padWithCollapsing. replace (start + cnt - start) with cnt by lia.
  revert start shorter. induction cnt as [| cnt IH]; intros start shorter Hle.
  - cbn. rewrite app_nil_r. reflexivity.
  - destruct (lookup_lt_is_Some_2 longer start) as [sp Hsp]; [lia |].
    cbn [seq foldl map]. simpl (Some shorter ≫= _). rewrite Hsp. simpl (Some sp ≫= _).
    unfold addCollapsingSubPath.
    rewrite IH by lia. rewrite <- app_assoc. cbn [app].
    unfold syntheticSubPath at 2. rewrite Hsp. reflexivity.
Qed.

(** Lines 734-753 as one equation: each path is padded up to the length of
    the other. *)
Lemma equalizeSubPaths_eq (path oppPath : Path) :
  equalizeSubPaths path oppPath
  = Some (path ++ map (syntheticSubPath oppPath)
                      (seq (length path) (length oppPath - length path)),
          oppPath ++ map (syntheticSubPath path)
                         (seq (length oppPath) (length path - length oppPath))).
Proof.
  unfold equalizeSubPaths.
  destruct (Nat.eqb_spec (length path) (length oppPath)) as [E | N]; cbn [negb].
  - rewrite E, Nat.sub_diag. cbn. rewrite !app_nil_r. reflexivity.
  - destruct (Nat.ltb_spec (length path) (length oppPath)) as [Hlt | Hge].
    + rewrite Nat.min_l, Nat.max_r by lia.
      pose proof (padWithCollapsing_eq oppPath (length oppPath - length path)
                    (length path) path ltac:(lia)) as Hpad.
      replace (length path + (length oppPath - length path)) with (length oppPath)
        in Hpad by lia.
      rewrite Hpad. simpl (Some _ ≫= _).
      replace (length path - length oppPath) with 0 by lia. cbn [seq map].
      rewrite app_nil_r. reflexivity.
    + rewrite Nat.min_r, Nat.max_l by lia.
      pose proof (padWithCollapsing_eq path (length path - length oppPath)
                    (length oppPath) oppPath ltac:(lia)) as Hpad.
      replace (length oppPath + (length path - length oppPath)) with (length path)
        in Hpad by lia.
      rewrite Hpad. simpl (Some _ ≫= _).
      replace (length oppPath - length path) with 0 by lia. cbn [seq map].
      rewrite app_nil_r. reflexivity.
Qed.

Context {L : CollaboratorLaws G}.

(** The conversion loop runs to its end and changes no command count. *)
Lemma autoConvertLoop_counts (l : list nat) (path oppPath : Path) :
  (forall i, In i l -> i < length path /\ i < length oppPath) ->
  exists path' oppPath',
    foldl autoConvertStep (Some (path, oppPath)) l = Some (path', oppPath') /\
    commandCounts path' = commandCounts path /\
    commandCounts oppPath' = commandCounts oppPath.
Proof.
  revert path oppPath. induction l as [| i l IH]; intros path oppPath Hl; cbn.
  - eauto.
  - destruct (Hl i (or_introl eq_refl)) as [Hp Ho].
    destruct (lookup_lt_is_Some_2 path i Hp) as [sp Hsp].
    destruct (lookup_lt_is_Some_2 oppPath i Ho) as [osp Hosp].
    rewrite Hsp, Hosp. cbn.
    destruct (Nat.eqb _ _).
    + destruct (autoConvert_counts i path (unconvertSubPath i oppPath)) as [Cp Co].
      rewrite unconvertSubPath_counts in Co.
      destruct (autoConvert i path (unconvertSubPath i oppPath)) as [p1 o1].
      cbn [fst snd] in Cp, Co.
      destruct (IH p1 o1) as (p' & o' & E & Cp' & Co').
      { intros j Hj. destruct (Hl j (or_intror Hj)) as [Hjp Hjo].
        rewrite <- (commandCounts_length p1), <- (commandCounts_length o1), Cp, Co.
        rewrite !commandCounts_length. auto. }
      exists p', o'. rewrite E. split; [reflexivity |]. split; congruence.
    + apply IH. intros j Hj. apply Hl. right. exact Hj.
Qed.

Lemma syntheticSubPath_counts (pre l : Path) :
  map numCommandsOf (map (syntheticSubPath (pre ++ l)) (seq (length pre) (length l)))
  = map numCommandsOf l.
Proof.
  revert pre. induction l as [| sp l IH]; intros pre; [reflexivity |].
  change (seq (length pre) (length (sp :: l)))
    with (length pre :: seq (S (length pre)) (length l)).
  cbn [map]. f_equal.
  - unfold syntheticSubPath, numCommandsOf at 1. cbn [getCommands].
    rewrite collapsingCommands_length, list_lookup_middle by reflexivity. reflexivity.
  - replace (pre ++ sp :: l) with ((pre ++ [sp]) ++ l) by (rewrite <- app_assoc; reflexivity).
    replace (S (length pre)) with (length (pre ++ [sp])) by (rewrite length_app; cbn; lia).
    apply IH.
Qed.

(** The command counts of the padding are those of the longer path past
    the shorter one's length. *)
Lemma padding_counts (longer : Path) (n : nat) :
  commandCounts (map (syntheticSubPath longer) (seq n (length longer - n)))
  = drop n (commandCounts longer).
Proof.
  destruct (Nat.le_gt_cases n (length longer)) as [Hle | Hgt].
  - assert (Hsplit : exists pre l, longer = pre ++ l /\ length pre = n).
    { exists (take n longer), (drop n longer).
      split; [symmetry; apply take_drop | rewrite length_take; lia]. }
    destruct Hsplit as (pre & l & -> & <-).
    rewrite length_app.
    replace (length pre + length l - length pre) with (length l) by lia.
    unfold commandCounts. rewrite syntheticSubPath_counts, map_app.
    rewrite drop_app_length'; [reflexivity | symmetry; apply length_map].
  - replace (length longer - n) with 0 by lia. cbn.
    rewrite drop_ge; [reflexivity |]. rewrite commandCounts_length. lia.
Qed.

Lemma commandCounts_app p q : commandCounts (p ++ q) = commandCounts p ++ commandCounts q.
Proof. apply map_app. Qed.

(** What the compatibilizer returns, count by count. *)
Lemma compatibilize_counts (path opp : Path) :
  let oppPath := deleteCollapsingSubPaths opp in
  let n := length path in
  let m := length oppPath in
  exists path' oppPath',
    compatibilize path opp = Some (path', oppPath') /\
    length path' = Nat.max n m /\
    length oppPath' = Nat.max n m /\
    commandCounts path' = commandCounts path ++ drop n (commandCounts oppPath) /\
    commandCounts oppPath' = commandCounts oppPath ++ drop m (commandCounts path).
Proof.
  intros oppPath n m.
  unfold compatibilize. fold oppPath. fold n. fold m.
  rewrite equalizeSubPaths_eq. fold n. fold m.
  set (P := path ++ map (syntheticSubPath oppPath) (seq n (m - n))).
  set (O := oppPath ++ map (syntheticSubPath path) (seq m (n - m))).
  assert (HP : commandCounts P = commandCounts path ++ drop n (commandCounts oppPath)).
  { unfold P. rewrite commandCounts_app. f_equal. apply padding_counts. }
  assert (HO : commandCounts O = commandCounts oppPath ++ drop m (commandCounts path)).
  { unfold O. rewrite commandCounts_app. f_equal. apply padding_counts. }
  assert (LP : length P = Nat.max n m).
  { unfold P. rewrite length_app, length_map, length_seq. fold n. lia. }
  assert (LO : length O = Nat.max n m).
  { unfold O. rewrite length_app, length_map, length_seq. fold m. lia. }
  destruct (autoConvertLoop_counts (seq 0 (Nat.max n m)) P O) as (p' & o' & E & Cp & Co).
  { intros i Hi. apply in_seq in Hi. lia. }
  exists p', o'. split; [exact E |].
  split; [rewrite <- (commandCounts_length p'), Cp, commandCounts_length; exact LP |].
  split; [rewrite <- (commandCounts_length o'), Co, commandCounts_length; exact LO |].
  split; congruence.
Qed.

(** C6: with an opposite endpoint at hand, the compatibilizer pads the
    endpoint that has fewer subpaths once the collapsing subpaths are
    deleted ([n] against [m]) with one synthetic collapsing subpath per
    missing index, |n - m| in all, each at the pole of inaccessibility of
    the subpath of that index on the longer endpoint and with that
    subpath's command count; both endpoints come out with [max n m]
    subpaths, and the command counts of the padding are those of the
    longer endpoint.  In particular 1 subpath of 4 commands against 2
    subpaths of 4 commands each gives command counts [4,4] on both
    sides, whichever endpoint was edited. *)
Theorem compatibilize_pads_shorter (path opp : Path) :
  let oppPath := deleteCollapsingSubPaths opp in
  let n := length path in
  let m := length oppPath in
  equalizeSubPaths path oppPath
    = Some (path ++ map (syntheticSubPath oppPath) (seq n (m - n)),
            oppPath ++ map (syntheticSubPath path) (seq m (n - m))) /\
  (forall (longer : Path) i sp,
     longer !! i = Some sp ->
     isCollapsing (syntheticSubPath longer i) = true /\
     numCommandsOf (syntheticSubPath longer i) = numCommandsOf sp /\
     forall c, In c (getCommands (syntheticSubPath longer i)) ->
               endPoint c = getPoleOfInaccessibility longer i) /\
  exists path' oppPath',
    compatibilize path opp = Some (path', oppPath') /\
    length path' = Nat.max n m /\
    length oppPath' = Nat.max n m /\
    commandCounts path' = commandCounts path ++ drop n (commandCounts oppPath) /\
    commandCounts oppPath' = commandCounts oppPath ++ drop m (commandCounts path) /\
    (commandCounts path = [4] -> commandCounts oppPath = [4; 4] ->
     commandCounts path' = [4; 4] /\ commandCounts oppPath' = [4; 4]) /\
    (commandCounts path = [4; 4] -> commandCounts oppPath = [4] ->
     commandCounts path' = [4; 4] /\ commandCounts oppPath' = [4; 4]).
Proof.
  intros oppPath n m.
  split; [apply equalizeSubPaths_eq |].
  split.
  { intros longer i sp Hsp. unfold syntheticSubPath, numCommandsOf. cbn [getCommands isCollapsing].
    rewrite Hsp, collapsingCommands_length.
    split; [reflexivity |]. split; [reflexivity |].
    intros c Hc. eapply collapsingCommands_at_pole, Hc. }
  destruct (compatibilize_counts path opp) as (p' & o' & E & Lp & Lo & Cp & Co).
  fold oppPath n m in Lp, Lo, Cp, Co.
  exists p', o'. split; [exact E |].
  split; [exact Lp |]. split; [exact Lo |].
  split; [exact Cp |]. split; [exact Co |].
  assert (Hn : n = length (commandCounts path)) by (rewrite commandCounts_length; reflexivity).
  assert (Hm : m = length (commandCounts oppPath)) by (rewrite commandCounts_length; reflexivity).
  split; intros H1 H2; rewrite Cp, Co, Hn, Hm, H1, H2; split; reflexivity.
Qed.

(** C7, as amended: the normalization step of [UpdatePathBlock] deletes
    the collapsing subpaths of both endpoints before the subpath counts
    are equalized, and reverts the promotions of every subpath of the
    edited endpoint only; the opposite endpoint enters equalization with
    the commands it had, and its promotions are reverted one subpath at a
    time inside the conversion loop, at the indices where the two
    endpoints have equal command counts, as [autoConvert] is called. *)
Theorem normalization_scope (path opp : Path) :
  normalizePath path = deleteCollapsingSubPaths (map unconvertedSubPath path) /\
  noCollapsing (normalizePath path) = true /\
  unconverted (normalizePath path) = true /\
  noCollapsing (deleteCollapsingSubPaths opp) = true /\
  (forall sp, In sp (deleteCollapsingSubPaths opp) <-> In sp opp /\ isCollapsing sp = false) /\
  compatibilize (normalizePath path) opp
    = foldl autoConvertStep
            (equalizeSubPaths (normalizePath path) (deleteCollapsingSubPaths opp))
            (seq 0 (Nat.max (length (normalizePath path))
                            (length (deleteCollapsingSubPaths opp)))) /\
  (forall (p o : Path) subIdx sp osp,
     p !! subIdx = Some sp -> o !! subIdx = Some osp ->
     unconvertSubPath subIdx o !! subIdx = Some (unconvertedSubPath osp) /\
     hasConversion (unconvertedSubPath osp) = false /\
     autoConvertStep (Some (p, o)) subIdx
       = if Nat.eqb (numCommandsOf sp) (numCommandsOf osp)
         then Some (autoConvert subIdx p (unconvertSubPath subIdx o))
         else Some (p, o)).
Proof.
  split; [apply normalizePath_eq |].
  assert (Hnc : forall q, noCollapsing (deleteCollapsingSubPaths q) = true).
  { intros q. unfold noCollapsing. apply forallb_forall. intros sp Hsp.
    apply deleteCollapsingSubPaths_In in Hsp. destruct Hsp as [_ ->]. reflexivity. }
  split; [apply Hnc |].
  split.
  { rewrite normalizePath_eq. unfold unconverted. apply forallb_forall. intros sp Hsp.
    apply deleteCollapsingSubPaths_In in Hsp. destruct Hsp as [Hsp _].
    apply in_map_iff in Hsp. destruct Hsp as (sp0 & <- & _).
    rewrite unconvertedSubPath_clean. reflexivity. }
  split; [apply Hnc |].
  split; [intros sp; apply deleteCollapsingSubPaths_In |].
  split; [reflexivity |].
  intros p o subIdx sp osp Hp Ho.
  split.
  { unfold unconvertSubPath. rewrite list_lookup_alter_eq, Ho. reflexivity. }
  split; [apply unconvertedSubPath_clean |].
  unfold autoConvertStep. simpl (Some _ ≫= _). rewrite Hp. simpl (Some _ ≫= _).
  rewrite Ho. simpl (Some _ ≫= _). reflexivity.
Qed.

End Compatibilizer.

(** ** The store under the two writes of [updatePathAnimationBlock] *)

Lemma deref_insert_eq objs c r b :
  r < length objs ->
  deref {| objects := <[r := b]> objs; idCounter := c |} r = b.
Proof.
  intros Hr. unfold deref. cbn. rewrite nth_lookup, list_lookup_insert_eq by exact Hr.
  reflexivity.
Qed.

Lemma deref_insert_ne objs c c' r r' b :
  r' <> r ->
  deref {| objects := <[r := b]> objs; idCounter := c |} r'
  = deref {| objects := objs; idCounter := c' |} r'.
Proof.
  intros Hr. unfold deref. cbn. rewrite !nth_lookup, list_lookup_insert_ne by congruence.
  reflexivity.
Qed.

Lemma findIndex_ext {A} (f g : A -> bool) (l : list A) :
  (forall x, f x = g x) -> findIndex f l = findIndex g l.
Proof.
  intros Hfg. induction l as [| x l IH]; cbn; [reflexivity |].
  rewrite Hfg, IH. reflexivity.
Qed.

Section Commit.

Context {G : Collaborators}.

(** The two writes, one after the other, on an allocated block. *)
Lemma setBlockPath_both h block source p o :
  block < length (objects h) ->
  exists h',
    bind (setBlockPath block source p)
         (fun _ => bind (setBlockPath block (oppositeOf source) o) (fun _ => ret tt)) h
      = (Some tt, h') /\
    getBlockPath (deref h' block) source = p /\
    getBlockPath (deref h' block) (oppositeOf source) = o /\
    withFromValue (withToValue (deref h' block) VUndefined) VUndefined
      = withFromValue (withToValue (deref h block) VUndefined) VUndefined /\
    (forall r, r <> block -> deref h' r = deref h r).
Proof.
  intros Hr. destruct h as [objs c]. cbn [objects] in Hr.
  destruct source;
    unfold bind, setBlockPath, oppositeOf, setFromValue, setToValue, ret;
    cbn [objects idCounter];
    eexists; (split; [reflexivity |]);
    rewrite !deref_insert_eq by (rewrite ?length_insert; exact Hr);
    (split; [reflexivity |]); (split; [reflexivity |]); (split; [reflexivity |]);
    intros r Hne;
    rewrite (deref_insert_ne _ c c), (deref_insert_ne _ c c) by exact Hne; reflexivity.
Qed.

(** C2: for an [UpdatePathBlock] that names a block of the active
    animation, either the compatibilizer yields the reconciled pair and
    the call returns a document whose timeline is the input's and still
    holds the block, the block object now carrying both reconciled values
    (the edited endpoint in [source], the other in the opposite one) with
    all its other fields and all other blocks as they were; or the call
    throws and the store is untouched.  No outcome leaves one endpoint
    written and the other not.  The first case is the one met when the
    opposite value is a path and the collaborators keep command counts, or
    when the opposite value is falsy. *)
Theorem updatePathBlock_commits_both (state : State) (blockId : string)
    (source : CanvasType) (path : Path) (h : Store)
    (activeAnimation : Animation) (block : BlockRef) :
  atFoundIndex (fun a => String.eqb (aid a) (activeAnimationId (timeline state)))
               (animations (timeline state)) = Some activeAnimation ->
  atFoundIndex (fun b => String.eqb (bid (deref h b)) blockId)
               (blocks activeAnimation) = Some block ->
  block < length (objects h) ->
  let old := deref h block in
  let oppSource := oppositeOf source in
  match reconcile (normalizePath path) (getBlockPath old oppSource) with
  | Some (p, o) =>
      exists s' h',
        updatePathAnimationBlock state blockId source path h = (Some (Changed s'), h') /\
        timeline s' = timeline state /\
        layers s' = layers state /\
        atFoundIndex (fun b => String.eqb (bid (deref h' b)) blockId)
                     (blocks activeAnimation) = Some block /\
        getBlockPath (deref h' block) source = p /\
        getBlockPath (deref h' block) oppSource = o /\
        withFromValue (withToValue (deref h' block) VUndefined) VUndefined
          = withFromValue (withToValue old VUndefined) VUndefined /\
        (forall r, r <> block -> deref h' r = deref h r)
  | None => updatePathAnimationBlock state blockId source path h = (None, h)
  end /\
  (CollaboratorLaws G ->
   forall q, getBlockPath old oppSource = VPath q ->
     exists p o, reconcile (normalizePath path) (getBlockPath old oppSource)
                 = Some (VPath p, VPath o)) /\
  (truthy (getBlockPath old oppSource) = false ->
     reconcile (normalizePath path) (getBlockPath old oppSource)
     = Some (VPath (normalizePath path), getBlockPath old oppSource)).
Proof.
  intros Ha Hb Hr old oppSource.
  split; [| split].
  - unfold updatePathAnimationBlock, bind, getStore.
    rewrite Ha. cbn [defined ret]. rewrite Hb. cbn [defined ret].
    fold old. fold oppSource.
    destruct (reconcile _ _) as [[p o] |]; cbn [defined ret fst snd throw]; [| reflexivity].
    destruct (setBlockPath_both h block source p o Hr) as (h' & E & Hs & Ho & Hf & Hother).
    exists {| layers := layers state; timeline := timeline state;
              topAnimations := Some (animations (timeline state)) |}, h'.
    split.
    { unfold bind in E. destruct (setBlockPath block source p h) as [[[]|] h1]; [| discriminate].
      fold oppSource in E. destruct (setBlockPath block oppSource o h1) as [[[]|] h2];
        [| discriminate].
      unfold ret in E |- *. inversion E. reflexivity. }
    split; [reflexivity |]. split; [reflexivity |].
    split.
    { rewrite <- Hb. unfold atFoundIndex. f_equal. apply findIndex_ext. intros r.
      destruct (Nat.eq_dec r block) as [-> | Hne].
      - apply (f_equal bid) in Hf. cbn in Hf. fold old. rewrite Hf. reflexivity.
      - rewrite Hother by exact Hne. reflexivity. }
    split; [exact Hs |]. split; [exact Ho |]. split; [exact Hf | exact Hother].
  - intros L q Hq. rewrite Hq. unfold reconcile. cbn [truthy].
    destruct (compatibilize_counts (normalizePath path) q) as (p' & o' & E & _).
    rewrite E. simpl (Some _ ≫= _). eauto.
  - intros Hf. unfold reconcile. rewrite Hf. reflexivity.
Qed.

End Commit.

(** ** The concrete collaborators keep command counts *)

Lemma convertCommands_length (from to : list Command) :
  length (fst (convertCommands from to)) = length from /\
  length (snd (convertCommands from to)) = length to.
Proof.
  revert to. induction from as [| f from IH]; intros [| t to]; cbn; try (split; reflexivity).
  specialize (IH to). destruct (convertCommands from to) as [rf rt]. cbn in IH.
  destruct IH as [IHf IHt].
  destruct (Nat.eqb _ _); [cbn; split; congruence |].
  destruct (canConvertTo f _); [cbn; split; congruence |].
  destruct (canConvertTo t _); cbn; split; congruence.
Qed.

Lemma insert_map_inv {A B} (g : A -> B) (i : nat) (x y : A) (l : list A) :
  l !! i = Some x -> g y = g x -> map g (<[i := y]> l) = map g l.
Proof.
  revert i. induction l as [| z l IH]; intros [| i]; cbn; try discriminate.
  - intros E Hg. inversion E; subst. rewrite Hg. reflexivity.
  - intros E Hg. f_equal. apply IH; assumption.
Qed.

Lemma sampleLaws : CollaboratorLaws sampleCollaborators.
Proof.
  constructor. intros i p q. cbn [autoConvert sampleCollaborators]. unfold sampleAutoConvert.
  destruct (p !! i) as [sf|] eqn:Ep; [| split; reflexivity].
  destruct (q !! i) as [st|] eqn:Eq; [| split; reflexivity].
  pose proof (convertCommands_length (getCommands sf) (getCommands st)) as [Hf Ht].
  destruct (convertCommands _ _) as [cf ct]. cbn [fst snd] in *.
  unfold commandCounts. split; eapply insert_map_inv; eauto.
Qed.

(** ** Reference equality of the returned state *)

(** Activating an animation a second time hands back the very state. *)
Lemma activateAnimation_idempotent {G : Collaborators} state id h :
  exists o,
    reducer state (ActivateAnimation id) h = (Some o, h) /\
    reducer (resultOf state o) (ActivateAnimation id) h = (Some Unchanged, h).
Proof.
  cbn [reducer].
  destruct (String.eqb id (activeAnimationId (timeline state))) eqn:E.
  - exists Unchanged. cbn. rewrite E. split; reflexivity.
  - eexists. split; [reflexivity |]. cbn. rewrite String.eqb_refl. reflexivity.
Qed.

(** An empty input list hands back the very state. *)
Lemma emptyList_unchanged {G : Collaborators} state h :
  reducer state (AddAnimations []) h = (Some Unchanged, h) /\
  reducer state (ReplaceAnimations []) h = (Some Unchanged, h) /\
  reducer state (ReplaceBlocks []) h = (Some Unchanged, h) /\
  reducer state (AddLayers []) h = (Some Unchanged, h).
Proof. repeat split. Qed.

(** What [selectAnimationId] does with the selections: the set it
    compares and extends is the block selection. *)
Lemma selectAnimationId_result (state : State) (id : string) (clearExisting : bool) :
  let fresh := JSSet.add id (if clearExisting then JSSet.empty
                             else selectedBlockIds (timeline state)) in
  selectAnimationId state id clearExisting =
  if JSSet.isEqual (selectedBlockIds (timeline state)) fresh then Unchanged
  else Changed
    {| layers := withSelectedLayerIds (layers state)
                   (clearIfNonEmpty (selectedLayerIds (layers state)));
       timeline := {| animations := animations (timeline state);
                      selectedAnimationIds := fresh;
                      activeAnimationId := activeAnimationId (timeline state);
                      selectedBlockIds := clearIfNonEmpty (selectedBlockIds (timeline state)) |};
       topAnimations := topAnimations state |}.
Proof. reflexivity. Qed.

(** C3: the code departs from the specification.  With animation "2"
    selected, selecting "B" without [clearExisting] leaves only "B"
    selected, where the specification has the union {"2", "B"}; and
    selecting "2" again with [clearExisting], the selection being {"2"}
    already, returns a new state object, where the specification has the
    input returned. *)
Theorem selectAnimationId_ignores_prior_selection :
  selectedAnimationIds (timeline firstAnimationSelected) = ["2"] /\
  selectedAnimationIds
    (timeline (resultOf firstAnimationSelected
                 (selectAnimationId firstAnimationSelected "B" false))) = ["B"] /\
  sameReference (selectAnimationId firstAnimationSelected "2" true) = false /\
  resultOf firstAnimationSelected (selectAnimationId firstAnimationSelected "2" true)
    = firstAnimationSelected.
Proof. repeat split. Qed.

(** C9: the code departs from the specification.  Dispatching
    [SelectAnimation "2" true] on the initial document and then once more
    on the result returns, the second time, a state object that is not the
    one it was given, though it holds the same values. *)
Theorem selectAnimation_twice_new_object :
  exists s1 o,
    @reduce sampleCollaborators initialStore initialDocument (SelectAnimation "2" true)
      = (Some s1, initialStore) /\
    @reducer sampleCollaborators s1 (SelectAnimation "2" true) initialStore
      = (Some o, initialStore) /\
    sameReference o = false /\
    resultOf s1 o = s1.
Proof. do 2 eexists. repeat split. Qed.

(** C4: the code departs from the specification.  With animation "A"
    selected, a successful [ADD_BLOCK] appends the new block to the active
    animation, but the returned document has no block selected and "A"
    still selected, where the specification has the new block's id as the
    only selected block and no animation selected. *)
Theorem addBlock_selection_lost :
  exists s' h',
    @reducer sampleCollaborators selectedAnimationState
       (AddBlock layerL "P" VUndefined VUndefined) gapStore = (Some (Changed s'), h') /\
    bid (addedBlock gapStore h') = "11" /\
    map blocks (animations (timeline s')) = [[0; 1]] /\
    selectedBlockIds (timeline s') = [] /\
    selectedAnimationIds (timeline s') = ["A"].
Proof.
  do 2 eexists. split; [vm_compute; reflexivity |].
  split; [reflexivity |]. split; [reflexivity |]. split; reflexivity.
Qed.

(** ** The properties at concrete documents *)

(** Against C7 as the specification words it: a promotion on the opposite
    endpoint outlives [UpdatePathBlock].  The block's end value has three
    commands, one of them promoted, and the edited start path has four, so
    the conversion loop skips the subpath: the opposite path enters count
    equalization with its promotion, and is written back with it. *)
Lemma opposite_promotion_survives :
  unconverted promotedPath = false /\
  unconverted (deleteCollapsingSubPaths promotedPath) = false /\
  exists o h',
    @reducer sampleCollaborators morphState (UpdatePathBlock "b0" Start editedPath) morphStore
      = (Some o, h') /\
    fromValue (deref h' 0) = VPath editedPath /\
    toValue (deref h' 0) = VPath promotedPath.
Proof.
  split; [reflexivity |]. split; [reflexivity |].
  do 2 eexists. split; [vm_compute; reflexivity |]. split; reflexivity.
Qed.

(** Against C10 as the specification words it: with two blocks of the
    pair that overlap, [0,500) and [100,200), the block that [ADD_BLOCK]
    places is [200,300); it lies in the chosen gap and overlaps the block
    [0,500). *)
Lemma addBlock_overlaps_existing :
  exists s' h',
    addBlock overlapState layerL "P" VUndefined VUndefined overlapStore
      = (Some (Changed s'), h') /\
    startTime (addedBlock overlapStore h') = 200%Z /\
    endTime (addedBlock overlapStore h') = 300%Z /\
    In (blockLP "b0" 0 500)
       (blockNeighborsOf overlapStore {| aid := "A"; duration := 1000; blocks := [0; 1] |}
                         "L" "P") /\
    overlaps (addedBlock overlapStore h') (blockLP "b0" 0 500) = true.
Proof.
  do 2 eexists. split; [vm_compute; reflexivity |].
  split; [reflexivity |]. split; [reflexivity |]. split; [left; reflexivity | reflexivity].
Qed.

Lemma firstAnimationSelected_reachable :
  @reachable sampleCollaborators firstAnimationSelected.
Proof.
  apply (@reachable_step sampleCollaborators initialStore initialStore
           twoAnimations firstAnimationSelected (SelectAnimation "2" true));
    [| reflexivity].
  apply (@reachable_step sampleCollaborators initialStore initialStore
           initialDocument twoAnimations (AddAnimations [animationB]));
    [| reflexivity].
  apply (@reachable_initial sampleCollaborators emptyStore initialStore initialDocument).
  reflexivity.
Defined.

Lemma selection_exclusivity_witness :
  @reachable sampleCollaborators firstAnimationSelected /\
  selectionCount firstAnimationSelected <= 1.
Proof.
  split; [exact firstAnimationSelected_reachable |].
  exact (@selection_exclusivity sampleCollaborators firstAnimationSelected
           firstAnimationSelected_reachable).
Defined.


Lemma updatePathBlock_commits_both_witness :
  atFoundIndex (fun a => String.eqb (aid a) (activeAnimationId (timeline morphState)))
               (animations (timeline morphState))
    = Some {| aid := "A"; duration := 1000; blocks := [0] |} /\
  atFoundIndex (fun b => String.eqb (bid (deref morphStore b)) "b0") [0] = Some 0 /\
  0 < length (objects morphStore) /\
  exists s' h',
    @updatePathAnimationBlock sampleCollaborators morphState "b0" Start editedPath morphStore
      = (Some (Changed s'), h') /\
    timeline s' = timeline morphState /\
    getBlockPath (deref h' 0) Start = VPath editedPath /\
    getBlockPath (deref h' 0) End = VPath promotedPath.
Proof.
  pose proof (@updatePathBlock_commits_both sampleCollaborators morphState "b0" Start
                editedPath morphStore {| aid := "A"; duration := 1000; blocks := [0] |} 0
                eq_refl eq_refl (Nat.lt_0_succ 0)) as [H _].
  cbv zeta in H.
  change (reconcile (normalizePath editedPath)
                    (getBlockPath (deref morphStore 0) (oppositeOf Start)))
    with (Some (VPath editedPath, VPath promotedPath)) in H.
  destruct H as (s' & h' & E & Ht & _ & _ & Hs & Ho & _).
  split; [reflexivity |]. split; [reflexivity |]. split; [exact (Nat.lt_0_succ 0) |].
  exists s', h'. auto.
Defined.

Lemma gapFinder_example_witness :
  exists s' h',
    addBlock gapState layerL "P" VUndefined VUndefined gapStore = (Some (Changed s'), h') /\
    startTime (addedBlock gapStore h') = 300%Z /\
    endTime (addedBlock gapStore h') = 400%Z.
Proof.
  destruct (gapFinder_example gapState layerL "P" VUndefined VUndefined gapStore
              {| aid := "A"; duration := 1000; blocks := [0] |} 0
              eq_refl eq_refl eq_refl eq_refl eq_refl eq_refl eq_refl)
    as (_ & _ & _ & s' & h' & E & Hs & He & _).
  exists s', h'. auto.
Defined.

Lemma compatibilize_pads_shorter_witness :
  CollaboratorLaws sampleCollaborators /\
  exists path' oppPath',
    @compatibilize sampleCollaborators editedPath twoSquares = Some (path', oppPath') /\
    commandCounts path' = [4; 4] /\
    commandCounts oppPath' = [4; 4].
Proof.
  split; [exact sampleLaws |].
  destruct (@compatibilize_pads_shorter sampleCollaborators sampleLaws editedPath twoSquares)
    as (_ & _ & p' & o' & E & _ & _ & _ & _ & Hex & _).
  exists p', o'. split; [exact E |]. apply Hex; reflexivity.
Defined.

Lemma normalization_scope_witness :
  @autoConvertStep sampleCollaborators (Some (editedPath, promotedPath)) 0
  = Some (editedPath, promotedPath).
Proof.
  destruct (@normalization_scope sampleCollaborators editedPath promotedPath)
    as (_ & _ & _ & _ & _ & _ & Hstep).
  destruct (Hstep editedPath promotedPath 0 _ _ eq_refl eq_refl) as (_ & _ & E).
  exact E.
Defined.

Lemma addBlock_placement_witness :
  safeTimes gapStore gapState = true /\
  addBlock gapState layerL "P" VUndefined VUndefined gapStore
    = (Some (Changed gapStateAfter), gapStoreAfter) /\
  startTime (addedBlock gapStore gapStoreAfter) = 300%Z /\
  (endTime (addedBlock gapStore gapStoreAfter)
   - startTime (addedBlock gapStore gapStoreAfter) = 100)%Z /\
  (forall n,
     In n (blockNeighborsOf gapStore {| aid := "A"; duration := 1000; blocks := [0] |} "L" "P") ->
     overlaps (addedBlock gapStore gapStoreAfter) n = false).
Proof.
  assert (Hsafe : safeTimes gapStore gapState = true) by reflexivity.
  assert (E : addBlock gapState layerL "P" VUndefined VUndefined gapStore
              = (Some (Changed gapStateAfter), gapStoreAfter)) by reflexivity.
  split; [exact Hsafe |]. split; [exact E |].
  destruct (addBlock_placement _ _ _ _ _ _ _ _ Hsafe E)
    as (animation & gap & F & Fg & _ & _ & Hleft & Hd & _ & Hord).
  assert (Ea : animation = {| aid := "A"; duration := 1000; blocks := [0] |}).
  { cbn in F. inversion F. reflexivity. }
  subst animation.
  assert (Eg : gap = mkGap 300 1000).
  { vm_compute in Fg. inversion Fg. reflexivity. }
  subst gap.
  split; [apply Hleft; vm_compute; discriminate |].
  split; [exact Hd |].
  apply Hord. reflexivity.
Defined.

(** ** Action-mode selections *)

Section ToggleSelections.

Context {A : Type} `{EqDecision A}.

Lemma isEqual_true (a b : A) : isEqual a b = true <-> a = b.
Proof. unfold isEqual. apply bool_decide_eq_true. Qed.

Lemma isEqual_refl (a : A) : isEqual a a = true.
Proof. apply isEqual_true. reflexivity. Qed.

(** Membership among the new selections, as both [_.remove] predicates
    test it. *)
Lemma isNew_In (newSelections : list A) (c : A) :
  existsb (fun newSel => isEqual newSel c) newSelections = true <-> In c newSelections.
Proof.
  rewrite existsb_exists. split.
  - intros (n & Hn & E). apply isEqual_true in E. subst. exact Hn.
  - intros Hc. exists c. split; [exact Hc | apply isEqual_refl].
Qed.

Lemma notNew_In (newSelections : list A) (c : A) :
  forallb (fun newSel => negb (isEqual c newSel)) newSelections = false <-> In c newSelections.
Proof.
  rewrite <- not_true_iff_false, forallb_forall. split.
  - intros Hn. destruct (in_dec (fun x y => decide (x = y)) c newSelections) as [Hin | Hout];
      [exact Hin |].
    exfalso. apply Hn. intros n Hin. apply negb_true_iff.
    destruct (isEqual c n) eqn:E; [| reflexivity].
    apply isEqual_true in E. subst. contradiction.
  - intros Hin Hall. specialize (Hall c Hin). rewrite isEqual_refl in Hall. discriminate.
Qed.

Lemma filter_all {B} (f : B -> bool) (l : list B) :
  (forall x, In x l -> f x = true) -> List.filter f l = l.
Proof.
  induction l as [| x l IH]; cbn; intros Hall; [reflexivity |].
  rewrite (Hall x (or_introl eq_refl)). f_equal. apply IH. intros y Hy. apply Hall. right. exact Hy.
Qed.

Lemma filter_none {B} (f : B -> bool) (l : list B) :
  (forall x, In x l -> f x = false) -> List.filter f l = [].
Proof.
  induction l as [| x l IH]; cbn; intros Hall; [reflexivity |].
  rewrite (Hall x (or_introl eq_refl)). apply IH. intros y Hy. apply Hall. right. exact Hy.
Qed.

Lemma filter_length_zero {B} (f : B -> bool) (l : list B) :
  Nat.eqb (length (List.filter f l)) 0 = negb (existsb f l).
Proof.
  induction l as [| x l IH]; cbn; [reflexivity |].
  destruct (f x); cbn; [reflexivity | exact IH].
Qed.

(** The array after the first [_.remove] and the [push]. *)
Lemma toggleSelections_append (current new : list A) :
  toggleSelections current new true =
  if existsb (fun c => existsb (fun n => isEqual n c) new) current
  then List.filter (fun c => negb (existsb (fun n => isEqual n c) new)) current
  else current ++ new.
Proof.
  unfold toggleSelections. cbn [negb]. rewrite filter_length_zero.
  destruct (existsb _ current) eqn:E; cbn [negb]; [reflexivity |].
  f_equal. apply filter_all. intros c Hc.
  apply negb_true_iff. apply not_true_iff_false. intros Hn.
  apply not_true_iff_false in E. apply E. apply existsb_exists. eauto.
Qed.

(** Without [appendToList]: the second [_.remove] leaves the new
    selections, or nothing. *)
Lemma toggleSelections_replace_eq (current new : list A) :
  toggleSelections current new false =
  if existsb (fun c => existsb (fun n => isEqual n c) new) current then [] else new.
Proof.
  pose proof (toggleSelections_append current new) as Ha.
  unfold toggleSelections in *. cbn [negb] in *. rewrite Ha. clear Ha.
  destruct (existsb _ current) eqn:E.
  - apply filter_none. intros c Hc. apply filter_In in Hc. destruct Hc as [_ Hn].
    apply negb_false_iff. apply not_false_iff_true. intros Hf.
    apply notNew_In in Hf. apply isNew_In in Hf. rewrite Hf in Hn. discriminate.
  - rewrite List.filter_app. rewrite (filter_none _ current), (filter_all _ new); [reflexivity | |].
    + intros n Hn. apply negb_true_iff. apply notNew_In. exact Hn.
    + intros c Hc. apply negb_false_iff. apply not_false_iff_true. intros Hf.
      apply notNew_In in Hf. apply isNew_In in Hf.
      apply not_true_iff_false in E. apply E. apply existsb_exists. eauto.
Qed.

Lemma anySelected_In (current new : list A) :
  existsb (fun c => existsb (fun n => isEqual n c) new) current = true
  <-> exists c, In c current /\ In c new.
Proof.
  rewrite existsb_exists. split; intros (c & Hc & Hn); exists c; (split; [exact Hc |]);
    apply isNew_In; exact Hn.
Qed.

(** X1: without [appendToList], toggling returns exactly the new
    selections when none of them was selected, and the empty list when one
    of them was: whatever else was selected is dropped either way. *)
Theorem toggleSelections_replace (current new : list A) :
  ((exists c, In c current /\ In c new) -> toggleSelections current new false = []) /\
  ((forall c, In c current -> ~ In c new) -> toggleSelections current new false = new).
Proof.
  rewrite toggleSelections_replace_eq. split.
  - intros Hex. apply anySelected_In in Hex. rewrite Hex. reflexivity.
  - intros Hnone. destruct (existsb _ current) eqn:E; [| reflexivity].
    apply anySelected_In in E. destruct E as (c & Hc & Hn). destruct (Hnone c Hc Hn).
Qed.

(** X2: with [appendToList], toggling one selection that is not in the
    list appends it and leaves the others in place; toggling it again
    takes it out: the list is back as it was. *)
Theorem toggleSelections_append_twice (current : list A) (sel : A) :
  ~ In sel current ->
  toggleSelections current [sel] true = current ++ [sel] /\
  toggleSelections (toggleSelections current [sel] true) [sel] true = current.
Proof.
  intros Hout.
  assert (Hnone : forall c, In c current ->
            existsb (fun n => isEqual n c) [sel] = false).
  { intros c Hc. apply not_true_iff_false. intros Hn. apply isNew_In in Hn.
    destruct Hn as [<- | []]. contradiction. }
  assert (E1 : toggleSelections current [sel] true = current ++ [sel]).
  { rewrite toggleSelections_append.
    replace (existsb _ current) with false; [reflexivity |].
    symmetry. apply not_true_iff_false. intros Hn. apply existsb_exists in Hn.
    destruct Hn as (c & Hc & Hn). rewrite (Hnone c Hc) in Hn. discriminate. }
  split; [exact E1 |].
  rewrite E1, toggleSelections_append.
  replace (existsb _ (current ++ [sel])) with true.
  - rewrite List.filter_app.
    rewrite (filter_all _ current), (filter_none _ [sel]); [apply app_nil_r | |].
    + intros c [<- | []]. apply negb_false_iff. apply isNew_In. left. reflexivity.
    + intros c Hc. rewrite (Hnone c Hc). reflexivity.
  - symmetry. rewrite existsb_app. cbn. rewrite isEqual_refl. cbn.
    apply orb_true_r.
Qed.

(** X3: toggling never brings in a selection that was neither selected
    nor among the new ones, and with [appendToList] it never drops a
    selected one that is not among the new ones. *)
Theorem toggleSelections_members (current new : list A) (appendToList : bool) (x : A) :
  (In x (toggleSelections current new appendToList) -> In x current \/ In x new) /\
  (appendToList = true -> In x current -> ~ In x new ->
   In x (toggleSelections current new appendToList)).
Proof.
  assert (Happ : In x (toggleSelections current new true) -> In x current \/ In x new).
  { rewrite toggleSelections_append. destruct (existsb _ current).
    - intros Hx. apply filter_In in Hx. left. apply Hx.
    - intros Hx. apply in_app_or in Hx. exact Hx. }
  split.
  - destruct appendToList; [exact Happ |].
    intros Hx. apply Happ. unfold toggleSelections in Hx |- *. cbn [negb] in Hx |- *.
    apply filter_In in Hx. apply Hx.
  - intros -> Hc Hn. rewrite toggleSelections_append. destruct (existsb _ current).
    + apply filter_In. split; [exact Hc |]. apply negb_true_iff.
      apply not_true_iff_false. intros Hx. apply isNew_In in Hx. contradiction.
    + apply in_or_app. left. exact Hc.
Qed.

(** Whatever the flag, what comes out was selected or is new. *)
Lemma toggleSelections_append_or (current new : list A) (appendToList : bool) (x : A) :
  In x (toggleSelections current new appendToList) -> In x current \/ In x new.
Proof.
  assert (Happ : In x (toggleSelections current new true) -> In x current \/ In x new).
  { rewrite toggleSelections_append. destruct (existsb _ current).
    - intros Hx. apply filter_In in Hx. left. apply Hx.
    - intros Hx. apply in_app_or in Hx. exact Hx. }
  destruct appendToList; [exact Happ |].
  intros Hx. apply Happ. unfold toggleSelections in Hx |- *. cbn [negb] in Hx |- *.
  apply filter_In in Hx. apply Hx.
Qed.

End ToggleSelections.

(** ** The action-mode service *)

Lemma keepTypeAndSource_In type_ source_ selections s :
  In s (keepTypeAndSource type_ source_ selections)
  <-> In s selections /\ Selection.type s = type_ /\ Selection.source s = source_.
Proof.
  unfold keepTypeAndSource. rewrite filter_In.
  rewrite negb_orb, !negb_involutive, andb_true_iff, !isEqual_true. reflexivity.
Qed.

(** X4: [toggleSubPathSelection] dispatches the clicked subpath alone when
    it was not selected, and the empty list when it was; any other
    selection, of whatever type or canvas, is dropped.  The clicked
    selection has no [cmdIdx] key: a stored subpath selection whose
    [cmdIdx] is there and [undefined] is another selection, and does not
    count as the clicked one. *)
Theorem toggleSubPathSelection_single (selections : list Selection.t)
    (source_ : ActionSource.t) (subIdx_ : nat) :
  let clicked := {| Selection.type := SelectionType.SubPath; Selection.source := source_;
                    Selection.subIdx := subIdx_; Selection.cmdIdx := KeyMissing |} in
  (In clicked selections -> toggleSubPathSelection selections source_ subIdx_ = []) /\
  (~ In clicked selections -> toggleSubPathSelection selections source_ subIdx_ = [clicked]).
Proof.
  intros clicked. unfold toggleSubPathSelection. fold clicked.
  rewrite toggleSelections_replace_eq. split.
  - intros Hin. replace (existsb _ _) with true; [reflexivity |].
    symmetry. apply anySelected_In. exists clicked. split; [| left; reflexivity].
    apply keepTypeAndSource_In. auto.
  - intros Hout. destruct (existsb _ _) eqn:E; [| reflexivity].
    apply anySelected_In in E. destruct E as (c & Hc & [<- | []]).
    apply keepTypeAndSource_In in Hc. destruct Hout. apply Hc.
Qed.

(** X5: [togglePointSelection] dispatches point selections of the clicked
    canvas only; the clicked point is in the list exactly when it was not
    selected before; and with shift or meta pressed every other point of
    that canvas that was selected stays selected. *)
Theorem togglePointSelection_points (selections : list Selection.t)
    (source_ : ActionSource.t) (subIdx_ cmdIdx_ : nat) (isShiftOrMetaPressed : bool) :
  let clicked := {| Selection.type := SelectionType.Point; Selection.source := source_;
                    Selection.subIdx := subIdx_; Selection.cmdIdx := KeyValue cmdIdx_ |} in
  let result := togglePointSelection selections source_ subIdx_ cmdIdx_ isShiftOrMetaPressed in
  (forall s, In s result ->
     Selection.type s = SelectionType.Point /\ Selection.source s = source_) /\
  (In clicked result <-> ~ In clicked selections) /\
  (isShiftOrMetaPressed = true ->
   forall s, In s selections -> Selection.type s = SelectionType.Point ->
             Selection.source s = source_ -> s <> clicked -> In s result).
Proof.
  intros clicked result.
  set (kept := keepTypeAndSource SelectionType.Point source_ selections).
  assert (Hk : In clicked kept <-> In clicked selections).
  { unfold kept. rewrite keepTypeAndSource_In. intuition. }
  assert (Hany : existsb (fun c => existsb (fun n => isEqual n c) [clicked]) kept = true
                 <-> In clicked selections).
  { rewrite anySelected_In, <- Hk. split.
    - intros (c & Hc & [<- | []]). exact Hc.
    - intros Hc. exists clicked. split; [exact Hc | left; reflexivity]. }
  assert (Hres : result = toggleSelections kept [clicked] isShiftOrMetaPressed) by reflexivity.
  split; [| split].
  - intros s Hs. rewrite Hres in Hs.
    apply (toggleSelections_append_or kept [clicked] isShiftOrMetaPressed) in Hs.
    destruct Hs as [Hs | [<- | []]]; [| split; reflexivity].
    apply keepTypeAndSource_In in Hs. apply Hs.
  - rewrite Hres. destruct isShiftOrMetaPressed.
    + rewrite toggleSelections_append.
      destruct (existsb _ kept) eqn:E.
      * rewrite filter_In. split.
        -- intros [_ Hn]. apply negb_true_iff in Hn.
           assert (Ht : existsb (fun n => isEqual n clicked) [clicked] = true)
             by (apply isNew_In; left; reflexivity).
           rewrite Ht in Hn. discriminate.
        -- intros Hout. destruct Hout. apply Hany. reflexivity.
      * split.
        -- intros _ Hin. apply Hany in Hin. congruence.
        -- intros _. apply in_or_app. right. left. reflexivity.
    + rewrite toggleSelections_replace_eq.
      destruct (existsb _ kept) eqn:E.
      * split; [intros [] |]. intros Hout. destruct Hout. apply Hany. reflexivity.
      * split.
        -- intros _ Hin. apply Hany in Hin. congruence.
        -- intros _. left. reflexivity.
  - intros -> s Hs Ht Hsrc Hne. rewrite Hres, toggleSelections_append.
    assert (Hsk : In s kept) by (apply keepTypeAndSource_In; auto).
    destruct (existsb _ kept).
    + apply filter_In. split; [exact Hsk |]. apply negb_true_iff.
      apply not_true_iff_false. intros Hn. apply isNew_In in Hn.
      destruct Hn as [E | []]. congruence.
    + apply in_or_app. left. exact Hsk.
Qed.

(** X6: [toggleActionMode] dispatches nothing outside action mode;
    inside it dispatches [Selection] when the toggled mode is the current
    one and the toggled mode otherwise; so toggling a mode from
    [Selection] and toggling it again, once the store holds the dispatched
    mode, is back at [Selection]. *)
Theorem toggleActionMode_toggles (currentMode modeToToggle : ActionMode.t) :
  toggleActionMode ActionMode.None modeToToggle = None /\
  (currentMode <> ActionMode.None ->
   toggleActionMode currentMode modeToToggle
   = Some (if decide (currentMode = modeToToggle) then ActionMode.Selection
           else modeToToggle)) /\
  (modeToToggle <> ActionMode.None ->
   exists dispatched,
     toggleActionMode ActionMode.Selection modeToToggle = Some dispatched /\
     toggleActionMode dispatched modeToToggle = Some ActionMode.Selection).
Proof.
  split; [reflexivity |]. split.
  - intros Hm. destruct currentMode, modeToToggle; try reflexivity; congruence.
  - intros Hm. destruct modeToToggle; try congruence; eexists; split; reflexivity.
Qed.

(** ** Sets of ids *)

Lemma JSSet_add_In (x y : string) (s : JSSet.t) :
  In y (JSSet.add x s) <-> y = x \/ In y s.
Proof.
  unfold JSSet.add. destruct (JSSet.has s x) eqn:E.
  - apply has_In in E. split; [auto |]. intros [-> | Hy]; assumption.
  - rewrite in_app_iff. cbn. intuition.
Qed.

Lemma JSSet_delete_In (x y : string) (s : JSSet.t) :
  In y (JSSet.delete x s) <-> In y s /\ y <> x.
Proof.
  unfold JSSet.delete. rewrite filter_In, negb_true_iff, String.eqb_neq. reflexivity.
Qed.

Lemma JSSet_isEqual_refl (s : JSSet.t) : JSSet.isEqual s s = true.
Proof.
  unfold JSSet.isEqual. rewrite Nat.eqb_refl. cbn.
  apply forallb_forall. intros x Hx. apply has_In, Hx.
Qed.

Lemma clearIfNonEmpty_nil (s : JSSet.t) : clearIfNonEmpty s = [].
Proof. unfold clearIfNonEmpty. destruct s; reflexivity. Qed.

Lemma foldl_add_In (x : string) (ids : list string) (acc : JSSet.t) :
  In x (foldl (fun acc id => JSSet.add id acc) acc ids) <-> In x acc \/ In x ids.
Proof.
  revert acc. induction ids as [| y ids IH]; intros acc; cbn; [intuition |].
  rewrite IH, JSSet_add_In. intuition.
Qed.

Lemma foldl_delete_In (x : string) (ids : list string) (acc : JSSet.t) :
  In x (foldl (fun acc id => JSSet.delete id acc) acc ids) <-> In x acc /\ ~ In x ids.
Proof.
  revert acc. induction ids as [| y ids IH]; intros acc; cbn; [intuition |].
  rewrite IH, JSSet_delete_In. intuition.
Qed.

Lemma deleteAllBut_fold (layerId_ x : string) (l : list string) (acc : JSSet.t) :
  In x (foldl (fun acc id => if negb (String.eqb id layerId_) then JSSet.delete id acc else acc)
              acc l)
  <-> In x acc /\ (x = layerId_ \/ ~ In x l).
Proof.
  revert acc. induction l as [| y l IH]; intros acc; cbn [foldl]; [cbn; intuition |].
  rewrite IH. destruct (String.eqb_spec y layerId_) as [-> | Hne]; cbn [negb].
  - cbn. destruct (String.eqb_spec x layerId_) as [-> | Hx]; intuition.
  - rewrite JSSet_delete_In. cbn.
    destruct (String.eqb_spec x layerId_) as [-> | Hx]; [intuition congruence |].
    intuition.
Qed.

Lemma deleteAllBut_In (layerId_ x : string) (s : JSSet.t) :
  In x (deleteAllBut layerId_ s) <-> In x s /\ x = layerId_.
Proof. unfold deleteAllBut. rewrite deleteAllBut_fold. intuition. Qed.

(** ** Selecting blocks and layers *)

(** X7: after [selectBlockId] the block is selected; with
    [clearExisting] it is the only one, without it every block selected
    before still is; when a new state is made the animation and layer
    selections are empty; and selecting the same block again returns the
    state it is given. *)
Theorem selectBlockId_selects (state : State) (blockId : string) (clearExisting : bool) :
  let o := selectBlockId state blockId clearExisting in
  let s1 := resultOf state o in
  In blockId (selectedBlockIds (timeline s1)) /\
  (clearExisting = true -> selectedBlockIds (timeline s1) = [blockId]) /\
  (clearExisting = false ->
   forall x, In x (selectedBlockIds (timeline state)) -> In x (selectedBlockIds (timeline s1))) /\
  (sameReference o = false ->
   selectedAnimationIds (timeline s1) = [] /\ selectedLayerIds (layers s1) = []) /\
  selectBlockId s1 blockId clearExisting = Unchanged.
Proof.
  intros o s1. subst s1 o.
  set (old := selectedBlockIds (timeline state)).
  set (new := JSSet.add blockId (if clearExisting then JSSet.empty else JSSet.copy old)).
  assert (Heq : selectBlockId state blockId clearExisting =
                if JSSet.isEqual old new then Unchanged
                else Changed
                  {| layers := withSelectedLayerIds (layers state)
                                 (clearIfNonEmpty (selectedLayerIds (layers state)));
                     timeline := {| animations := animations (timeline state);
                                    selectedAnimationIds :=
                                      clearIfNonEmpty (selectedAnimationIds (timeline state));
                                    activeAnimationId := activeAnimationId (timeline state);
                                    selectedBlockIds := new |};
                     topAnimations := topAnimations state |}) by reflexivity.
  destruct (JSSet.isEqual old new) eqn:E; rewrite Heq;
    cbn [resultOf sameReference timeline layers
         selectedBlockIds selectedAnimationIds selectedLayerIds withSelectedLayerIds].
  - fold old.
    assert (Hold : In blockId old /\ (clearExisting = true -> old = [blockId])).
    { unfold JSSet.isEqual in E. apply andb_prop in E. destruct E as [El Ea].
      apply Nat.eqb_eq in El. unfold new, JSSet.size in *.
      destruct clearExisting.
      - cbn in El, Ea. destruct old as [| x [| y l]]; try discriminate.
        cbn in Ea. rewrite orb_false_r, andb_true_r in Ea. apply String.eqb_eq in Ea.
        subst. split; [left; reflexivity | reflexivity].
      - unfold JSSet.add, JSSet.copy in El. destruct (JSSet.has old blockId) eqn:Eh.
        + split; [apply has_In, Eh | discriminate].
        + rewrite length_app in El. cbn in El. lia. }
    split; [apply Hold |]. split; [apply Hold |]. split; [auto |].
    split; [discriminate |]. exact Heq.
  - split; [unfold new; apply JSSet_add_In; left; reflexivity |].
    split; [intros ->; reflexivity |].
    split; [intros -> x Hx; unfold new; apply JSSet_add_In; right; exact Hx |].
    split; [intros _; rewrite !clearIfNonEmpty_nil; split; reflexivity |].
    unfold selectBlockId.
    cbn [timeline selectedBlockIds].
    replace (JSSet.add blockId (if clearExisting then JSSet.empty else JSSet.copy new))
      with new.
    + rewrite JSSet_isEqual_refl. reflexivity.
    + unfold new at 1. destruct clearExisting; [reflexivity |].
      unfold JSSet.copy, JSSet.add at 2.
      replace (JSSet.has new blockId) with true; [reflexivity |].
      symmetry. apply has_In. unfold new. apply JSSet_add_In. left. reflexivity.
Qed.

(** [selectLayerId] with the parent vector layer at hand. *)
Lemma selectLayerId_run (state : State) (layerId_ : string) (shouldToggle clearExisting : bool)
    (h : Store) (parentVl : Layer) :
  findParentVectorLayer (vectorLayers (layers state)) layerId_ = Some parentVl ->
  let selected1 :=
    if clearExisting then deleteAllBut layerId_ (selectedLayerIds (layers state))
    else selectedLayerIds (layers state) in
  let eligible :=
    clearExisting || String.eqb (activeVectorLayerId (layers state)) (lid parentVl) in
  selectLayerId state layerId_ shouldToggle clearExisting h =
  (Some (Changed
     {| layers := {| vectorLayers := vectorLayers (layers state);
                     activeVectorLayerId :=
                       if eligible then lid parentVl else activeVectorLayerId (layers state);
                     selectedLayerIds :=
                       if eligible then
                         if shouldToggle && JSSet.has selected1 layerId_
                         then JSSet.delete layerId_ selected1
                         else JSSet.add layerId_ selected1
                       else selected1;
                     collapsedLayerIds := collapsedLayerIds (layers state);
                     hiddenLayerIds := hiddenLayerIds (layers state) |};
        timeline := {| animations := animations (timeline state);
                       selectedAnimationIds :=
                         clearIfNonEmpty (selectedAnimationIds (timeline state));
                       activeAnimationId := activeAnimationId (timeline state);
                       selectedBlockIds := clearIfNonEmpty (selectedBlockIds (timeline state)) |};
        topAnimations := topAnimations state |}), h).
Proof.
  intros F selected1 eligible. unfold selectLayerId, bind. rewrite F. cbn [defined ret].
  fold selected1. unfold JSSet.copy. fold selected1. fold eligible.
  destruct eligible; reflexivity.
Qed.

(** X8: [SelectLayer] throws, the store untouched, exactly when no vector
    layer tree holds the layer id; otherwise it returns a new state in
    which no animation and no block is selected and the animations, the
    layer trees and the collapsed and hidden sets are those of the
    input. *)
Theorem selectLayerId_unknown_layer (state : State) (layerId_ : string)
    (shouldToggle clearExisting : bool) (h : Store) :
  (findParentVectorLayer (vectorLayers (layers state)) layerId_ = None ->
   selectLayerId state layerId_ shouldToggle clearExisting h = (None, h)) /\
  (forall parentVl,
     findParentVectorLayer (vectorLayers (layers state)) layerId_ = Some parentVl ->
     exists s',
       selectLayerId state layerId_ shouldToggle clearExisting h = (Some (Changed s'), h) /\
       selectedAnimationIds (timeline s') = [] /\
       selectedBlockIds (timeline s') = [] /\
       animations (timeline s') = animations (timeline state) /\
       activeAnimationId (timeline s') = activeAnimationId (timeline state) /\
       vectorLayers (layers s') = vectorLayers (layers state) /\
       collapsedLayerIds (layers s') = collapsedLayerIds (layers state) /\
       hiddenLayerIds (layers s') = hiddenLayerIds (layers state)).
Proof.
  split.
  - intros F. unfold selectLayerId, bind. rewrite F. reflexivity.
  - intros parentVl F. eexists. split; [apply (selectLayerId_run _ _ _ _ _ _ F) |].
    cbn. rewrite !clearIfNonEmpty_nil. repeat split.
Qed.

(** X9: what [SelectLayer] does to the layer selection.  A layer of a
    vector layer other than the active one, selected without
    [clearExisting], changes neither the selection nor the active vector
    layer.  Otherwise the layer's vector layer becomes the active one; the
    layer is selected afterwards unless it was selected and [shouldToggle]
    is set; and every other layer is selected afterwards exactly when it
    was selected and [clearExisting] is not set. *)
Theorem selectLayerId_selection (state : State) (layerId_ : string)
    (shouldToggle clearExisting : bool) (h : Store) (parentVl : Layer) (s' : State) :
  findParentVectorLayer (vectorLayers (layers state)) layerId_ = Some parentVl ->
  selectLayerId state layerId_ shouldToggle clearExisting h = (Some (Changed s'), h) ->
  let old := selectedLayerIds (layers state) in
  let new := selectedLayerIds (layers s') in
  (clearExisting = false -> activeVectorLayerId (layers state) <> lid parentVl ->
   new = old /\ activeVectorLayerId (layers s') = activeVectorLayerId (layers state)) /\
  (clearExisting = true \/ activeVectorLayerId (layers state) = lid parentVl ->
   activeVectorLayerId (layers s') = lid parentVl /\
   (In layerId_ new <-> ~ (shouldToggle = true /\ In layerId_ old)) /\
   (forall x, x <> layerId_ -> (In x new <-> clearExisting = false /\ In x old))).
Proof.
  intros F E old new. rewrite (selectLayerId_run _ _ _ _ _ _ F) in E.
  inversion E as [Es]. clear E. subst s'. subst new.
  cbn [layers selectedLayerIds activeVectorLayerId]. fold old.
  set (selected1 := if clearExisting then deleteAllBut layerId_ old else old).
  assert (H1 : forall x, In x selected1 <-> In x old /\ (clearExisting = false \/ x = layerId_)).
  { intros x. unfold selected1. destruct clearExisting.
    - rewrite deleteAllBut_In. intuition congruence.
    - intuition. }
  split.
  - intros -> Hne. apply String.eqb_neq in Hne. rewrite Hne. cbn. auto.
  - intros Hel.
    assert (El : clearExisting || String.eqb (activeVectorLayerId (layers state)) (lid parentVl)
                 = true).
    { destruct Hel as [-> | ->]; [reflexivity |]. rewrite String.eqb_refl. apply orb_true_r. }
    rewrite El. split; [reflexivity |].
    destruct (shouldToggle && JSSet.has selected1 layerId_) eqn:Et.
    + apply andb_prop in Et. destruct Et as [-> Hh]. apply has_In, H1 in Hh.
      split.
      * rewrite JSSet_delete_In. intuition.
      * intros x Hx. rewrite JSSet_delete_In, H1. intuition congruence.
    + split.
      * rewrite JSSet_add_In. split; [| auto]. intros _ [-> Hin].
        cbn in Et. apply not_true_iff_false in Et. apply Et. apply has_In, H1. auto.
      * intros x Hx. rewrite JSSet_add_In, H1. intuition congruence.
Qed.

(** ** Collapsed and hidden layers *)

(** X10: [ToggleLayerVisibility] flips the membership of the layer id in
    the hidden set and of no other id, and changes nothing else of the
    document nor the store; so doing it twice leaves every id hidden or
    shown as it was. *)
Theorem toggleLayerVisibility_flips {G : Collaborators} (state : State) (layerId_ : string)
    (h : Store) :
  exists s1 s2,
    reducer state (ToggleLayerVisibility layerId_) h = (Some (Changed s1), h) /\
    reducer s1 (ToggleLayerVisibility layerId_) h = (Some (Changed s2), h) /\
    (In layerId_ (hiddenLayerIds (layers s1)) <-> ~ In layerId_ (hiddenLayerIds (layers state))) /\
    (forall x, x <> layerId_ ->
       (In x (hiddenLayerIds (layers s1)) <-> In x (hiddenLayerIds (layers state)))) /\
    (forall x, In x (hiddenLayerIds (layers s2)) <-> In x (hiddenLayerIds (layers state))) /\
    withHiddenLayerIds (layers s1) [] = withHiddenLayerIds (layers state) [] /\
    timeline s1 = timeline state.
Proof.
  assert (Hflip : forall hidden : JSSet.t,
            let hidden1 := if JSSet.has (JSSet.copy hidden) layerId_
                           then JSSet.delete layerId_ (JSSet.copy hidden)
                           else JSSet.add layerId_ (JSSet.copy hidden) in
            (In layerId_ hidden1 <-> ~ In layerId_ hidden) /\
            (forall x, x <> layerId_ -> (In x hidden1 <-> In x hidden))).
  { intros hidden. unfold JSSet.copy. cbn zeta. destruct (JSSet.has hidden layerId_) eqn:Eh.
    - apply has_In in Eh. split.
      + rewrite JSSet_delete_In. intuition.
      + intros x Hx. rewrite JSSet_delete_In. intuition.
    - assert (Hn : ~ In layerId_ hidden)
        by (intros Hin; apply has_In in Hin; congruence).
      split.
      + rewrite JSSet_add_In. intuition.
      + intros x Hx. rewrite JSSet_add_In. intuition. }
  do 2 eexists. split; [reflexivity |]. split; [reflexivity |].
  cbn [layers hiddenLayerIds withLayers withHiddenLayerIds timeline].
  destruct (Hflip (hiddenLayerIds (layers state))) as [Hid Hother].
  cbn zeta in Hid, Hother.
  set (hidden1 := if JSSet.has (JSSet.copy (hiddenLayerIds (layers state))) layerId_
                  then JSSet.delete layerId_ (JSSet.copy (hiddenLayerIds (layers state)))
                  else JSSet.add layerId_ (JSSet.copy (hiddenLayerIds (layers state)))) in *.
  destruct (Hflip hidden1) as [Hid2 Hother2]. cbn zeta in Hid2, Hother2.
  split; [exact Hid |]. split; [exact Hother |].
  split; [| split; reflexivity].
  intros x. destruct (String.eqb_spec x layerId_) as [-> | Hx].
  - rewrite Hid2, Hid.
    destruct (in_dec String.string_dec layerId_ (hiddenLayerIds (layers state))); intuition.
  - rewrite Hother2, Hother by exact Hx. reflexivity.
Qed.

Lemma idsToToggle_In (vls : list Layer) (layerId_ x : string) (layerIds : JSSet.t) :
  In x (idsToToggle vls layerId_ layerIds)
  <-> In x layerIds \/
      exists layer, findInTrees vls layerId_ = Some layer /\ In x (walkIds layer).
Proof.
  induction vls as [| vl rest IH]; cbn [idsToToggle findInTrees].
  - split; [auto |]. intros [Hx | (layer & Hl & _)]; [exact Hx | discriminate].
  - destruct (findLayerById vl layerId_) as [layer |].
    + rewrite foldl_add_In. split.
      * intros [Hx | Hx]; [auto |]. right. exists layer. auto.
      * intros [Hx | (layer' & Hl & Hx)]; [auto |]. inversion Hl. subst. auto.
    + exact IH.
Qed.

(** X11: [ToggleLayerExpansion] acts on the layer id and, when
    [recursive], on the ids of the whole subtree of the layer in the first
    vector layer that holds it.  If the layer was collapsed all of these
    are expanded afterwards, otherwise all of them are collapsed; every
    other id stays as it was, and so do the rest of the document and the
    store. *)
Theorem toggleLayerExpansion_subtree {G : Collaborators} (state : State) (layerId_ : string)
    (recursive : bool) (h : Store) :
  let affected := fun x =>
    x = layerId_ \/
    (recursive = true /\
     exists layer, findInTrees (vectorLayers (layers state)) layerId_ = Some layer /\
                   In x (walkIds layer)) in
  exists s1,
    reducer state (ToggleLayerExpansion layerId_ recursive) h = (Some (Changed s1), h) /\
    (forall x, affected x ->
       (In x (collapsedLayerIds (layers s1))
        <-> ~ In layerId_ (collapsedLayerIds (layers state)))) /\
    (forall x, ~ affected x ->
       (In x (collapsedLayerIds (layers s1)) <-> In x (collapsedLayerIds (layers state)))) /\
    withCollapsedLayerIds (layers s1) [] = withCollapsedLayerIds (layers state) [] /\
    timeline s1 = timeline state.
Proof.
  intros affected. eexists. split; [reflexivity |].
  cbn [layers collapsedLayerIds withLayers withCollapsedLayerIds timeline].
  set (layerIds := if recursive
                   then idsToToggle (vectorLayers (layers state)) layerId_ [layerId_]
                   else [layerId_]).
  assert (Hids : forall x, In x layerIds <-> affected x).
  { intros x. unfold layerIds, affected. destruct recursive.
    - rewrite idsToToggle_In. cbn. intuition.
    - cbn. intuition. discriminate. }
  unfold JSSet.copy.
  destruct (JSSet.has (collapsedLayerIds (layers state)) layerId_) eqn:Eh.
  - apply has_In in Eh. split; [| split; [| split; reflexivity]].
    + intros x Hx. rewrite foldl_delete_In, Hids. intuition.
    + intros x Hx. rewrite foldl_delete_In, Hids. intuition.
  - assert (Hn : ~ In layerId_ (collapsedLayerIds (layers state)))
      by (intros Hin; apply has_In in Hin; congruence).
    split; [| split; [| split; reflexivity]].
    + intros x Hx. rewrite foldl_add_In, Hids. intuition.
    + intros x Hx. rewrite foldl_add_In, Hids. intuition.
Qed.

(** ** Replacing animations, blocks and layers *)

Lemma map_lookup {A B} (f : A -> B) (l : list A) (i : nat) :
  map f l !! i = f <$> (l !! i).
Proof.
  revert i. induction l as [| x l IH]; intros [| i]; cbn; try reflexivity. apply IH.
Qed.

(** X12: [ReplaceAnimations] with a non-empty list keeps the number, the
    order and the ids of the animations: each animation becomes the first
    replacement that has its id, or stays when there is none, so a
    replacement whose id names no animation is ignored; selections, the
    active id, the layers and the store are untouched. *)
Theorem replaceAnimations_keeps_ids {G : Collaborators} (state : State)
    (replacementAnimations : list Animation) (h : Store) :
  replacementAnimations <> [] ->
  exists s',
    reducer state (ReplaceAnimations replacementAnimations) h = (Some (Changed s'), h) /\
    map aid (animations (timeline s')) = map aid (animations (timeline state)) /\
    (forall i animation,
       animations (timeline state) !! i = Some animation ->
       animations (timeline s') !! i
       = Some (match find (fun r => String.eqb (aid r) (aid animation)) replacementAnimations with
               | Some r => r
               | None => animation
               end)) /\
    withAnimations (timeline s') [] = withAnimations (timeline state) [] /\
    layers s' = layers state.
Proof.
  intros Hne. destruct replacementAnimations as [| r0 rs]; [congruence |].
  eexists. split; [reflexivity |].
  cbn [timeline withTimeline withAnimations animations layers].
  split; [| split; [| split; reflexivity]].
  - rewrite map_map. apply map_ext. intros a.
    destruct (find _ _) as [r |] eqn:F; [| reflexivity].
    apply find_some in F. destruct F as [_ E]. apply String.eqb_eq in E. exact E.
  - intros i animation Hi.
    rewrite map_lookup, Hi. reflexivity.
Qed.

Lemma findIndex_Some {A} (f : A -> bool) (l : list A) (i : nat) :
  findIndex f l = Some i ->
  exists x, l !! i = Some x /\ f x = true /\
            forall j y, j < i -> l !! j = Some y -> f y = false.
Proof.
  revert i. induction l as [| x l IH]; cbn; intros i E; [discriminate |].
  destruct (f x) eqn:Fx.
  - inversion E; subst. exists x. split; [reflexivity |]. split; [exact Fx |]. intros j y Hj. lia.
  - destruct (findIndex f l) as [k |]; cbn in E; [| discriminate]. inversion E; subst.
    destruct (IH k eq_refl) as (y & Hy & Fy & Hbefore).
    exists y. split; [exact Hy |]. split; [exact Fy |].
    intros [| j] z Hj Hz; cbn in Hz; [inversion Hz; subst; exact Fx |].
    eapply Hbefore; [| exact Hz]. lia.
Qed.

Lemma findIndex_None {A} (f : A -> bool) (l : list A) :
  findIndex f l = None <-> forall x, In x l -> f x = false.
Proof.
  induction l as [| x l IH]; cbn; [intuition |].
  destruct (f x) eqn:Fx.
  - split; [discriminate |]. intros Hall. rewrite (Hall x (or_introl eq_refl)) in Fx. discriminate.
  - destruct (findIndex f l) as [k |]; cbn.
    + split; [discriminate |]. intros Hall.
      assert (Hn : @None nat = None) by reflexivity. apply IH in Hn || idtac.
      destruct IH as [_ IH]. discriminate IH. intros y Hy. apply Hall. right. exact Hy.
    + split; [| reflexivity]. intros _ y [<- | Hy]; [exact Fx |].
      destruct IH as [IH _]. apply IH; [reflexivity | exact Hy].
Qed.

Lemma assignAt_length {A} (i : option nat) (x : A) (l : list A) :
  length (assignAt i x l) = length l.
Proof. destruct i; cbn; [apply length_insert | reflexivity]. Qed.

Lemma addToBlockMap_keys (key k : string) (block : BlockRef)
    (blockMap : list (string * list BlockRef)) :
  In k (map fst (addToBlockMap key block blockMap)) <-> k = key \/ In k (map fst blockMap).
Proof.
  induction blockMap as [| [k0 bl] rest IH]; cbn; [intuition |].
  destruct (String.eqb_spec k0 key) as [-> | Hne]; cbn; [intuition |].
  rewrite IH. intuition.
Qed.

Lemma buildBlockMap_keys (h : Store) (blocks_ : list BlockRef) (k : string) :
  In k (map fst (buildBlockMap h blocks_))
  <-> exists b, In b blocks_ /\ animationId (deref h b) = k.
Proof.
  unfold buildBlockMap.
  assert (Hgen : forall acc,
            In k (map fst (foldl (fun blockMap block =>
                                    addToBlockMap (animationId (deref h block)) block blockMap)
                                 acc blocks_))
            <-> In k (map fst acc) \/ exists b, In b blocks_ /\ animationId (deref h b) = k).
  { induction blocks_ as [| b bs IH]; intros acc; cbn [foldl].
    - split; [auto |]. intros [Hk | (b & [] & _)]. exact Hk.
    - rewrite IH, addToBlockMap_keys. split.
      + intros [[-> | Hk] | (b' & Hb' & E)]; [right; exists b; cbn; auto | auto |].
        right. exists b'. cbn. auto.
      + intros [Hk | (b' & [<- | Hb'] & E)]; [auto | auto |]. right. exists b'. auto. }
  rewrite Hgen. cbn. intuition.
Qed.

(** One turn of [blockMap.forEach] on an animation id that is there. *)
Lemma replaceBlocksStep_found (h : Store) (l : list Animation) (animId : string)
    (replacementBlocks : list BlockRef) :
  In animId (map aid l) ->
  exists l',
    replaceBlocksStep h (Some l) (animId, replacementBlocks) = Some l' /\
    map aid l' = map aid l /\
    map (fun a => length (blocks a)) l' = map (fun a => length (blocks a)) l.
Proof.
  intros Hin. unfold replaceBlocksStep. simpl (Some l ≫= _).
  destruct (findIndex (fun a => String.eqb (aid a) animId) l) as [i |] eqn:F.
  - apply findIndex_Some in F. destruct F as (a & Ha & _ & _).
    simpl (Some i ≫= _). rewrite Ha. simpl (Some a ≫= _).
    eexists. split; [reflexivity |].
    split; (eapply insert_map_inv; [exact Ha |]); cbn; [reflexivity |].
    generalize (blocks a). induction replacementBlocks as [| b bs IH]; intros nb; cbn [foldl];
      [reflexivity |].
    rewrite IH. apply assignAt_length.
  - exfalso. apply in_map_iff in Hin. destruct Hin as (a & Ea & Ha).
    assert (Hf := proj1 (findIndex_None _ _) F a Ha). cbn in Hf.
    rewrite Ea, String.eqb_refl in Hf. discriminate.
Qed.

Lemma replaceBlocksStep_missing (h : Store) (l : list Animation) (animId : string)
    (replacementBlocks : list BlockRef) :
  ~ In animId (map aid l) ->
  replaceBlocksStep h (Some l) (animId, replacementBlocks) = None.
Proof.
  intros Hout. unfold replaceBlocksStep. simpl (Some l ≫= _).
  destruct (findIndex (fun a => String.eqb (aid a) animId) l) as [i |] eqn:F; [| reflexivity].
  exfalso. apply findIndex_Some in F. destruct F as (a & Ha & Ea & _).
  apply String.eqb_eq in Ea. apply Hout. rewrite <- Ea. apply in_map.
  eapply list_elem_of_In, list_elem_of_lookup_2, Ha.
Qed.

Lemma replaceBlocks_fold_None (h : Store) (blockMap : list (string * list BlockRef)) :
  foldl (replaceBlocksStep h) None blockMap = None.
Proof. induction blockMap as [| [k bs] m IH]; cbn; [reflexivity | exact IH]. Qed.

Lemma replaceBlocks_fold (h : Store) (blockMap : list (string * list BlockRef))
    (l : list Animation) :
  ((forall k, In k (map fst blockMap) -> In k (map aid l)) ->
   exists l',
     foldl (replaceBlocksStep h) (Some l) blockMap = Some l' /\
     map aid l' = map aid l /\
     map (fun a => length (blocks a)) l' = map (fun a => length (blocks a)) l) /\
  ((exists k, In k (map fst blockMap) /\ ~ In k (map aid l)) ->
   foldl (replaceBlocksStep h) (Some l) blockMap = None).
Proof.
  revert l. induction blockMap as [| [k0 bs0] m IH]; intros l; cbn [foldl map fst].
  - split; [eauto | intros (k & [] & _)].
  - destruct (in_dec String.string_dec k0 (map aid l)) as [Hin | Hout].
    + destruct (replaceBlocksStep_found h l k0 bs0 Hin) as (l1 & E1 & Hid & Hlen).
      rewrite E1. destruct (IH l1) as [IHa IHb]. split.
      * intros Hall. destruct IHa as (l' & E & Hid' & Hlen').
        { intros k Hk. rewrite Hid. apply Hall. right. exact Hk. }
        exists l'. split; [exact E |]. split; congruence.
      * intros (k & [<- | Hk] & Hn); [contradiction |].
        apply IHb. exists k. rewrite Hid. auto.
    + rewrite (replaceBlocksStep_missing h l k0 bs0 Hout), replaceBlocks_fold_None.
      split; [| reflexivity]. intros Hall. destruct Hout. apply Hall. left. reflexivity.
Qed.

(** X13: [ReplaceBlocks] with a non-empty list throws, the store
    untouched, when one of the blocks names an animation that is not in
    the timeline.  Otherwise it returns a document with the same
    animations in number, order and id, each with as many blocks as
    before: a replacement takes the place of a block or is dropped, it is
    never added; selections, the active id and the layers stay. *)
Theorem replaceBlocks_keeps_shape {G : Collaborators} (state : State)
    (blocks_ : list BlockRef) (h : Store) :
  blocks_ <> [] ->
  ((exists b, In b blocks_ /\
              ~ In (animationId (deref h b)) (map aid (animations (timeline state)))) ->
   reducer state (ReplaceBlocks blocks_) h = (None, h)) /\
  ((forall b, In b blocks_ ->
              In (animationId (deref h b)) (map aid (animations (timeline state)))) ->
   exists s',
     reducer state (ReplaceBlocks blocks_) h = (Some (Changed s'), h) /\
     map aid (animations (timeline s')) = map aid (animations (timeline state)) /\
     map (fun a => length (blocks a)) (animations (timeline s'))
       = map (fun a => length (blocks a)) (animations (timeline state)) /\
     withAnimations (timeline s') [] = withAnimations (timeline state) [] /\
     layers s' = layers state).
Proof.
  intros Hne. destruct blocks_ as [| b0 bs]; [congruence |].
  destruct (replaceBlocks_fold h (buildBlockMap h (b0 :: bs)) (animations (timeline state)))
    as [Hok Hfail].
  cbn [reducer]. unfold bind, getStore. split.
  - intros (b & Hb & Hout). rewrite Hfail; [reflexivity |].
    exists (animationId (deref h b)). split; [| exact Hout].
    apply buildBlockMap_keys. eauto.
  - intros Hall. destruct Hok as (l' & E & Hid & Hlen).
    { intros k Hk. apply buildBlockMap_keys in Hk. destruct Hk as (b & Hb & <-). auto. }
    rewrite E. cbn [defined ret]. eexists. split; [reflexivity |].
    cbn [timeline withTimeline withAnimations animations layers]. auto.
Qed.

(** X14: [AddLayers] with a non-empty list puts the added vector layers
    after the existing ones and the other added layers, in order, after
    the children of the first vector layer that has the active id, a
    vector layer added by this very action included; every other vector
    layer is as it was.  When no vector layer has the active id it
    throws, the store untouched. *)
Theorem addLayers_appends {G : Collaborators} (state : State) (addedLayers : list Layer)
    (h : Store) :
  addedLayers <> [] ->
  let existing := vectorLayers (layers state) ++ List.filter isVectorLayer addedLayers in
  let others := List.filter (fun l => negb (isVectorLayer l)) addedLayers in
  let active := activeVectorLayerId (layers state) in
  (~ In active (map lid existing) ->
   reducer state (AddLayers addedLayers) h = (None, h)) /\
  (In active (map lid existing) ->
   exists s' i vl,
     reducer state (AddLayers addedLayers) h = (Some (Changed s'), h) /\
     existing !! i = Some vl /\ lid vl = active /\
     (forall j vl', j < i -> existing !! j = Some vl' -> lid vl' <> active) /\
     vectorLayers (layers s') !! i
       = Some {| lid := lid vl; isVectorLayer := isVectorLayer vl;
                 animatableProperties := animatableProperties vl;
                 children := children vl ++ others |} /\
     (forall j, j <> i -> vectorLayers (layers s') !! j = existing !! j) /\
     map lid (vectorLayers (layers s')) = map lid existing /\
     withVectorLayers (layers s') [] = withVectorLayers (layers state) [] /\
     timeline s' = timeline state).
Proof.
  intros Hne existing others active.
  destruct addedLayers as [| l0 ls]; [congruence |].
  cbn [reducer]. unfold bind. fold existing. fold others. fold active.
  destruct (findIndex (fun vl => String.eqb (lid vl) active) existing) as [i |] eqn:F.
  - split.
    + intros Hout. exfalso. apply findIndex_Some in F. destruct F as (vl & Hvl & Evl & _).
      apply String.eqb_eq in Evl. apply Hout. rewrite <- Evl. apply in_map.
      eapply list_elem_of_In, list_elem_of_lookup_2, Hvl.
    + intros _. apply findIndex_Some in F. destruct F as (vl & Hvl & Evl & Hbefore).
      apply String.eqb_eq in Evl.
      simpl (Some i ≫= _). rewrite Hvl. cbn [defined ret assignAt].
      exists (withLayers state
                (withVectorLayers (layers state)
                   (<[i := {| lid := lid vl; isVectorLayer := isVectorLayer vl;
                              animatableProperties := animatableProperties vl;
                              children := children vl ++ others |}]> existing))), i, vl.
      split; [reflexivity |]. split; [exact Hvl |]. split; [exact Evl |].
      split.
      { intros j vl' Hj Hvl' E. apply String.eqb_eq in E.
        rewrite (Hbefore j vl' Hj Hvl') in E. discriminate. }
      cbn [layers withLayers withVectorLayers vectorLayers timeline].
      split; [apply list_lookup_insert_eq; eapply lookup_lt_Some, Hvl |].
      split; [intros j Hj; apply list_lookup_insert_ne; congruence |].
      split; [eapply insert_map_inv; [exact Hvl | reflexivity] |].
      split; reflexivity.
  - split.
    + intros _. reflexivity.
    + intros Hin. exfalso. apply in_map_iff in Hin. destruct Hin as (vl & Evl & Hvl).
      assert (Hf := proj1 (findIndex_None _ _) F vl Hvl). cbn in Hf.
      rewrite Evl, String.eqb_refl in Hf. discriminate.
Qed.

Lemma replaceLayerInTree_lid (vl r : Layer) : lid (replaceLayerInTree vl r) = lid vl.
Proof.
  destruct vl as [id v p cs]. cbn.
  destruct (String.eqb_spec id (lid r)) as [-> | Hne]; reflexivity.
Qed.

(** X15: [ReplaceLayer] throws, the store untouched, when the replacement
    is no vector layer and no tree holds its id.  Otherwise it returns a
    document with the same vector layers in number, order and id, each
    vector layer whose id is not that of the replaced tree being the very
    one it was; a replacement that is a vector layer stands where the
    vector layers of its id stood. *)
Theorem replaceLayer_keeps_ids {G : Collaborators} (state : State) (replacementLayer : Layer)
    (h : Store) :
  let vls := vectorLayers (layers state) in
  (isVectorLayer replacementLayer = false ->
   findParentVectorLayer vls (lid replacementLayer) = None ->
   reducer state (ReplaceLayer replacementLayer) h = (None, h)) /\
  (isVectorLayer replacementLayer = true \/
   findParentVectorLayer vls (lid replacementLayer) <> None ->
   exists s' replacedId,
     reducer state (ReplaceLayer replacementLayer) h = (Some (Changed s'), h) /\
     map lid (vectorLayers (layers s')) = map lid vls /\
     (forall i vl, vls !! i = Some vl -> lid vl <> replacedId ->
                   vectorLayers (layers s') !! i = Some vl) /\
     (isVectorLayer replacementLayer = true ->
      replacedId = lid replacementLayer /\
      forall i vl, vls !! i = Some vl -> lid vl = replacedId ->
                   vectorLayers (layers s') !! i = Some replacementLayer) /\
     withVectorLayers (layers s') [] = withVectorLayers (layers state) [] /\
     timeline s' = timeline state).
Proof.
  intros vls. cbn [reducer]. unfold bind. fold vls.
  assert (Hmap : forall replacementVl : Layer,
            map lid (map (fun vl => if String.eqb (lid vl) (lid replacementVl)
                                    then replacementVl else vl) vls) = map lid vls).
  { intros rv. rewrite map_map. apply map_ext. intros vl.
    destruct (String.eqb_spec (lid vl) (lid rv)) as [E | _]; [symmetry; exact E | reflexivity]. }
  assert (Hother : forall (replacementVl : Layer) i vl,
            vls !! i = Some vl -> lid vl <> lid replacementVl ->
            map (fun vl => if String.eqb (lid vl) (lid replacementVl)
                           then replacementVl else vl) vls !! i = Some vl).
  { intros rv i vl Hi Hne. rewrite map_lookup, Hi. cbn.
    apply String.eqb_neq in Hne. rewrite Hne. reflexivity. }
  destruct (isVectorLayer replacementLayer) eqn:Ev.
  - split; [discriminate |]. intros _. cbn [ret].
    eexists _, (lid replacementLayer). split; [reflexivity |].
    cbn [layers withLayers withVectorLayers vectorLayers timeline]. fold vls.
    split; [apply Hmap |]. split; [apply Hother |].
    split; [| split; reflexivity].
    intros _. split; [reflexivity |]. intros i vl Hi E.
    rewrite map_lookup, Hi. cbn. rewrite E, String.eqb_refl. reflexivity.
  - destruct (findParentVectorLayer vls (lid replacementLayer)) as [vl |] eqn:F.
    + split; [discriminate |]. intros _. cbn [defined ret].
      eexists _, (lid (replaceLayerInTree vl replacementLayer)). split; [reflexivity |].
      cbn [layers withLayers withVectorLayers vectorLayers timeline]. fold vls.
      split; [apply Hmap |]. split; [apply Hother |].
      split; [discriminate | split; reflexivity].
    + split; [reflexivity |]. intros [Hv | Hf]; [discriminate | congruence].
Qed.

(** ** Deleting blocks *)

Lemma filter_length_eq {A} (f : A -> bool) (l : list A) :
  length l = length (List.filter f l) -> List.filter f l = l.
Proof.
  induction l as [| x l IH]; [reflexivity |].
  cbn [List.filter]. destruct (f x).
  - cbn [length]. intros El. f_equal. apply IH. lia.
  - cbn [length]. intros El. pose proof (List.filter_length_le f l). lia.
Qed.

(** X16: [deleteSelectedBlocks] with a non-empty block selection removes
    from every animation exactly the blocks whose id is selected, the
    others staying in their order, and empties the block selection; an
    animation that loses no block is the very one it was, and the store
    is untouched. *)
Theorem deleteSelectedBlocks_removes (state : State) (h : Store) :
  selectedBlockIds (timeline state) <> [] ->
  exists s',
    deleteSelectedBlocks state h = (Some (Changed s'), h) /\
    selectedBlockIds (timeline s') = [] /\
    map aid (animations (timeline s')) = map aid (animations (timeline state)) /\
    (forall i animation,
       animations (timeline state) !! i = Some animation ->
       exists animation',
         animations (timeline s') !! i = Some animation' /\
         blocks animation'
           = List.filter (fun b => negb (JSSet.has (selectedBlockIds (timeline state))
                                                   (bid (deref h b))))
                         (blocks animation) /\
         ((forall b, In b (blocks animation) ->
                     ~ In (bid (deref h b)) (selectedBlockIds (timeline state))) ->
          animation' = animation)) /\
    layers s' = layers state.
Proof.
  intros Hne. unfold deleteSelectedBlocks.
  destruct (selectedBlockIds (timeline state)) as [| x sel] eqn:Es; [congruence |].
  cbn [JSSet.nonEmpty JSSet.size length Nat.eqb negb]. unfold bind, getStore. cbn [ret].
  eexists. split; [reflexivity |].
  cbn [timeline withTimeline animations selectedBlockIds layers].
  split; [reflexivity |]. split.
  { rewrite map_map. apply map_ext. intros a. destruct (Nat.eqb _ _); reflexivity. }
  split; [| reflexivity].
  intros i animation Hi. rewrite map_lookup, Hi. cbn [fmap option_fmap option_map].
  eexists. split; [reflexivity |].
  set (kept := List.filter _ (blocks animation)).
  assert (Hsame : Nat.eqb (length (blocks animation)) (length kept) = true ->
                  kept = blocks animation).
  { intros El. apply Nat.eqb_eq in El. apply filter_length_eq, El. }
  split.
  - destruct (Nat.eqb _ _) eqn:El; [| reflexivity]. symmetry. apply Hsame. reflexivity.
  - intros Hnone.
    assert (Hk : kept = blocks animation).
    { unfold kept. apply filter_all. intros b Hb. apply negb_true_iff.
      apply not_true_iff_false. intros Hh. apply has_In in Hh. exact (Hnone b Hb Hh). }
    rewrite Hk, Nat.eqb_refl. reflexivity.
Qed.

(** ** The gap finder, further *)

(** X17: among the candidate gaps wider than a block, taken from left to
    right, the gap finder picks the first one whose distance to the cursor
    is least: every eligible gap before it is strictly farther, every one
    after it at least as far. *)
Theorem findGap_first_nearest (h : Store) (animation : Animation)
    (layerId_ propertyName_ : string) (gap : Gap) :
  findGap h animation layerId_ propertyName_ = Some gap ->
  let candidates := buildGaps 0 (blockNeighborsOf h animation layerId_ propertyName_)
                              (duration animation) in
  exists before after,
    List.filter (fun g => (gapEnd g - gapStart g >? newBlockDuration)%Z) candidates
      = before ++ gap :: after /\
    (forall g, In g before -> (gapDist gap < gapDist g)%Z) /\
    (forall g, In g after -> (gapDist gap <= gapDist g)%Z).
Proof.
  unfold findGap, eligibleGaps. intros E. apply sortBy_head in E. exact E.
Qed.


(** X19: for a gap wider than a block whose start is a whole number
    between 0 and 2^53 - 100, lines 236-240 put the block at the gap's
    left edge, 100 long: the sum of line 237 is exact and the snap to the
    right edge at line 239 is not taken.  (Past that bound the sum is
    rounded and the snap can be taken, as [placeInGap_beyond_exact]
    shows.) *)
Theorem placeInGap_left_edge (gap : Gap) :
  (gapEnd gap - gapStart gap > newBlockDuration)%Z ->
  (0 <= gapStart gap <= 2 ^ 53 - 100)%Z ->
  placeInGap gap = (gapStart gap, (gapStart gap + 100)%Z).
Proof.
  unfold placeInGap, numAdd, numSub, newBlockDuration, activeTime. intros Hw Hs.
  assert (H53 : (2 ^ 53 = 9007199254740992)%Z) by reflexivity.
  rewrite Z.max_r by lia.
  rewrite (roundToDouble_exact (gapStart gap + 100)) by lia.
  rewrite Z.min_l by lia.
  rewrite (roundToDouble_exact (gapStart gap + 100 - gapStart gap)) by lia.
  destruct (Z.ltb_spec (gapStart gap + 100 - gapStart gap) 100); [lia | reflexivity].
Qed.

(** ** The store across a dispatch *)

Lemma storeKept_refl (h : Store) : storeKept h h.
Proof. unfold storeKept. auto. Qed.

Lemma storeKept_trans (h1 h2 h3 : Store) :
  storeKept h1 h2 -> storeKept h2 h3 -> storeKept h1 h3.
Proof.
  intros (L1 & C1 & B1) (L2 & C2 & B2). split; [lia |]. split; [lia |].
  intros r Hr. rewrite B2 by lia. apply B1, Hr.
Qed.

Lemma uniqueId_kept (h h' : Store) (o : option string) :
  uniqueId h = (o, h') -> storeKept h h' /\ objects h' = objects h /\ o <> None.
Proof.
  unfold uniqueId. intros E. inversion E; subst. cbn.
  split; [| split; [reflexivity | discriminate]].
  split; [cbn; lia |]. split; [cbn; lia |]. intros r _. reflexivity.
Qed.

Section StoreFrame.

Context {G : Collaborators}.

Lemma deleteSelectedAnimations_store state h r h' :
  deleteSelectedAnimations state h = (r, h') ->
  storeKept h h' /\ objects h' = objects h /\ r <> None.
Proof.
  unfold deleteSelectedAnimations. destruct (negb _).
  - intros E. inversion E. split; [apply storeKept_refl | split; [reflexivity | discriminate]].
  - destruct (List.filter _ _) as [| a l]; unfold bind, newAnimation, bind, uniqueId; cbn;
      destruct (JSSet.has _ _); cbn; intros E; inversion E;
      (split; [| split; [reflexivity | discriminate]]);
      try apply storeKept_refl;
      (split; [cbn; lia |]; split; [cbn; lia |]; intros ? _; reflexivity).
Qed.

Lemma deleteSelectedBlocks_store state h r h' :
  deleteSelectedBlocks state h = (r, h') -> h' = h /\ r <> None.
Proof.
  unfold deleteSelectedBlocks. destruct (negb _); cbn; intros E; inversion E;
    split; (reflexivity || discriminate).
Qed.

Lemma deleteSelectedLayers_store state h r h' :
  deleteSelectedLayers state h = (r, h') ->
  storeKept h h' /\ objects h' = objects h /\ r <> None.
Proof.
  unfold deleteSelectedLayers. destruct (negb _).
  - intros E. inversion E. split; [apply storeKept_refl | split; [reflexivity | discriminate]].
  - destruct (foldl _ _ _) as [[vls col] hid].
    destruct vls as [| v l]; unfold bind, newVectorLayer, bind, uniqueId; cbn.
    + destruct (String.eqb _ _); cbn; intros E; inversion E;
        (split; [| split; [reflexivity | discriminate]]);
        (split; [cbn; lia |]; split; [cbn; lia |]; intros ? _; reflexivity).
    + destruct (String.eqb _ _); cbn; [| destruct (find _ l); cbn];
        intros E; inversion E;
        (split; [apply storeKept_refl | split; [reflexivity | discriminate]]).
Qed.

Lemma updatePathAnimationBlock_store state blockId source path h r h' :
  updatePathAnimationBlock state blockId source path h = (r, h') ->
  storeKept h h' /\ length (objects h') = length (objects h) /\
  idCounter h' = idCounter h /\ (r = None -> h' = h).
Proof.
  unfold updatePathAnimationBlock, bind, getStore.
  destruct (atFoundIndex _ (animations _)) as [a |]; cbn [defined ret throw];
    [| intros E; inversion E; subst;
       split; [apply storeKept_refl | split; [reflexivity | split; reflexivity]]].
  destruct (atFoundIndex _ (blocks a)) as [b |]; cbn [defined ret throw];
    [| intros E; inversion E; subst;
       split; [apply storeKept_refl | split; [reflexivity | split; reflexivity]]].
  destruct (reconcile _ _) as [[p o] |]; cbn [defined ret throw fst snd];
    [| intros E; inversion E; subst;
       split; [apply storeKept_refl | split; [reflexivity | split; reflexivity]]].
  destruct h as [objs c].
  destruct source; unfold setBlockPath, oppositeOf, setFromValue, setToValue;
    cbn [objects idCounter]; intros E; inversion E; subst; clear E;
    (split; [| split; [cbn; rewrite !length_insert; reflexivity
                      | split; [reflexivity | discriminate]]]);
    (split; [cbn; rewrite !length_insert; lia |]; split; [cbn; lia |]);
    intros r Hr; cbn [objects] in Hr;
    (destruct (Nat.eq_dec r b) as [-> | Hne];
     [ rewrite !deref_insert_eq by (rewrite ?length_insert; exact Hr); reflexivity
     | rewrite (deref_insert_ne _ c c), (deref_insert_ne _ c c) by exact Hne; reflexivity ]).
Qed.

Lemma addBlock_store state layer prop fromV toV h r h' :
  addBlock state layer prop fromV toV h = (r, h') ->
  storeKept h h' /\ (r = None -> h' = h) /\
  (forall b, b < length (objects h) -> deref h' b = deref h b).
Proof.
  destruct (find (fun anim => String.eqb (aid anim) (activeAnimationId (timeline state)))
                 (animations (timeline state))) as [animation |] eqn:F.
  - rewrite (addBlock_run _ _ _ _ _ _ _ F).
    destruct (findGap _ _ _ _) as [gap |]; cbv zeta; intros E; inversion E; subst; clear E.
    + assert (Hd : forall b, b < length (objects h) ->
                deref {| objects := objects h ++
                           [{| bid := NilEmpty.string_of_uint (Nat.to_uint (S (idCounter h)));
                               bkind := blockKindFor (propertyOf layer prop);
                               layerId := lid layer;
                               animationId := activeAnimationId (timeline state);
                               propertyName := prop;
                               startTime := fst (placeInGap gap);
                               endTime := snd (placeInGap gap);
                               fromValue := fromV; toValue := toV |}];
                         idCounter := S (idCounter h) |} b = deref h b).
      { intros b Hb. unfold deref. cbn [objects]. rewrite app_nth1 by exact Hb. reflexivity. }
      split; [| split; [discriminate | exact Hd]].
      split; [cbn; rewrite length_app; cbn; lia |]. split; [cbn; lia |].
      intros b Hb. rewrite Hd by exact Hb. reflexivity.
    + split; [apply storeKept_refl | split; [reflexivity | reflexivity]].
  - unfold addBlock, bind, getStore. rewrite F. cbn. intros E. inversion E; subst.
    split; [apply storeKept_refl | split; reflexivity].
Qed.

(** X20: the store across any dispatch, returned from or thrown out of.
    Every block allocated before is still there, unchanged in all but its
    two endpoint values, and the id counter has not gone back; only
    [UpdatePathBlock] changes a block that was there; a throw leaves the
    store as it was; and the actions other than [NewWorkspace],
    [AddBlock], [UpdatePathBlock] and [DeleteSelectedModels] leave it as
    it was either way. *)
Theorem reducer_store_frame (state : State) (action : Action) (h : Store)
    (r : option Outcome) (h' : Store) :
  reducer state action h = (r, h') ->
  storeKept h h' /\
  (r = None -> h' = h) /\
  ((forall blockId source path, action <> UpdatePathBlock blockId source path) ->
   forall b, b < length (objects h) -> deref h' b = deref h b) /\
  match action with
  | NewWorkspace | AddBlock _ _ _ _ | UpdatePathBlock _ _ _ | DeleteSelectedModels => True
  | _ => h' = h
  end.
Proof.
  assert (Hsame : forall h0, storeKept h0 h0 /\
            (r = None -> h0 = h0) /\
            ((forall blockId source path, action <> UpdatePathBlock blockId source path) ->
             forall b, b < length (objects h0) -> deref h0 b = deref h0 b)).
  { intros h0. split; [apply storeKept_refl | split; reflexivity]. }
  assert (Hobj : forall h1 : Store, objects h1 = objects h ->
            forall b, deref h1 b = deref h b).
  { intros h1 Ho b. unfold deref. rewrite Ho. reflexivity. }
  destruct action; cbn [reducer]; intros E.
  - (* NewWorkspace *)
    unfold buildInitialState, newVectorLayer, newAnimation, bind, uniqueId, ret in E.
    inversion E; subst. split; [| split; [discriminate | split; [| exact I]]].
    + split; [cbn; lia |]. split; [cbn; lia |]. intros ? _. reflexivity.
    + intros _ b _. reflexivity.
  - destruct newAnimations; inversion E; subst; (split; [apply Hsame | split; [apply Hsame |]]);
      (split; [apply Hsame | reflexivity]).
  - inversion E; subst. split; [apply Hsame | split; [apply Hsame |]];
      (split; [apply Hsame | reflexivity]).
  - destruct (String.eqb _ _); inversion E; subst;
      (split; [apply Hsame | split; [apply Hsame |]]); (split; [apply Hsame | reflexivity]).
  - destruct replacementAnimations; inversion E; subst;
      (split; [apply Hsame | split; [apply Hsame |]]); (split; [apply Hsame | reflexivity]).
  - apply addBlock_store in E. destruct E as (Hk & Hn & Hd).
    split; [exact Hk |]. split; [exact Hn |]. split; [intros _; exact Hd | exact I].
  - inversion E; subst. split; [apply Hsame | split; [apply Hsame |]];
      (split; [apply Hsame | reflexivity]).
  - assert (Eh : h' = h).
    { destruct blocks_; [inversion E; reflexivity |].
      unfold bind, getStore in E. destruct (foldl _ _ _); cbn in E; inversion E; reflexivity. }
    subst h'. split; [apply Hsame | split; [apply Hsame |]];
      (split; [apply Hsame | reflexivity]).
  - apply updatePathAnimationBlock_store in E. destruct E as (Hk & _ & _ & Hn).
    split; [exact Hk |]. split; [exact Hn |]. split; [| exact I].
    intros Hno. destruct (Hno blockId source path eq_refl).
  - assert (Eh : h' = h).
    { destruct addedLayers; [inversion E; reflexivity |].
      unfold bind in E. destruct (_ ≫= _); cbn in E; inversion E; reflexivity. }
    subst h'. split; [apply Hsame | split; [apply Hsame |]];
      (split; [apply Hsame | reflexivity]).
  - assert (Eh : h' = h).
    { unfold selectLayerId, bind in E.
      destruct (findParentVectorLayer _ _); cbn in E; [| inversion E; reflexivity].
      destruct (clearExisting || _); inversion E; reflexivity. }
    subst h'. split; [apply Hsame | split; [apply Hsame |]];
      (split; [apply Hsame | reflexivity]).
  - inversion E; subst. split; [apply Hsame | split; [apply Hsame |]];
      (split; [apply Hsame | reflexivity]).
  - inversion E; subst. split; [apply Hsame | split; [apply Hsame |]];
      (split; [apply Hsame | reflexivity]).
  - inversion E; subst. split; [apply Hsame | split; [apply Hsame |]];
      (split; [apply Hsame | reflexivity]).
  - assert (Eh : h' = h).
    { unfold bind in E. destruct (isVectorLayer layer); cbn in E; [inversion E; reflexivity |].
      destruct (findParentVectorLayer _ _); cbn in E; inversion E; reflexivity. }
    subst h'. split; [apply Hsame | split; [apply Hsame |]];
      (split; [apply Hsame | reflexivity]).
  - (* DeleteSelectedModels *)
    unfold bind in E.
    destruct (deleteSelectedAnimations state h) as [r1 h1] eqn:E1.
    apply deleteSelectedAnimations_store in E1. destruct E1 as (K1 & O1 & N1).
    destruct r1 as [o1 |]; [| congruence].
    destruct (deleteSelectedBlocks (resultOf state o1) h1) as [r2 h2] eqn:E2.
    apply deleteSelectedBlocks_store in E2. destruct E2 as (-> & N2).
    destruct r2 as [o2 |]; [| congruence].
    destruct (deleteSelectedLayers (resultOf (resultOf state o1) o2) h1) as [r3 h3] eqn:E3.
    apply deleteSelectedLayers_store in E3. destruct E3 as (K3 & O3 & N3).
    destruct r3 as [o3 |]; [| congruence].
    cbn in E. inversion E; subst.
    split; [eapply storeKept_trans; eassumption |].
    split; [discriminate |]. split; [| exact I].
    intros _ b _. apply Hobj. congruence.
  - inversion E; subst. split; [apply Hsame | split; [apply Hsame |]];
      (split; [apply Hsame | reflexivity]).
Qed.

End StoreFrame.

(** ** The active ids *)

Lemma findParentVectorLayer_In (vls : list Layer) (id : string) (vl : Layer) :
  findParentVectorLayer vls id = Some vl -> In vl vls.
Proof.
  induction vls as [| v rest IH]; cbn; [discriminate |].
  destruct (findLayerById v id); intros E; [inversion E; auto | auto].
Qed.

Lemma replaceBlocks_fold_ids (h : Store) (blockMap : list (string * list BlockRef))
    (l l' : list Animation) :
  foldl (replaceBlocksStep h) (Some l) blockMap = Some l' -> map aid l' = map aid l.
Proof.
  revert l. induction blockMap as [| [k0 bs0] m IH]; intros l; cbn [foldl].
  - intros E. inversion E. reflexivity.
  - destruct (in_dec String.string_dec k0 (map aid l)) as [Hin | Hout].
    + destruct (replaceBlocksStep_found h l k0 bs0 Hin) as (l1 & E1 & Hid & _).
      rewrite E1. intros E. rewrite (IH _ E). exact Hid.
    + rewrite (replaceBlocksStep_missing h l k0 bs0 Hout), replaceBlocks_fold_None.
      discriminate.
Qed.

Section ActiveIds.

Context {G : Collaborators}.

Lemma deleteSelectedAnimations_valid state h o h' :
  deleteSelectedAnimations state h = (Some o, h') ->
  In (activeAnimationId (timeline state)) (map aid (animations (timeline state))) ->
  In (activeAnimationId (timeline (resultOf state o)))
     (map aid (animations (timeline (resultOf state o)))).
Proof.
  unfold deleteSelectedAnimations. destruct (negb _); intros E Hin; eff_inv; [exact Hin |].
  cbn [resultOf timeline withTimeline animations activeAnimationId].
  destruct (JSSet.has _ _) eqn:Hsel; eff_inv.
  - destruct a as [| x l]; [discriminate |]. cbn in H. inversion H. left. reflexivity.
  - apply in_map_iff in Hin. destruct Hin as (an & Ean & Hin).
    assert (Hk : In an (List.filter (fun animation =>
                negb (JSSet.has (selectedAnimationIds (timeline state)) (aid animation)))
                (animations (timeline state)))).
    { apply filter_In. split; [exact Hin |]. rewrite Ean, Hsel. reflexivity. }
    destruct (List.filter _ _) eqn:F; [destruct Hk |]. eff_inv.
    rewrite <- Ean. apply in_map. exact Hk.
Qed.

Lemma deleteSelectedLayers_valid state h o h' :
  deleteSelectedLayers state h = (Some o, h') ->
  In (activeVectorLayerId (layers state)) (map lid (vectorLayers (layers state))) ->
  In (activeVectorLayerId (layers (resultOf state o)))
     (map lid (vectorLayers (layers (resultOf state o)))).
Proof.
  unfold deleteSelectedLayers. destruct (negb _); intros E Hin; eff_inv; [exact Hin |].
  destruct (foldl _ _ _) as [[vls col] hid]. eff_inv.
  cbn [resultOf layers withLayers vectorLayers activeVectorLayerId].
  destruct (find _ a) as [v |] eqn:F; eff_inv.
  - apply find_some in F. destruct F as [Hv Ev]. apply String.eqb_eq in Ev.
    rewrite <- Ev. apply in_map, Hv.
  - destruct a as [| x l]; [discriminate |]. cbn in H. inversion H. left. reflexivity.
Qed.

(** X21: every dispatch that returns keeps the active ids naming an
    animation and a vector layer of the document, provided they did so
    before and, when the action is [ActivateAnimation], that the id it
    carries names an animation: that action stores its id unchecked, and it
    is the only one that can leave an active id naming nothing. *)
Theorem reducer_keeps_active_ids (state : State) (action : Action) (h : Store)
    (o : Outcome) (h' : Store) :
  activeIdsValid state ->
  (forall id, action = ActivateAnimation id ->
              In id (map aid (animations (timeline state)))) ->
  reducer state action h = (Some o, h') ->
  activeIdsValid (resultOf state o).
Proof.
  intros Hv Hact E. pose proof Hv as [Ha Hl].
  destruct action; cbn [reducer] in E.
  - unfold buildInitialState, newVectorLayer, newAnimation in E. eff_inv.
    split; left; reflexivity.
  - destruct newAnimations as [| first rest]; eff_inv; [exact Hv |].
    split; [| exact Hl]. cbn [resultOf timeline withTimeline animations activeAnimationId].
    rewrite map_app. apply in_or_app.
    destruct (String.eqb _ _); [right; left; reflexivity | left; exact Ha].
  - eff_inv. unfold selectAnimationId. destruct (JSSet.isEqual _ _); [exact Hv |].
    split; assumption.
  - destruct (String.eqb _ _); eff_inv; [exact Hv |].
    split; [| exact Hl]. cbn. apply (Hact animationId_ eq_refl).
  - destruct replacementAnimations as [| r0 rs]; eff_inv; [exact Hv |].
    split; [| exact Hl]. cbn [resultOf timeline withTimeline withAnimations animations
                              activeAnimationId].
    replace (map aid (map _ (animations (timeline state))))
      with (map aid (animations (timeline state))); [exact Ha |].
    rewrite map_map. apply map_ext. intros a.
    destruct (find _ _) as [r |] eqn:F; [| reflexivity].
    apply find_some in F. destruct F as [_ Er]. apply String.eqb_eq in Er. symmetry. exact Er.
  - destruct (addBlock_found _ _ _ _ _ _ _ _ E) as (animation & F).
    rewrite (addBlock_run _ _ _ _ _ _ _ F) in E.
    destruct (findGap _ _ _ _); cbv zeta in E; inversion E; subst; [| exact Hv].
    split.
    + cbn [resultOf timeline withTimeline withAnimations animations activeAnimationId].
      replace (map aid (map _ (animations (timeline state))))
        with (map aid (animations (timeline state))); [exact Ha |].
      rewrite map_map. apply map_ext. intros a. destruct (negb _); reflexivity.
    + cbn [resultOf layers withTimeline]. unfold selectBlockId.
      destruct (JSSet.isEqual _ _); exact Hl.
  - eff_inv. unfold selectBlockId. destruct (JSSet.isEqual _ _); [exact Hv |].
    split; assumption.
  - destruct blocks_ as [| b0 bs]; eff_inv; [exact Hv |].
    split; [| exact Hl]. cbn [resultOf timeline withTimeline withAnimations animations
                              activeAnimationId].
    rewrite (replaceBlocks_fold_ids _ _ _ _ H). exact Ha.
  - apply updatePathAnimationBlock_selections in E. destruct E as [El Et].
    unfold activeIdsValid. rewrite El, Et. exact Hv.
  - destruct addedLayers as [| l0 ls]; eff_inv; [exact Hv |].
    split; [exact Ha |]. cbn [resultOf layers withLayers withVectorLayers vectorLayers
                              activeVectorLayerId].
    destruct (findIndex _ _) as [i |] eqn:F; [| discriminate].
    simpl (Some i ≫= _) in H. cbn [assignAt].
    erewrite insert_map_inv; [| exact H | reflexivity].
    rewrite map_app. apply in_or_app. left. exact Hl.
  - destruct (findParentVectorLayer (vectorLayers (layers state)) layerId_) as [vl |] eqn:F.
    + rewrite (selectLayerId_run _ _ _ _ _ _ F) in E. inversion E; subst.
      split; [exact Ha |]. cbn [resultOf layers vectorLayers activeVectorLayerId].
      destruct (clearExisting || _); [| exact Hl].
      apply in_map, (findParentVectorLayer_In _ _ _ F).
    + unfold selectLayerId, bind in E. rewrite F in E. discriminate.
  - eff_inv. split; assumption.
  - eff_inv. split; assumption.
  - eff_inv. split; assumption.
  - assert (Hmap : forall replacementVl : Layer,
              map lid (map (fun vl => if String.eqb (lid vl) (lid replacementVl)
                                      then replacementVl else vl)
                           (vectorLayers (layers state)))
              = map lid (vectorLayers (layers state))).
    { intros rv. rewrite map_map. apply map_ext. intros vl.
      destruct (String.eqb_spec (lid vl) (lid rv)) as [Er | _];
        [symmetry; exact Er | reflexivity]. }
    destruct (isVectorLayer layer); eff_inv;
      (split; [exact Ha |]);
      cbn [resultOf layers withLayers withVectorLayers vectorLayers activeVectorLayerId];
      rewrite Hmap; exact Hl.
  - apply deleteSelectedModels_steps in E.
    destruct E as (o1 & o2 & o3 & h1 & h2 & E1 & E2 & E3 & ->).
    pose proof (deleteSelectedAnimations_layers _ _ _ _ E1) as [Hl1 _].
    pose proof (deleteSelectedBlocks_ids _ _ _ _ E2) as (Hids & Hac & _ & Hl2).
    pose proof (deleteSelectedLayers_timeline _ _ _ _ E3) as Ht3.
    split.
    + rewrite Ht3, Hids, Hac. eapply deleteSelectedAnimations_valid; eassumption.
    + eapply deleteSelectedLayers_valid; [exact E3 |]. rewrite Hl2, Hl1. exact Hl.
  - eff_inv. exact Hv.
Qed.

End ActiveIds.

(** ** When [UpdatePathBlock] returns *)

(** X22: with collaborators that keep command counts,
    [updatePathAnimationBlock] returns exactly when the active id names an
    animation, the block id names one of its blocks, and the block's
    opposite value is a path or falsy; in every other case (no such
    animation, no such block, a truthy opposite value that is no path) it
    throws and the store is as it was. *)
Theorem updatePathAnimationBlock_returns {G : Collaborators} (L : CollaboratorLaws G)
    (state : State) (blockId : string) (source : CanvasType) (path : Path) (h : Store) :
  let lookedUp :=
    activeAnimation ← atFoundIndex (fun a => String.eqb (aid a)
                                                (activeAnimationId (timeline state)))
                                   (animations (timeline state));
    atFoundIndex (fun b => String.eqb (bid (deref h b)) blockId) (blocks activeAnimation) in
  let reconcilable := fun block =>
    let oppPath := getBlockPath (deref h block) (oppositeOf source) in
    truthy oppPath = false \/ exists q, oppPath = VPath q in
  ((exists block, lookedUp = Some block /\ reconcilable block) ->
   exists s' h', updatePathAnimationBlock state blockId source path h
                 = (Some (Changed s'), h')) /\
  (~ (exists block, lookedUp = Some block /\ reconcilable block) ->
   updatePathAnimationBlock state blockId source path h = (None, h)).
Proof.
  intros lookedUp reconcilable.
  assert (Hrec : forall block,
            reconcilable block <->
            reconcile (normalizePath path) (getBlockPath (deref h block) (oppositeOf source))
            <> None).
  { intros block. unfold reconcilable, reconcile. cbv zeta.
    destruct (getBlockPath (deref h block) (oppositeOf source)) as [| q | c | n] eqn:Eo;
      cbn [truthy].
    - split; [discriminate | auto].
    - split; [| intros _; right; eexists; reflexivity]. intros _.
      destruct (compatibilize_counts (normalizePath path) q) as (p' & o' & E & _).
      rewrite E. discriminate.
    - destruct (negb (String.eqb c "")) eqn:Et.
      + split; [intros [Hf | (q & Hq)]; discriminate | congruence].
      + split; [discriminate | auto].
    - destruct (negb (Z.eqb n 0)) eqn:Et.
      + split; [intros [Hf | (q & Hq)]; discriminate | congruence].
      + split; [discriminate | auto]. }
  unfold updatePathAnimationBlock, bind, getStore. subst lookedUp.
  destruct (atFoundIndex _ (animations (timeline state))) as [a |];
    cbn [defined ret throw mbind option_bind];
    [| split; [intros (b & Hb & _); discriminate | reflexivity]].
  simpl (Some a ≫= _).
  destruct (atFoundIndex _ (blocks a)) as [b |];
    cbn [defined ret throw];
    [| split; [intros (b & Hb & _); discriminate | reflexivity]].
  destruct (reconcile _ _) as [[p o] |] eqn:Er; cbn [defined ret throw fst snd].
  - split; [| intros Hno; destruct Hno; exists b; split;
                [reflexivity | apply Hrec; rewrite Er; discriminate]].
    intros _.
    destruct (setBlockPath b source p h) as [[[] |] h1] eqn:E1;
      [| destruct source; discriminate].
    destruct (setBlockPath b (oppositeOf source) o h1) as [[[] |] h2] eqn:E2;
      [| destruct source; discriminate].
    eexists _, _. reflexivity.
  - split; [| reflexivity].
    intros (b' & Hb' & Hr). inversion Hb'; subst. apply Hrec in Hr. congruence.
Qed.

(** ** Deleting layers *)

Lemma deleteLayerStep_sets (acc : list Layer * JSSet.t * JSSet.t) (layerId_ x : string) :
  let '(_, col, hid) := acc in
  let '(_, col', hid') := deleteLayerStep acc layerId_ in
  (In x col' -> In x col) /\ (In x hid' -> In x hid) /\
  (x <> layerId_ -> (In x col -> In x col') /\ (In x hid -> In x hid')).
Proof.
  destruct acc as [[vls col] hid]. unfold deleteLayerStep.
  destruct (findParentVectorLayer vls layerId_); [| intuition].
  rewrite !JSSet_delete_In. intuition.
Qed.

Lemma deleteLayers_fold_sets (ids : list string) (acc : list Layer * JSSet.t * JSSet.t)
    (x : string) :
  let '(_, col, hid) := acc in
  let '(_, col', hid') := foldl deleteLayerStep acc ids in
  (In x col' -> In x col) /\ (In x hid' -> In x hid) /\
  (~ In x ids -> (In x col -> In x col') /\ (In x hid -> In x hid')).
Proof.
  revert acc. induction ids as [| id ids IH]; intros [[vls col] hid]; cbn [foldl].
  - intuition.
  - pose proof (deleteLayerStep_sets (vls, col, hid) id x) as Hs.
    destruct (deleteLayerStep (vls, col, hid) id) as [[vls1 col1] hid1].
    specialize (IH (vls1, col1, hid1)).
    destruct (foldl deleteLayerStep (vls1, col1, hid1) ids) as [[vls2 col2] hid2].
    cbn in *. intuition.
Qed.

(** X23: [deleteSelectedLayers] takes out of the collapsed and of the
    hidden set only ids of the layer selection: every id collapsed
    (hidden) afterwards was so before, and every id that was and is not
    selected still is.  The timeline is untouched and the layer selection
    is empty afterwards. *)
Theorem deleteSelectedLayers_sets (state : State) (h : Store)
    (o : Outcome) (h' : Store) (x : string) :
  deleteSelectedLayers state h = (Some o, h') ->
  let before := layers state in
  let after := layers (resultOf state o) in
  (In x (collapsedLayerIds after) -> In x (collapsedLayerIds before)) /\
  (In x (hiddenLayerIds after) -> In x (hiddenLayerIds before)) /\
  (~ In x (selectedLayerIds before) ->
   (In x (collapsedLayerIds before) -> In x (collapsedLayerIds after)) /\
   (In x (hiddenLayerIds before) -> In x (hiddenLayerIds after))) /\
  selectedLayerIds after = [] /\
  timeline (resultOf state o) = timeline state.
Proof.
  unfold deleteSelectedLayers.
  destruct (negb (JSSet.nonEmpty (selectedLayerIds (layers state)))) eqn:En;
    intros E; eff_inv.
  - cbn [resultOf]. split; [auto |]. split; [auto |]. split; [auto |].
    split; [| reflexivity]. apply negb_true_iff in En. apply nonEmpty_false, En.
  - pose proof (deleteLayers_fold_sets (selectedLayerIds (layers state))
                  (vectorLayers (layers state), JSSet.copy (collapsedLayerIds (layers state)),
                   JSSet.copy (hiddenLayerIds (layers state))) x) as Hs.
    destruct (foldl _ _ _) as [[vls col] hid]. eff_inv.
    cbn [resultOf layers withLayers collapsedLayerIds hiddenLayerIds selectedLayerIds timeline].
    unfold JSSet.copy in Hs. cbv beta iota in Hs. destruct Hs as (Hc & Hh & Hk).
    split; [destruct (Nat.eqb _ (JSSet.size (collapsedLayerIds _))); auto |].
    split; [destruct (Nat.eqb _ (JSSet.size (hiddenLayerIds _))); auto |].
    split; [| split; reflexivity].
    intros Hn. destruct (Hk Hn) as [Hkc Hkh].
    split; [destruct (Nat.eqb _ (JSSet.size (collapsedLayerIds _))); auto
           | destruct (Nat.eqb _ (JSSet.size (hiddenLayerIds _))); auto].
Qed.

(** ** What [DELETE_SELECTED_MODELS] returns *)

Section Outcomes.

Context {G : Collaborators}.

Lemma deleteSelectedAnimations_runs (state : State) (h : Store) :
  exists o h',
    deleteSelectedAnimations state h = (Some o, h') /\
    sameReference o = negb (JSSet.nonEmpty (selectedAnimationIds (timeline state))) /\
    (sameReference o = true -> h' = h) /\
    selectedAnimationIds (timeline (resultOf state o)) = [] /\
    selectedBlockIds (timeline (resultOf state o)) = selectedBlockIds (timeline state) /\
    layers (resultOf state o) = layers state.
Proof.
  unfold deleteSelectedAnimations.
  destruct (JSSet.nonEmpty (selectedAnimationIds (timeline state))) eqn:En; cbn [negb].
  - destruct (List.filter _ (animations (timeline state))) as [| a0 rest];
      unfold bind, newAnimation, uniqueId, ret, defined; cbn [head];
      destruct (JSSet.has _ _); cbn [head];
      eexists _, _; (split; [reflexivity |]); cbn; intuition discriminate.
  - exists Unchanged, h. cbn. split; [reflexivity |]. split; [reflexivity |].
    split; [reflexivity |]. split; [apply nonEmpty_false, En | auto].
Qed.

Lemma deleteSelectedBlocks_runs (state : State) (h : Store) :
  exists o,
    deleteSelectedBlocks state h = (Some o, h) /\
    sameReference o = negb (JSSet.nonEmpty (selectedBlockIds (timeline state))) /\
    selectedBlockIds (timeline (resultOf state o)) = [] /\
    selectedAnimationIds (timeline (resultOf state o)) = selectedAnimationIds (timeline state) /\
    layers (resultOf state o) = layers state.
Proof.
  unfold deleteSelectedBlocks.
  destruct (JSSet.nonEmpty (selectedBlockIds (timeline state))) eqn:En; cbn [negb].
  - eexists. split; [reflexivity |]. cbn. auto.
  - exists Unchanged. cbn. split; [reflexivity |]. split; [reflexivity |].
    split; [apply nonEmpty_false, En | auto].
Qed.

Lemma deleteSelectedLayers_runs (state : State) (h : Store) :
  exists o h',
    deleteSelectedLayers state h = (Some o, h') /\
    sameReference o = negb (JSSet.nonEmpty (selectedLayerIds (layers state))) /\
    (sameReference o = true -> h' = h) /\
    selectedLayerIds (layers (resultOf state o)) = [] /\
    timeline (resultOf state o) = timeline state.
Proof.
  unfold deleteSelectedLayers.
  destruct (JSSet.nonEmpty (selectedLayerIds (layers state))) eqn:En; cbn [negb].
  - destruct (foldl _ _ _) as [[vls col] hid].
    destruct vls as [| v0 rest].
    + unfold newVectorLayer, uniqueId, bind, ret, defined, throw. cbv beta iota zeta.
      cbn [find lid head].
      destruct (String.eqb _ _); cbv beta iota zeta;
        eexists _, _; (split; [reflexivity |]); cbn; intuition discriminate.
    + unfold bind, ret, defined.
      match goal with |- context [find ?f ?l] => destruct (find f l) end; cbn [head];
        eexists _, _; (split; [reflexivity |]); cbn; intuition discriminate.
  - exists Unchanged, h. cbn. split; [reflexivity |]. split; [reflexivity |].
    split; [reflexivity |]. split; [apply nonEmpty_false, En | reflexivity].
Qed.

(** X24: [DELETE_SELECTED_MODELS] never throws and leaves all three
    selection sets empty; it hands back the very state object it was given
    exactly when nothing was selected, and then the store is as it was. *)
Theorem deleteSelectedModels_returns (state : State) (h : Store) :
  exists o h',
    reducer state DeleteSelectedModels h = (Some o, h') /\
    (sameReference o = true <->
     selectedAnimationIds (timeline state) = [] /\
     selectedBlockIds (timeline state) = [] /\
     selectedLayerIds (layers state) = []) /\
    (sameReference o = true -> h' = h) /\
    selectedAnimationIds (timeline (resultOf state o)) = [] /\
    selectedBlockIds (timeline (resultOf state o)) = [] /\
    selectedLayerIds (layers (resultOf state o)) = [].
Proof.
  destruct (deleteSelectedAnimations_runs state h)
    as (o1 & h1 & E1 & R1 & S1 & A1 & B1 & L1).
  destruct (deleteSelectedBlocks_runs (resultOf state o1) h1)
    as (o2 & E2 & R2 & B2 & A2 & L2).
  destruct (deleteSelectedLayers_runs (resultOf (resultOf state o1) o2) h1)
    as (o3 & h3 & E3 & R3 & S3 & L3 & T3).
  rewrite B1 in R2. rewrite L2, L1 in R3.
  exists (match o3, o2 with
          | Changed s', _ => Changed s'
          | Unchanged, Changed s' => Changed s'
          | Unchanged, Unchanged => o1
          end), h3.
  split; [cbn [reducer]; unfold bind; rewrite E1, E2, E3; reflexivity |].
  assert (Hres : resultOf state (match o3, o2 with
                                 | Changed s', _ => Changed s'
                                 | Unchanged, Changed s' => Changed s'
                                 | Unchanged, Unchanged => o1
                                 end)
                 = resultOf (resultOf (resultOf state o1) o2) o3)
    by (destruct o3, o2; reflexivity).
  rewrite Hres, T3, L3, B2, A2, A1.
  split; [| split; [| auto]].
  - destruct (JSSet.nonEmpty (selectedAnimationIds (timeline state))) eqn:Na;
      destruct (JSSet.nonEmpty (selectedBlockIds (timeline state))) eqn:Nb;
      destruct (JSSet.nonEmpty (selectedLayerIds (layers state))) eqn:Nl;
      cbn [negb] in R1, R2, R3;
      destruct o1, o2, o3; try discriminate; cbn [sameReference];
      try (split; [discriminate |]; intros (Ha & Hb & Hl);
           rewrite ?Ha, ?Hb, ?Hl in *; discriminate).
    split; [| reflexivity]. intros _.
    auto using nonEmpty_false.
  - destruct o3; [| discriminate]. destruct o2; [| discriminate].
    intros Ho1. rewrite (S3 eq_refl). exact (S1 Ho1).
Qed.

(** ** Activating an animation the document does not have *)

Lemma find_none_of_ids (id : string) (l : list Animation) :
  ~ In id (map aid l) -> find (fun a => String.eqb (aid a) id) l = None.
Proof.
  induction l as [| a l IH]; cbn; [reflexivity |]. intros Hn.
  destruct (String.eqb_spec (aid a) id) as [E | _]; [destruct Hn; auto | apply IH; tauto].
Qed.

Lemma findIndex_none_of_ids (id : string) (l : list Animation) :
  ~ In id (map aid l) -> findIndex (fun a => String.eqb (aid a) id) l = None.
Proof.
  intros Hn. apply findIndex_None. intros a Ha.
  destruct (String.eqb_spec (aid a) id) as [E | _]; [| reflexivity].
  destruct Hn. subst id. apply in_map, Ha.
Qed.

(** X25: [ACTIVATE_ANIMATION] does not look the id up: with an id that
    names no animation of the document it returns, the store untouched, a
    state whose active id is that id and whose animations and layers are as
    before; on that state every [ADD_BLOCK] and every [UPDATE_PATH_BLOCK]
    throws. *)
Theorem activateAnimation_unknown_id (state : State) (id : string) (h : Store) :
  ~ In id (map aid (animations (timeline state))) ->
  exists o,
    reducer state (ActivateAnimation id) h = (Some o, h) /\
    activeAnimationId (timeline (resultOf state o)) = id /\
    animations (timeline (resultOf state o)) = animations (timeline state) /\
    layers (resultOf state o) = layers state /\
    (forall layer prop fromV toV h2,
       reducer (resultOf state o) (AddBlock layer prop fromV toV) h2 = (None, h2)) /\
    (forall blockId source path h2,
       reducer (resultOf state o) (UpdatePathBlock blockId source path) h2 = (None, h2)).
Proof.
  intros Hn.
  assert (Hthrow : forall s,
            activeAnimationId (timeline s) = id ->
            animations (timeline s) = animations (timeline state) ->
            (forall layer prop fromV toV h2,
               reducer s (AddBlock layer prop fromV toV) h2 = (None, h2)) /\
            (forall blockId source path h2,
               reducer s (UpdatePathBlock blockId source path) h2 = (None, h2))).
  { intros s Hid Han. split.
    - intros layer prop fromV toV h2. cbn [reducer].
      unfold addBlock, bind, getStore. rewrite Hid, Han, (find_none_of_ids _ _ Hn).
      reflexivity.
    - intros blockId source path h2. cbn [reducer].
      unfold updatePathAnimationBlock, bind, getStore, atFoundIndex.
      rewrite Hid, Han, (findIndex_none_of_ids _ _ Hn). reflexivity. }
  cbn [reducer].
  destruct (String.eqb_spec id (activeAnimationId (timeline state))) as [E | Hne].
  - exists Unchanged. split; [reflexivity |]. cbn [resultOf].
    split; [auto |]. split; [reflexivity |]. split; [reflexivity |].
    apply Hthrow; auto.
  - eexists. split; [reflexivity |]. cbn [resultOf].
    split; [reflexivity |]. split; [reflexivity |]. split; [reflexivity |].
    apply Hthrow; reflexivity.
Qed.

End Outcomes.

(** ** The properties above on concrete documents *)

Lemma toggleSelections_replace_witness :
  toggleSelections [1; 2] [2] false = [] /\ toggleSelections [1; 2] [3] false = [3].
Proof.
  split.
  - apply (proj1 (toggleSelections_replace [1; 2] [2])).
    exists 2. split; [right; left; reflexivity | left; reflexivity].
  - apply (proj2 (toggleSelections_replace [1; 2] [3])).
    intros c [<- | [<- | []]] [E | []]; discriminate.
Defined.

Lemma toggleSelections_append_twice_witness :
  ~ In 3 [1; 2] /\
  toggleSelections (toggleSelections [1; 2] [3] true) [3] true = [1; 2].
Proof.
  assert (Hn : ~ In 3 [1; 2]) by (intros [E | [E | []]]; discriminate).
  split; [exact Hn |].
  exact (proj2 (toggleSelections_append_twice [1; 2] 3 Hn)).
Defined.

Lemma toggleSelections_members_witness :
  In 1 (toggleSelections [1; 2] [2; 3] true).
Proof.
  apply (proj2 (toggleSelections_members [1; 2] [2; 3] true 1));
    [reflexivity | left; reflexivity |].
  intros [E | [E | []]]; discriminate.
Defined.

Lemma toggleSubPathSelection_single_witness :
  toggleSubPathSelection
    [ {| Selection.type := SelectionType.Point; Selection.source := ActionSource.From;
         Selection.subIdx := 0; Selection.cmdIdx := KeyValue 1 |};
      {| Selection.type := SelectionType.SubPath; Selection.source := ActionSource.From;
         Selection.subIdx := 0; Selection.cmdIdx := KeyUndefined |} ]
    ActionSource.From 0
  = [ {| Selection.type := SelectionType.SubPath; Selection.source := ActionSource.From;
         Selection.subIdx := 0; Selection.cmdIdx := KeyMissing |} ] /\
  toggleSubPathSelection
    [ {| Selection.type := SelectionType.SubPath; Selection.source := ActionSource.From;
         Selection.subIdx := 0; Selection.cmdIdx := KeyMissing |} ]
    ActionSource.From 0
  = [].
Proof.
  split.
  - apply (proj2 (toggleSubPathSelection_single _ ActionSource.From 0)).
    intros [E | [E | []]]; discriminate.
  - apply (proj1 (toggleSubPathSelection_single _ ActionSource.From 0)).
    left. reflexivity.
Defined.

Lemma togglePointSelection_points_witness :
  In {| Selection.type := SelectionType.Point; Selection.source := ActionSource.To;
        Selection.subIdx := 0; Selection.cmdIdx := KeyValue 1 |}
     (togglePointSelection
        [ {| Selection.type := SelectionType.Point; Selection.source := ActionSource.To;
             Selection.subIdx := 0; Selection.cmdIdx := KeyValue 1 |} ]
        ActionSource.To 0 2 true).
Proof.
  destruct (togglePointSelection_points
              [ {| Selection.type := SelectionType.Point; Selection.source := ActionSource.To;
                   Selection.subIdx := 0; Selection.cmdIdx := KeyValue 1 |} ]
              ActionSource.To 0 2 true) as (_ & _ & Hkeep).
  apply Hkeep; [reflexivity | left; reflexivity | reflexivity | reflexivity | discriminate].
Defined.

Lemma toggleActionMode_toggles_witness :
  toggleActionMode ActionMode.SplitCommands ActionMode.SplitCommands
  = Some ActionMode.Selection.
Proof.
  destruct (toggleActionMode_toggles ActionMode.SplitCommands ActionMode.SplitCommands)
    as (_ & H & _).
  rewrite H; [reflexivity | discriminate].
Defined.

Lemma selectBlockId_selects_witness :
  selectedAnimationIds (timeline firstAnimationSelected) = ["2"] /\
  selectedAnimationIds
    (timeline (resultOf firstAnimationSelected
                        (selectBlockId firstAnimationSelected "b0" true))) = [].
Proof.
  split; [reflexivity |].
  destruct (selectBlockId_selects firstAnimationSelected "b0" true) as (_ & _ & _ & H & _).
  exact (proj1 (H eq_refl)).
Defined.

Lemma selectLayerId_unknown_layer_witness :
  selectLayerId gapState "nowhere" true false gapStore = (None, gapStore) /\
  exists s', selectLayerId gapState "L" true false gapStore = (Some (Changed s'), gapStore).
Proof.
  split.
  - apply (proj1 (selectLayerId_unknown_layer gapState "nowhere" true false gapStore)).
    reflexivity.
  - destruct (proj2 (selectLayerId_unknown_layer gapState "L" true false gapStore)
                    vectorLayerV eq_refl) as (s' & E & _).
    exists s'. exact E.
Defined.

Lemma selectLayerId_selection_witness :
  findParentVectorLayer (vectorLayers (layers layersDocument)) "L" = Some vectorLayerV /\
  exists s',
    selectLayerId layersDocument "L" true false emptyStore = (Some (Changed s'), emptyStore) /\
    ~ In "L" (selectedLayerIds (layers s')).
Proof.
  split; [reflexivity |].
  eexists. split; [vm_compute; reflexivity |].
  destruct (selectLayerId_selection layersDocument "L" true false emptyStore vectorLayerV _
              eq_refl eq_refl) as [_ H].
  destruct (H (or_intror eq_refl)) as (_ & Hin & _).
  intros Hl. apply Hin in Hl. apply Hl. split; [reflexivity | left; reflexivity].
Defined.

Lemma toggleLayerExpansion_subtree_witness :
  exists s1,
    @reducer sampleCollaborators gapState (ToggleLayerExpansion "V" true) gapStore
      = (Some (Changed s1), gapStore) /\
    In "L" (collapsedLayerIds (layers s1)).
Proof.
  destruct (@toggleLayerExpansion_subtree sampleCollaborators gapState "V" true gapStore)
    as (s1 & E & Ha & _).
  exists s1. split; [exact E |].
  apply (Ha "L").
  - right. split; [reflexivity |]. exists vectorLayerV.
    split; [reflexivity | right; left; reflexivity].
  - intros [].
Defined.

Lemma replaceAnimations_keeps_ids_witness :
  [ {| aid := "B"; duration := 700; blocks := [] |} ] <> [] /\
  exists s',
    @reducer sampleCollaborators twoAnimations
       (ReplaceAnimations [ {| aid := "B"; duration := 700; blocks := [] |} ]) initialStore
      = (Some (Changed s'), initialStore) /\
    map aid (animations (timeline s')) = ["2"; "B"].
Proof.
  assert (Hn : [ {| aid := "B"; duration := 700; blocks := [] |} ] <> []) by discriminate.
  split; [exact Hn |].
  destruct (@replaceAnimations_keeps_ids sampleCollaborators twoAnimations _ initialStore Hn)
    as (s' & E & Hids & _).
  exists s'. split; [exact E | exact Hids].
Defined.

Lemma replaceBlocks_keeps_shape_witness :
  [0] <> @nil BlockRef /\
  exists s',
    @reducer sampleCollaborators gapState (ReplaceBlocks [0]) gapStore
      = (Some (Changed s'), gapStore) /\
    map (fun a => length (blocks a)) (animations (timeline s')) = [1].
Proof.
  assert (Hn : [0] <> @nil BlockRef) by discriminate.
  split; [exact Hn |].
  destruct (proj2 (@replaceBlocks_keeps_shape sampleCollaborators gapState [0] gapStore Hn))
    as (s' & E & _ & Hlen & _).
  - intros b [<- | []]. left. reflexivity.
  - exists s'. split; [exact E | exact Hlen].
Defined.

Lemma addLayers_appends_witness :
  [layerM] <> [] /\
  exists s',
    @reducer sampleCollaborators gapState (AddLayers [layerM]) gapStore
      = (Some (Changed s'), gapStore) /\
    map lid (vectorLayers (layers s')) = ["V"] /\
    timeline s' = timeline gapState.
Proof.
  assert (Hn : [layerM] <> []) by discriminate.
  split; [exact Hn |].
  destruct (proj2 (@addLayers_appends sampleCollaborators gapState [layerM] gapStore Hn))
    as (s' & i & vl & E & _ & _ & _ & _ & _ & Hids & _ & Ht).
  - left. reflexivity.
  - exists s'. split; [exact E |]. split; [exact Hids | exact Ht].
Defined.

Lemma replaceLayer_keeps_ids_witness :
  @reducer sampleCollaborators gapState (ReplaceLayer layerM) gapStore = (None, gapStore) /\
  exists s',
    @reducer sampleCollaborators gapState (ReplaceLayer layerL) gapStore
      = (Some (Changed s'), gapStore) /\
    map lid (vectorLayers (layers s')) = ["V"].
Proof.
  split.
  - apply (proj1 (@replaceLayer_keeps_ids sampleCollaborators gapState layerM gapStore));
      reflexivity.
  - destruct (proj2 (@replaceLayer_keeps_ids sampleCollaborators gapState layerL gapStore))
      as (s' & replacedId & E & Hids & _).
    + right. discriminate.
    + exists s'. split; [exact E | exact Hids].
Defined.

Lemma deleteSelectedBlocks_removes_witness :
  selectedBlockIds (timeline morphState) <> [] /\
  exists s',
    deleteSelectedBlocks morphState morphStore = (Some (Changed s'), morphStore) /\
    selectedBlockIds (timeline s') = [] /\
    map aid (animations (timeline s')) = ["A"].
Proof.
  assert (Hn : selectedBlockIds (timeline morphState) <> []) by discriminate.
  split; [exact Hn |].
  destruct (deleteSelectedBlocks_removes morphState morphStore Hn)
    as (s' & E & Hsel & Hids & _).
  exists s'. split; [exact E |]. split; [exact Hsel | exact Hids].
Defined.

Lemma findGap_first_nearest_witness :
  findGap gapStore {| aid := "A"; duration := 1000; blocks := [0] |} "L" "P"
    = Some (mkGap 300 1000) /\
  exists before after,
    List.filter (fun g => (gapEnd g - gapStart g >? newBlockDuration)%Z)
                (buildGaps 0 (blockNeighborsOf gapStore
                                {| aid := "A"; duration := 1000; blocks := [0] |} "L" "P")
                           1000)
      = before ++ mkGap 300 1000 :: after.
Proof.
  split; [reflexivity |].
  destruct (findGap_first_nearest gapStore {| aid := "A"; duration := 1000; blocks := [0] |}
              "L" "P" (mkGap 300 1000) eq_refl) as (before & after & E & _).
  exists before, after. exact E.
Defined.


Lemma placeInGap_left_edge_witness :
  (gapEnd (mkGap 300 1000) - gapStart (mkGap 300 1000) > newBlockDuration)%Z /\
  (0 <= gapStart (mkGap 300 1000) <= 2 ^ 53 - 100)%Z /\
  placeInGap (mkGap 300 1000) = (300, 400)%Z.
Proof.
  assert (Hw : (gapEnd (mkGap 300 1000) - gapStart (mkGap 300 1000) > newBlockDuration)%Z)
    by reflexivity.
  assert (Hs : (0 <= gapStart (mkGap 300 1000) <= 2 ^ 53 - 100)%Z)
    by (split; discriminate).
  split; [exact Hw |]. split; [exact Hs |].
  exact (placeInGap_left_edge (mkGap 300 1000) Hw Hs).
Defined.

Lemma reducer_store_frame_witness :
  @reducer sampleCollaborators gapState (AddBlock layerL "P" VUndefined VUndefined) gapStore
    = (Some (Changed gapStateAfter), gapStoreAfter) /\
  storeKept gapStore gapStoreAfter /\
  deref gapStoreAfter 0 = blockLP "b0" 100 300.
Proof.
  assert (E : @reducer sampleCollaborators gapState
                (AddBlock layerL "P" VUndefined VUndefined) gapStore
              = (Some (Changed gapStateAfter), gapStoreAfter)) by reflexivity.
  split; [exact E |].
  destruct (@reducer_store_frame sampleCollaborators _ _ _ _ _ E) as (Hk & _ & Hsame & _).
  split; [exact Hk |].
  apply (Hsame ltac:(discriminate) 0 (Nat.lt_0_succ 0)).
Defined.

Lemma reducer_keeps_active_ids_witness :
  activeIdsValid firstAnimationSelected /\
  exists s' h',
    @reducer sampleCollaborators firstAnimationSelected DeleteSelectedModels initialStore
      = (Some (Changed s'), h') /\
    activeIdsValid s'.
Proof.
  assert (Hv : activeIdsValid firstAnimationSelected)
    by (split; left; reflexivity).
  split; [exact Hv |].
  eexists _, _. split; [vm_compute; reflexivity |].
  refine (@reducer_keeps_active_ids sampleCollaborators firstAnimationSelected
            DeleteSelectedModels initialStore (Changed _) _ Hv _ eq_refl).
  intros id Hid. discriminate Hid.
Defined.

Lemma updatePathAnimationBlock_returns_witness :
  CollaboratorLaws sampleCollaborators /\
  (exists s' h',
     @updatePathAnimationBlock sampleCollaborators morphState "b0" Start editedPath morphStore
       = (Some (Changed s'), h')) /\
  @updatePathAnimationBlock sampleCollaborators morphState "b1" Start editedPath morphStore
    = (None, morphStore).
Proof.
  split; [exact sampleLaws |]. split.
  - apply (proj1 (@updatePathAnimationBlock_returns sampleCollaborators sampleLaws
                    morphState "b0" Start editedPath morphStore)).
    exists 0. split; [reflexivity |]. right. exists promotedPath. reflexivity.
  - apply (proj2 (@updatePathAnimationBlock_returns sampleCollaborators sampleLaws
                    morphState "b1" Start editedPath morphStore)).
    intros (b & Hb & _). discriminate Hb.
Defined.

Lemma deleteSelectedLayers_sets_witness :
  exists s' h',
    deleteSelectedLayers layersDocument emptyStore = (Some (Changed s'), h') /\
    In "V" (collapsedLayerIds (layers s')) /\
    selectedLayerIds (layers s') = [].
Proof.
  eexists _, _. split; [vm_compute; reflexivity |].
  destruct (deleteSelectedLayers_sets layersDocument emptyStore (Changed _) _ "V" eq_refl) as (_ & _ & Hk & Hsel & _).
  split; [| exact Hsel].
  apply Hk; [| right; left; reflexivity].
  intros [E | []]. discriminate E.
Defined.

Lemma activateAnimation_unknown_id_witness :
  ~ In "Z" (map aid (animations (timeline gapState))) /\
  @reducer sampleCollaborators
     (dispatchIn gapStore gapState (ActivateAnimation "Z"))
     (AddBlock layerL "P" VUndefined VUndefined) gapStore
  = (None, gapStore).
Proof.
  assert (Hn : ~ In "Z" (map aid (animations (timeline gapState))))
    by (intros [E | []]; discriminate).
  split; [exact Hn |].
  destruct (@activateAnimation_unknown_id sampleCollaborators gapState "Z" gapStore Hn)
    as (o & E & _ & _ & _ & Hadd & _).
  assert (Eo : dispatchIn gapStore gapState (ActivateAnimation "Z") = resultOf gapState o).
  { unfold dispatchIn, reduce. rewrite E. reflexivity. }
  rewrite Eo. apply Hadd.
Defined.
